(** * A shallow embedding of the pool allocator of [headers/lpool.hpp]

    The allocator [llib::PoolAllocator<T>] hands out fixed-size chunks carved
    out of blocks obtained from [std::malloc]; free chunks are threaded into a
    singly linked list through their first machine word, and every block is
    recorded in a [std::calloc]'ed table so that the destructor can release it.

    The code manipulates raw addresses, so the embedding is a small C-like
    memory model on a 64-bit platform ([usize] and pointers are 8 bytes wide):

    - addresses and [usize] values are integers in [0, 2^64), arithmetic on
      [usize] wraps;
    - the heap is a byte store together with the list of live allocations;
    - every operation that C++ leaves undefined (a load or store outside live
      storage, pointer arithmetic leaving its allocation, an invalid [free])
      is the explicit outcome [Fault];
    - [std::malloc] and [std::calloc] are driven by the address the memory
      system picks, given as an argument: the call returns that address when
      it denotes fresh storage and [nullptr] otherwise.

    The diagnostic [fprintf] calls guarded by [lpool_log_level] do not touch
    the allocator and are left out. *)

From Stdlib Require Import ZArith List Bool Lia Permutation.
Import ListNotations.
Local Open Scope Z_scope.

(** * Part I: the embedding *)

(** ** Machine integers ([headers/ldata.h]) *)

Module Usize.

(** [typedef size_t usize]: 64 bits wide. *)
Definition bits : Z := 64.
Definition modulus : Z := 2 ^ bits.
Definition max : Z := modulus - 1.

Definition in_range (z : Z) : Prop := 0 <= z < modulus.

(** Unsigned arithmetic is performed modulo [2^64]. *)
Definition wrap (z : Z) : Z := z mod modulus.
Definition add (a b : Z) : Z := wrap (a + b).
Definition sub (a b : Z) : Z := wrap (a - b).
Definition mul (a b : Z) : Z := wrap (a * b).

End Usize.

(** [sizeof(ptr)], the width of a pointer and so of [Chunk::next]. *)
Definition sizeof_ptr : Z := 8.

Definition nullptr : Z := 0.

(** ** Outcomes *)

(** The ways in which an execution leaves defined behaviour. *)
Inductive fault : Type :=
| OutOfBounds (addr : Z)
| PointerOverflow (p k : Z)
| InvalidFree (p : Z)
| Misuse (p : Z).

Inductive result (A : Type) : Type :=
| Ok (a : A)
| Fault (f : fault).
Arguments Ok {A} a.
Arguments Fault {A} f.

Definition bind {A B : Type} (m : result A) (k : A -> result B) : result B :=
  match m with
  | Ok a => k a
  | Fault f => Fault f
  end.

Notation "x <- m ;; k" := (bind m (fun x => k))
  (at level 61, m at next level, right associativity).
Notation "' pat <- m ;; k" := (bind m (fun x => match x with pat => k end))
  (at level 61, pat pattern, m at next level, right associativity).

(** ** Bytes and pointer-sized objects *)

Module Bytes.

(** Little-endian bytes of a value, least significant first. *)
Fixpoint encode (n : nat) (v : Z) : list Z :=
  match n with
  | O => []
  | S n' => v mod 256 :: encode n' (v / 256)
  end.

Fixpoint decode (l : list Z) : Z :=
  match l with
  | [] => 0
  | b :: l' => b + 256 * decode l'
  end.

End Bytes.

(** The byte store: one byte per address. *)
Definition memory : Type := Z -> Z.

Fixpoint read_bytes (m : memory) (a : Z) (n : nat) : list Z :=
  match n with
  | O => []
  | S n' => m a :: read_bytes m (a + 1) n'
  end.

Fixpoint write_bytes (m : memory) (a : Z) (l : list Z) : memory :=
  match l with
  | [] => m
  | b :: l' => write_bytes (fun x => if x =? a then b else m x) (a + 1) l'
  end.

(** Reading and writing a pointer-sized object at address [a]. *)
Definition load64 (m : memory) (a : Z) : Z :=
  Bytes.decode (read_bytes m a (Z.to_nat sizeof_ptr)).

Definition store64 (m : memory) (a v : Z) : memory :=
  write_bytes m a (Bytes.encode (Z.to_nat sizeof_ptr) v).

(** ** The heap of the C runtime *)

(** An allocation is its base address and its size in bytes.  [freed] logs
    the argument of every call to [std::free], oldest first. *)
Record Heap : Type := mkHeap {
  live : list (Z * Z);
  bytes : memory;
  freed : list Z
}.

(** [a, a+len) lies within the allocation [blk]. *)
Definition inside (a len : Z) (blk : Z * Z) : bool :=
  (fst blk <=? a) && (a + len <=? fst blk + snd blk).

Definition accessible (h : Heap) (a len : Z) : bool :=
  existsb (inside a len) (live h).

(** [*p] for a pointer-sized object, as an rvalue and as an lvalue. *)
Definition load_ptr (a : Z) (h : Heap) : result Z :=
  if accessible h a sizeof_ptr then Ok (load64 (bytes h) a)
  else Fault (OutOfBounds a).

Definition store_ptr (a v : Z) (h : Heap) : result Heap :=
  if accessible h a sizeof_ptr
  then Ok (mkHeap (live h) (store64 (bytes h) a v) (freed h))
  else Fault (OutOfBounds a).

(** A store through a [char] pointer. *)
Definition store_byte (a v : Z) (h : Heap) : result Heap :=
  if accessible h a 1
  then Ok (mkHeap (live h) (fun x => if x =? a then v mod 256 else bytes h x)
                  (freed h))
  else Fault (OutOfBounds a).

(** [p + k] on a byte pointer: defined when [k] is zero, or when [p] and the
    result are within (or one past the end of) the same allocation. *)
Definition ptr_add (p k : Z) (h : Heap) : result Z :=
  if (k =? 0)
     || existsb (fun blk => inside p 0 blk && inside (p + k) 0 blk) (live h)
  then Ok (p + k)
  else Fault (PointerOverflow p k).

(** Storage the memory system may hand out: non-null, within the address
    space, and not touching any live allocation. *)
Definition separated (a sz : Z) (blk : Z * Z) : bool :=
  (a + sz <? fst blk) || (fst blk + snd blk <? a).

Definition fresh_in (l : list (Z * Z)) (a sz : Z) : bool :=
  (0 <? a) && (0 <=? sz) && (a + sz <? Usize.modulus)
  && forallb (separated a sz) l.

Definition fresh (h : Heap) (a sz : Z) : bool := fresh_in (live h) a sz.

(** [std::malloc(size)], where [pick] is the address the memory system
    chooses; a choice that is not fresh storage is a failed allocation. *)
Definition malloc (size pick : Z) (h : Heap) : Z * Heap :=
  if fresh h pick size
  then (pick, mkHeap ((pick, size) :: live h) (bytes h) (freed h))
  else (nullptr, h).

(** [std::calloc(nmemb, size)]: fails when the product overflows, and zeroes
    the storage it returns. *)
Definition calloc (nmemb size pick : Z) (h : Heap) : Z * Heap :=
  if (nmemb * size <? Usize.modulus) && fresh h pick (nmemb * size)
  then (pick,
        mkHeap ((pick, nmemb * size) :: live h)
               (fun x => if (pick <=? x) && (x <? pick + nmemb * size)
                         then 0 else bytes h x)
               (freed h))
  else (nullptr, h).

(** [std::free(p)]: nothing happens for [nullptr]; otherwise [p] must be the
    base of a live allocation. *)
Definition free (p : Z) (h : Heap) : result Heap :=
  if p =? nullptr then Ok (mkHeap (live h) (bytes h) (freed h ++ [p]))
  else if existsb (fun blk => fst blk =? p) (live h)
  then Ok (mkHeap (filter (fun blk => negb (fst blk =? p)) (live h))
                  (bytes h) (freed h ++ [p]))
  else Fault (InvalidFree p).

Definition empty_heap : Heap := mkHeap [] (fun _ => 0) [].

(** ** [template <class T> struct PoolAllocator] *)

Record PoolAllocator : Type := mkPool {
  m_chunk_size : Z;
  m_chunks_per_block : Z;
  m_max_blocks : Z;
  m_current_block_index : Z;
  m_blocks : Z;
  m_alloc : Z
}.

Definition with_alloc (a : Z) (p : PoolAllocator) : PoolAllocator :=
  mkPool (m_chunk_size p) (m_chunks_per_block p) (m_max_blocks p)
         (m_current_block_index p) (m_blocks p) a.

Definition with_current_block_index (i : Z) (p : PoolAllocator)
    : PoolAllocator :=
  mkPool (m_chunk_size p) (m_chunks_per_block p) (m_max_blocks p)
         i (m_blocks p) (m_alloc p).

(** [PoolAllocator(usize const chunks_per_block, usize const max_blocks)],
    for an element type with [sizeof(T) = sizeof_T].  The constructor has no
    failing path. *)
Definition PoolAllocator_init (sizeof_T chunks_per_block max_blocks pick : Z)
    (h : Heap) : result (PoolAllocator * Heap) :=
  let '(blocks, h1) := calloc max_blocks sizeof_ptr pick h in
  Ok (mkPool sizeof_T chunks_per_block max_blocks 0 blocks nullptr, h1).

(** The chaining loop of [_allocate_block]:
    [for (i = 0; i < m_chunks_per_block - 1; ++i)
       { chunk->next = (char* )chunk + m_chunk_size; chunk = chunk->next; }]
    with [n] the number of iterations.  It returns the final [chunk]. *)
Fixpoint chain_chunks (n : nat) (chunk_size chunk : Z) (h : Heap)
    : result (Z * Heap) :=
  match n with
  | O => Ok (chunk, h)
  | S n' =>
      next <- ptr_add chunk chunk_size h;;
      h1 <- store_ptr chunk next h;;
      chunk' <- load_ptr chunk h1;;
      chain_chunks n' chunk_size chunk' h1
  end.

Definition _allocate_block (pick : Z) (p : PoolAllocator) (h : Heap)
    : result (Z * PoolAllocator * Heap) :=
  if m_max_blocks p <=? m_current_block_index p then Ok (nullptr, p, h) else
  let block_size := Usize.mul (m_chunks_per_block p) (m_chunk_size p) in
  let '(block_begin, h1) := malloc block_size pick h in
  if block_begin =? nullptr then Ok (nullptr, p, h1) else
  slot <- ptr_add (m_blocks p) (sizeof_ptr * m_current_block_index p) h1;;
  h2 <- store_ptr slot block_begin h1;;
  let p1 :=
    with_current_block_index (Usize.add (m_current_block_index p) 1) p in
  '(chunk, h3) <- chain_chunks
                    (Z.to_nat (Usize.sub (m_chunks_per_block p1) 1))
                    (m_chunk_size p1) block_begin h2;;
  h4 <- store_ptr chunk nullptr h3;;
  Ok (block_begin, p1, h4).

(** The first statement of [allocate]:
    [if (m_alloc == nullptr) m_alloc = _allocate_block();] *)
Definition allocate_refill (pick : Z) (p : PoolAllocator) (h : Heap)
    : result (PoolAllocator * Heap) :=
  if m_alloc p =? nullptr then
    '(block, p1, h1) <- _allocate_block pick p h;;
    Ok (with_alloc block p1, h1)
  else Ok (p, h).

Definition allocate (pick : Z) (p : PoolAllocator) (h : Heap)
    : result (Z * PoolAllocator * Heap) :=
  '(p1, h1) <- allocate_refill pick p h;;
  let free_chunk := m_alloc p1 in
  next <- load_ptr (m_alloc p1) h1;;
  Ok (free_chunk, with_alloc next p1, h1).

Definition deallocate (chunk : Z) (p : PoolAllocator) (h : Heap)
    : result (PoolAllocator * Heap) :=
  h1 <- store_ptr chunk (m_alloc p) h;;
  Ok (with_alloc chunk p, h1).

Definition chunk_size (p : PoolAllocator) : Z := m_chunk_size p.
Definition max_blocks (p : PoolAllocator) : Z := m_max_blocks p.
Definition chunks_per_block (p : PoolAllocator) : Z := m_chunks_per_block p.

(** The loop of the destructor, [count] iterations starting at index [i]:
    [std::free(m_blocks[i])]. *)
Fixpoint free_blocks (count : nat) (i : Z) (p : PoolAllocator) (h : Heap)
    : result Heap :=
  match count with
  | O => Ok h
  | S count' =>
      slot <- ptr_add (m_blocks p) (sizeof_ptr * i) h;;
      block <- load_ptr slot h;;
      h1 <- free block h;;
      free_blocks count' (i + 1) p h1
  end.

(** [~PoolAllocator()]. *)
Definition PoolAllocator_destroy (p : PoolAllocator) (h : Heap) : result Heap :=
  h1 <- free_blocks (Z.to_nat (m_current_block_index p)) 0 p h;;
  free (m_blocks p) h1.

(** ** Clients *)

(** A client calls [allocate] and [deallocate]; [outstanding] records the
    pointers it has been given and has not handed back, most recent first.
    Handing back anything else breaks the contract of [deallocate]. *)
Inductive op : Type :=
| Allocate (pick : Z)
| Deallocate (chunk : Z).

Record world : Type := mkWorld {
  pool : PoolAllocator;
  heap : Heap;
  outstanding : list Z
}.

Fixpoint remove_one (x : Z) (l : list Z) : list Z :=
  match l with
  | [] => []
  | y :: l' => if x =? y then l' else y :: remove_one x l'
  end.

Definition step (o : op) (w : world) : result world :=
  match o with
  | Allocate pick =>
      '(chunk, p, h) <- allocate pick (pool w) (heap w);;
      Ok (mkWorld p h (chunk :: outstanding w))
  | Deallocate chunk =>
      if existsb (Z.eqb chunk) (outstanding w) then
        '(p, h) <- deallocate chunk (pool w) (heap w);;
        Ok (mkWorld p h (remove_one chunk (outstanding w)))
      else Fault (Misuse chunk)
  end.

(** Between calls the client uses the chunks it holds, as [main] does with
    [*example_items[0] = ...]: it may store any byte anywhere inside one of
    them. *)
Inductive action : Type :=
| Call (o : op)
| Write (chunk offset value : Z).

Definition act (a : action) (w : world) : result world :=
  match a with
  | Call o => step o w
  | Write chunk offset value =>
      if existsb (Z.eqb chunk) (outstanding w)
         && (0 <=? offset) && (offset <? chunk_size (pool w))
      then
        h <- store_byte (chunk + offset) value (heap w);;
        Ok (mkWorld (pool w) h (outstanding w))
      else Fault (Misuse chunk)
  end.

Fixpoint run (acts : list action) (w : world) : result world :=
  match acts with
  | [] => Ok w
  | a :: acts' => w' <- act a w;; run acts' w'
  end.

(** The same without the client's bookkeeping: any sequence of calls. *)
Definition call (o : op) (ph : PoolAllocator * Heap)
    : result (PoolAllocator * Heap) :=
  match o with
  | Allocate pick =>
      '(_, p, h) <- allocate pick (fst ph) (snd ph);; Ok (p, h)
  | Deallocate chunk => deallocate chunk (fst ph) (snd ph)
  end.

Fixpoint calls (ops : list op) (ph : PoolAllocator * Heap)
    : result (PoolAllocator * Heap) :=
  match ops with
  | [] => Ok ph
  | o :: ops' => ph' <- call o ph;; calls ops' ph'
  end.

(** Live allocations are apart from each other and within the address
    space. *)
Fixpoint wf_live (l : list (Z * Z)) : bool :=
  match l with
  | [] => true
  | blk :: l' => fresh_in l' (fst blk) (snd blk) && wf_live l'
  end.

Definition heap_wf (h : Heap) : Prop := wf_live (live h) = true.

(** A pool is created in a well-formed heap, for an element type of at least
    one byte, with [usize] arguments. *)
Definition valid_start (sizeof_T chunks_per_block max_blocks : Z) (h : Heap)
    : Prop :=
  heap_wf h /\ 1 <= sizeof_T < Usize.modulus
  /\ Usize.in_range chunks_per_block /\ Usize.in_range max_blocks.

Definition start (sizeof_T chunks_per_block max_blocks pick : Z) (h : Heap)
    : result world :=
  '(p, h1) <- PoolAllocator_init sizeof_T chunks_per_block max_blocks pick h;;
  Ok (mkWorld p h1 []).

(** The states a pool and its client can be in. *)
Definition reachable (w : world) : Prop :=
  exists sizeof_T chunks_per_block max_blocks pick h acts w0,
    valid_start sizeof_T chunks_per_block max_blocks h
    /\ start sizeof_T chunks_per_block max_blocks pick h = Ok w0
    /\ run acts w0 = Ok w.

(** ** Bookkeeping read back from memory *)

(** [m_blocks[i], ..., m_blocks[i + count - 1]]. *)
Fixpoint table_entries (m : memory) (base i : Z) (count : nat) : list Z :=
  match count with
  | O => []
  | S count' =>
      load64 m (base + sizeof_ptr * i) :: table_entries m base (i + 1) count'
  end.

(** The blocks recorded so far. *)
Definition block_table (p : PoolAllocator) (h : Heap) : list Z :=
  table_entries (bytes h) (m_blocks p) 0 (Z.to_nat (m_current_block_index p)).

(** [c] is the address of a chunk of a recorded block. *)
Definition is_chunk (p : PoolAllocator) (h : Heap) (c : Z) : Prop :=
  exists b j, In b (block_table p h) /\ 0 <= j < m_chunks_per_block p
              /\ c = b + j * m_chunk_size p.

(** The chunks met when following [next] from [head] up to [nullptr]. *)
Fixpoint free_chain (m : memory) (head : Z) (l : list Z) : Prop :=
  match l with
  | [] => head = nullptr
  | c :: l' => head = c /\ c <> nullptr /\ free_chain m (load64 m c) l'
  end.

(** The chunks [j, j+1, ..., j+count-1] of the block at [B]. *)
Fixpoint carved (B size j : Z) (count : nat) : list Z :=
  match count with
  | O => []
  | S count' => (B + j * size) :: carved B size (j + 1) count'
  end.

(** The address ranges of two chunks of [size] bytes do not overlap. *)
Definition disjoint_chunks (size p1 p2 : Z) : Prop :=
  p1 + size <= p2 \/ p2 + size <= p1.

(** What every reachable state satisfies. *)
Record pool_inv (w : world) : Prop := mkInv {
  inv_heap : heap_wf (heap w);
  inv_size : 1 <= m_chunk_size (pool w) < Usize.modulus;
  inv_cpb : Usize.in_range (m_chunks_per_block (pool w));
  inv_count : 0 <= m_current_block_index (pool w) <= m_max_blocks (pool w);
  inv_max : Usize.in_range (m_max_blocks (pool w));
  inv_table :
    (m_blocks (pool w) = nullptr /\ m_current_block_index (pool w) = 0)
    \/ In (m_blocks (pool w), m_max_blocks (pool w) * sizeof_ptr)
          (live (heap w));
  inv_blocks :
    forall b, In b (block_table (pool w) (heap w)) ->
      In (b, m_chunks_per_block (pool w) * m_chunk_size (pool w))
         (live (heap w));
  inv_distinct : NoDup (m_blocks (pool w) :: block_table (pool w) (heap w));
  inv_geometry :
    0 < m_current_block_index (pool w) ->
    sizeof_ptr <= m_chunk_size (pool w) /\ 1 <= m_chunks_per_block (pool w)
    /\ m_chunks_per_block (pool w) * m_chunk_size (pool w) < Usize.modulus;
  inv_free :
    exists fl, free_chain (bytes (heap w)) (m_alloc (pool w)) fl
      /\ NoDup (fl ++ outstanding w)
      /\ forall c, In c (fl ++ outstanding w) -> is_chunk (pool w) (heap w) c
}.

(** ** Chunks and allocations of a pool *)

(** Every chunk of every recorded block, block by block. *)
Definition all_chunks (p : PoolAllocator) (h : Heap) : list Z :=
  flat_map (fun b => carved b (m_chunk_size p) 0
                            (Z.to_nat (m_chunks_per_block p)))
           (block_table p h).

(** The allocations a pool owns: its block table, when it has one, and the
    blocks recorded in it. *)
Definition pool_owns (p : PoolAllocator) (h : Heap) (blk : Z * Z) : Prop :=
  (m_blocks p <> nullptr /\ blk = (m_blocks p, m_max_blocks p * sizeof_ptr))
  \/ (exists b, In b (block_table p h)
                /\ blk = (b, m_chunks_per_block p * m_chunk_size p)).

(** Every chunk is in the free list or held by the client, once. *)
Definition conserved (w : world) : Prop :=
  exists fl,
    free_chain (bytes (heap w)) (m_alloc (pool w)) fl
    /\ Permutation (fl ++ outstanding w) (all_chunks (pool w) (heap w)).

(** The heap holds what it held when the pool was created, in [h0], and
    what the pool owns, and the two are different allocations. *)
Definition owned (h0 : Heap) (w : world) : Prop :=
  (forall blk, In blk (live (heap w)) <->
               In blk (live h0) \/ pool_owns (pool w) (heap w) blk)
  /\ (forall blk, In blk (live h0) ->
        ~ In (fst blk) (m_blocks (pool w) :: block_table (pool w) (heap w))).

(** The action hands back or writes into the chunk [c]. *)
Definition touches (c : Z) (a : action) : bool :=
  match a with
  | Call (Allocate _) => false
  | Call (Deallocate chunk) => chunk =? c
  | Write chunk _ _ => chunk =? c
  end.

(** * Part II: properties *)

(** ** Arithmetic on [usize] *)

Lemma modulus_eq : Usize.modulus = 18446744073709551616.
Proof. reflexivity. Qed.

Lemma wrap_small z : Usize.in_range z -> Usize.wrap z = z.
Proof. unfold Usize.in_range, Usize.wrap. intros H. now apply Z.mod_small. Qed.

Lemma wrap_le z : 0 <= z -> Usize.wrap z <= z.
Proof.
  unfold Usize.wrap. intros H. apply Z.mod_le; [assumption | reflexivity].
Qed.

(** A value that does not fit loses at least one full modulus. *)
Lemma wrap_overflow z : Usize.modulus <= z -> Usize.wrap z <= z - Usize.modulus.
Proof.
  intros H. unfold Usize.wrap.
  replace z with ((z - Usize.modulus) + 1 * Usize.modulus) at 1 by ring.
  rewrite Z.mod_add by (rewrite modulus_eq; discriminate).
  apply Z.mod_le; [lia | reflexivity].
Qed.

(** The bound of the chaining loop for an allocator without chunks. *)
Lemma sub_zero_one : Usize.sub 0 1 = Usize.max.
Proof. reflexivity. Qed.

(** ** The error monad *)

Lemma bind_Ok {A B : Type} (m : result A) (k : A -> result B) (b : B) :
  bind m k = Ok b -> exists a, m = Ok a /\ k a = Ok b.
Proof. destruct m as [a | f]; simpl; intros H; [eauto | discriminate]. Qed.

(** Splits a successful sequence into its successful steps. *)
Tactic Notation "bind_inv" hyp(H) "as" simple_intropattern(x) ident(Hx) :=
  apply bind_Ok in H; destruct H as (x & Hx & H).

(** ** Pointer-sized loads and stores *)

Lemma decode_encode n v :
  Bytes.decode (Bytes.encode n v) = v mod 256 ^ Z.of_nat n.
Proof.
  revert v. induction n as [| n IH]; intros v.
  - simpl. now rewrite Z.mod_1_r.
  - cbn [Bytes.encode Bytes.decode].
    rewrite IH, Nat2Z.inj_succ, Z.pow_succ_r by lia.
    rewrite Z.rem_mul_r by lia. reflexivity.
Qed.

Lemma encode_length n v : length (Bytes.encode n v) = n.
Proof. revert v. induction n; intros; simpl; auto. Qed.

Lemma write_bytes_outside l : forall m a x,
  x < a \/ a + Z.of_nat (length l) <= x -> write_bytes m a l x = m x.
Proof.
  induction l as [| b l IH]; intros m a x H; simpl in *; [reflexivity |].
  rewrite IH by lia.
  destruct (Z.eqb_spec x a); [lia | reflexivity].
Qed.

Lemma read_write_bytes l : forall m a,
  read_bytes (write_bytes m a l) a (length l) = l.
Proof.
  induction l as [| b l IH]; intros m a; simpl; [reflexivity |].
  rewrite IH. f_equal.
  rewrite write_bytes_outside by lia.
  now rewrite Z.eqb_refl.
Qed.

Lemma read_bytes_ext n : forall m m' a,
  (forall x, a <= x < a + Z.of_nat n -> m' x = m x) ->
  read_bytes m' a n = read_bytes m a n.
Proof.
  induction n as [| n IH]; intros m m' a H; [reflexivity |].
  cbn [read_bytes]. f_equal.
  - apply H. lia.
  - apply IH. intros x Hx. apply H. lia.
Qed.

Lemma store64_outside m a v x :
  x < a \/ a + sizeof_ptr <= x -> store64 m a v x = m x.
Proof.
  intros H. unfold store64. apply write_bytes_outside.
  rewrite encode_length. unfold sizeof_ptr in *. simpl. lia.
Qed.

Lemma load64_ext m m' a :
  (forall x, a <= x < a + sizeof_ptr -> m' x = m x) -> load64 m' a = load64 m a.
Proof.
  intros H. unfold load64. f_equal. apply read_bytes_ext.
  intros x Hx. apply H. unfold sizeof_ptr in *. simpl in Hx. lia.
Qed.

Lemma load64_store64_same m a v :
  Usize.in_range v -> load64 (store64 m a v) a = v.
Proof.
  intros Hv. unfold load64, store64.
  set (n := Z.to_nat sizeof_ptr).
  replace n with (length (Bytes.encode n v)) at 1 by apply encode_length.
  rewrite read_write_bytes, decode_encode.
  apply Z.mod_small. exact Hv.
Qed.

Lemma load64_store64_other m a v a' :
  a' + sizeof_ptr <= a \/ a + sizeof_ptr <= a' ->
  load64 (store64 m a v) a' = load64 m a'.
Proof.
  intros H. apply load64_ext. intros x Hx. apply store64_outside. lia.
Qed.

(** ** Heap operations *)

Lemma inside_spec a len blk :
  inside a len blk = true <-> fst blk <= a /\ a + len <= fst blk + snd blk.
Proof. unfold inside. rewrite andb_true_iff, !Z.leb_le. tauto. Qed.

Lemma accessible_spec h a len :
  accessible h a len = true <->
  exists b sz, In (b, sz) (live h) /\ b <= a /\ a + len <= b + sz.
Proof.
  unfold accessible. rewrite existsb_exists. split.
  - intros ([b sz] & Hin & Hi). apply inside_spec in Hi. simpl in Hi. eauto.
  - intros (b & sz & Hin & Hi). exists (b, sz). split; [assumption |].
    apply inside_spec. exact Hi.
Qed.

Lemma load_ptr_Ok a h v :
  load_ptr a h = Ok v ->
  accessible h a sizeof_ptr = true /\ v = load64 (bytes h) a.
Proof.
  unfold load_ptr. destruct (accessible h a sizeof_ptr); [| discriminate].
  intros H. injection H as <-. auto.
Qed.

Lemma store_ptr_Ok a v h h' :
  store_ptr a v h = Ok h' ->
  accessible h a sizeof_ptr = true
  /\ h' = mkHeap (live h) (store64 (bytes h) a v) (freed h).
Proof.
  unfold store_ptr. destruct (accessible h a sizeof_ptr); [| discriminate].
  intros H. injection H as <-. auto.
Qed.

Lemma ptr_add_Ok p k h q : ptr_add p k h = Ok q -> q = p + k.
Proof.
  unfold ptr_add. destruct (_ || _); [| discriminate].
  intros H. now injection H as <-.
Qed.

Lemma fresh_in_spec l a sz :
  fresh_in l a sz = true <->
  0 < a /\ 0 <= sz /\ a + sz < Usize.modulus
  /\ forall b n, In (b, n) l -> a + sz < b \/ b + n < a.
Proof.
  unfold fresh_in.
  rewrite !andb_true_iff, forallb_forall, Z.ltb_lt, Z.leb_le, Z.ltb_lt.
  split.
  - intros (((H1 & H2) & H3) & H4). repeat split; try assumption.
    intros b n Hin. specialize (H4 _ Hin). unfold separated in H4. simpl in H4.
    apply orb_true_iff in H4. rewrite !Z.ltb_lt in H4. exact H4.
  - intros (H1 & H2 & H3 & H4). repeat split; try assumption.
    intros [b n] Hin. unfold separated. simpl.
    apply orb_true_iff. rewrite !Z.ltb_lt. auto.
Qed.

(** In a well-formed heap no allocation contains the null address. *)
Lemma wf_live_In l b sz :
  wf_live l = true -> In (b, sz) l ->
  0 < b /\ 0 <= sz /\ b + sz < Usize.modulus.
Proof.
  induction l as [| blk l IH]; simpl; [tauto |].
  rewrite andb_true_iff. intros [Hf Hw] [-> | Hin]; [| auto].
  apply fresh_in_spec in Hf. simpl in Hf. tauto.
Qed.

Lemma null_not_accessible h :
  heap_wf h -> accessible h nullptr sizeof_ptr = false.
Proof.
  intros Hwf. destruct (accessible h nullptr sizeof_ptr) eqn:E; [| reflexivity].
  apply accessible_spec in E. destruct E as (b & sz & Hin & Hb & _).
  apply (wf_live_In _ _ _ Hwf) in Hin. unfold nullptr in Hb. lia.
Qed.

Lemma malloc_null size pick h :
  fst (malloc size pick h) = nullptr -> malloc size pick h = (nullptr, h).
Proof.
  unfold malloc. destruct (fresh h pick size) eqn:E; [| reflexivity].
  simpl. intros ->. apply fresh_in_spec in E. unfold nullptr in E. lia.
Qed.

Lemma with_alloc_same p : with_alloc (m_alloc p) p = p.
Proof. destruct p. reflexivity. Qed.

(** ** What the methods leave alone *)

Lemma allocate_block_fields pick p h b p1 h1 :
  _allocate_block pick p h = Ok (b, p1, h1) ->
  m_chunk_size p1 = m_chunk_size p
  /\ m_chunks_per_block p1 = m_chunks_per_block p
  /\ m_max_blocks p1 = m_max_blocks p
  /\ m_blocks p1 = m_blocks p
  /\ m_alloc p1 = m_alloc p.
Proof.
  unfold _allocate_block.
  destruct (m_max_blocks p <=? m_current_block_index p).
  { intros H. injection H as <- <- <-. auto. }
  destruct (malloc _ pick h) as [block_begin h0].
  destruct (block_begin =? nullptr).
  { intros H. injection H as <- <- <-. auto. }
  intros H. bind_inv H as slot Hslot. bind_inv H as h2 Hh2.
  bind_inv H as [chunk h3] Hchain. bind_inv H as h4 Hh4.
  injection H as <- <- <-. simpl. auto.
Qed.

Lemma allocate_fields pick p h c p1 h1 :
  allocate pick p h = Ok (c, p1, h1) ->
  m_chunk_size p1 = m_chunk_size p
  /\ m_chunks_per_block p1 = m_chunks_per_block p
  /\ m_max_blocks p1 = m_max_blocks p
  /\ m_blocks p1 = m_blocks p.
Proof.
  unfold allocate, allocate_refill. intros H.
  bind_inv H as [p0 h0] Hrefill. bind_inv H as next Hnext.
  injection H as <- <- <-.
  destruct (m_alloc p =? nullptr).
  - bind_inv Hrefill as [[b p2] h2] Hblock. injection Hrefill as <- <-.
    apply allocate_block_fields in Hblock. simpl. tauto.
  - injection Hrefill as <- <-. simpl. auto.
Qed.

Lemma deallocate_Ok chunk p h p1 h1 :
  deallocate chunk p h = Ok (p1, h1) ->
  accessible h chunk sizeof_ptr = true
  /\ p1 = with_alloc chunk p
  /\ h1 = mkHeap (live h) (store64 (bytes h) chunk (m_alloc p)) (freed h).
Proof.
  unfold deallocate. intros H. bind_inv H as h2 Hstore. injection H as <- <-.
  apply store_ptr_Ok in Hstore. tauto.
Qed.

Lemma call_fields o ph ph' :
  call o ph = Ok ph' ->
  chunk_size (fst ph') = chunk_size (fst ph)
  /\ max_blocks (fst ph') = max_blocks (fst ph)
  /\ chunks_per_block (fst ph') = chunks_per_block (fst ph).
Proof.
  unfold chunk_size, max_blocks, chunks_per_block.
  destruct o as [pick | chunk]; simpl; intros H.
  - bind_inv H as [[c p1] h1] Halloc. injection H as <-.
    apply allocate_fields in Halloc. simpl. tauto.
  - destruct ph' as [p1 h1]. apply deallocate_Ok in H.
    destruct H as (_ & -> & _). simpl. auto.
Qed.

(** C8: whatever calls to [allocate] and [deallocate] are made on a pool,
    [chunk_size()] (the element size), [max_blocks()] and
    [chunks_per_block()] return afterwards what they returned before. *)
Theorem accessors_unchanged_by_calls (ops : list op) (p p' : PoolAllocator)
    (h h' : Heap) :
  calls ops (p, h) = Ok (p', h') ->
  chunk_size p' = chunk_size p
  /\ max_blocks p' = max_blocks p
  /\ chunks_per_block p' = chunks_per_block p.
Proof.
  revert p h. induction ops as [| o ops IH]; intros p h H.
  - injection H as <- <-. auto.
  - cbn [calls] in H. bind_inv H as [p1 h1] Hstep.
    apply call_fields in Hstep. apply IH in H. simpl in Hstep.
    destruct H as (H1 & H2 & H3). rewrite H1, H2, H3. exact Hstep.
Qed.

Lemma accessors_unchanged_by_calls_witness :
  exists p' h',
    calls [Allocate 8192; Allocate 0; Deallocate 8192; Allocate 0]
          (mkPool 16 8 2 0 4096 nullptr, mkHeap [(4096, 16)] (fun _ => 0) [])
    = Ok (p', h')
    /\ chunk_size p' = 16
    /\ max_blocks p' = 2
    /\ chunks_per_block p' = 8.
Proof.
  assert (E : { ph | calls [Allocate 8192; Allocate 0; Deallocate 8192;
                            Allocate 0]
                           (mkPool 16 8 2 0 4096 nullptr,
                            mkHeap [(4096, 16)] (fun _ => 0) []) = Ok ph })
    by (eexists; vm_compute; reflexivity).
  destruct E as [[p' h'] E]. exists p', h'.
  split; [exact E |].
  exact (accessors_unchanged_by_calls _ _ p' _ h' E).
Defined.

(** ** Growth that fails *)

(** [_allocate_block] gives up before it touches anything. *)
Lemma allocate_block_fails pick p h :
  m_max_blocks p <= m_current_block_index p
  \/ fst (malloc (Usize.mul (m_chunks_per_block p) (m_chunk_size p)) pick h)
     = nullptr ->
  _allocate_block pick p h = Ok (nullptr, p, h).
Proof.
  intros Hfail. unfold _allocate_block.
  destruct (Z.leb_spec (m_max_blocks p) (m_current_block_index p));
    [reflexivity |].
  destruct Hfail as [Hfail | Hfail]; [lia |].
  rewrite (malloc_null _ _ _ Hfail). reflexivity.
Qed.

Lemma allocate_refill_fails pick p h :
  m_alloc p = nullptr ->
  _allocate_block pick p h = Ok (nullptr, p, h) ->
  allocate_refill pick p h = Ok (p, h).
Proof.
  intros Hhead Hblock.
  unfold allocate_refill. rewrite Hhead at 1. simpl. rewrite Hblock. simpl.
  rewrite <- Hhead. now rewrite with_alloc_same.
Qed.

(** C6: when growth is attempted (the free list is empty) and either the
    block ceiling is reached or [std::malloc] fails, [_allocate_block]
    returns [nullptr] with the allocator and the heap untouched, and the
    assignment [m_alloc = _allocate_block()] leaves the state as it was. *)
Theorem failed_growth_keeps_state (pick : Z) (p : PoolAllocator) (h : Heap) :
  m_alloc p = nullptr ->
  m_max_blocks p <= m_current_block_index p
  \/ fst (malloc (Usize.mul (m_chunks_per_block p) (m_chunk_size p)) pick h)
     = nullptr ->
  _allocate_block pick p h = Ok (nullptr, p, h)
  /\ allocate_refill pick p h = Ok (p, h).
Proof.
  intros Hhead Hfail.
  pose proof (allocate_block_fails pick p h Hfail) as Hblock.
  split; [exact Hblock |].
  exact (allocate_refill_fails pick p h Hhead Hblock).
Qed.

Lemma failed_growth_keeps_state_witness :
  m_max_blocks (mkPool 16 1 1 1 4096 nullptr)
  <= m_current_block_index (mkPool 16 1 1 1 4096 nullptr)
  /\ _allocate_block 12288 (mkPool 16 1 1 1 4096 nullptr)
                     (mkHeap [(8192, 16); (4096, 8)] (fun _ => 0) [])
     = Ok (nullptr, mkPool 16 1 1 1 4096 nullptr,
           mkHeap [(8192, 16); (4096, 8)] (fun _ => 0) [])
  /\ allocate_refill 12288 (mkPool 16 1 1 1 4096 nullptr)
                     (mkHeap [(8192, 16); (4096, 8)] (fun _ => 0) [])
     = Ok (mkPool 16 1 1 1 4096 nullptr,
           mkHeap [(8192, 16); (4096, 8)] (fun _ => 0) []).
Proof.
  split; [simpl; lia |].
  apply failed_growth_keeps_state; [reflexivity | left; simpl; lia].
Defined.

(** ** Allocation from an exhausted pool *)

(** C1 (what the code does): with an empty free list and the block ceiling
    reached, [_allocate_block] returns [nullptr], which [allocate] stores in
    [m_alloc] and then dereferences ([m_alloc->next]): the call has undefined
    behaviour instead of returning a null result. *)
Theorem allocate_exhausted_dereferences_null (pick : Z) (p : PoolAllocator)
    (h : Heap) :
  heap_wf h ->
  m_alloc p = nullptr ->
  m_max_blocks p <= m_current_block_index p ->
  allocate pick p h = Fault (OutOfBounds nullptr).
Proof.
  intros Hwf Hhead Hfull. unfold allocate.
  rewrite (allocate_refill_fails pick p h Hhead
             (allocate_block_fails pick p h (or_introl Hfull))).
  simpl. rewrite Hhead. unfold load_ptr.
  now rewrite (null_not_accessible h Hwf).
Qed.

(** [PoolAllocator(1, 1)]: the first [allocate] succeeds, the second one,
    with nothing handed back in between, dereferences [nullptr]. *)
Lemma allocate_exhausted_dereferences_null_witness :
  exists w0 w,
    start 16 1 1 4096 empty_heap = Ok w0
    /\ run (map Call [Allocate 8192]) w0 = Ok w
    /\ outstanding w = [8192]
    /\ m_alloc (pool w) = nullptr
    /\ m_current_block_index (pool w) = m_max_blocks (pool w)
    /\ allocate 12288 (pool w) (heap w) = Fault (OutOfBounds nullptr).
Proof.
  do 2 eexists.
  split; [reflexivity |].
  split; [vm_compute; reflexivity |].
  do 3 (split; [reflexivity |]).
  apply allocate_exhausted_dereferences_null.
  - reflexivity.
  - reflexivity.
  - simpl. lia.
Defined.

(** ** Construction *)

(** C2 (as stated) fails: with both capacities zero and a failing
    [std::calloc] the constructor still returns an allocator. *)
Lemma constructor_accepts_invalid_arguments :
  fst (calloc 0 sizeof_ptr 0 empty_heap) = nullptr
  /\ PoolAllocator_init 16 0 0 0 empty_heap
     = Ok (mkPool 16 0 0 0 nullptr nullptr, empty_heap).
Proof. split; reflexivity. Qed.

Lemma PoolAllocator_init_Ok sizeof_T cpb maxb pick h :
  PoolAllocator_init sizeof_T cpb maxb pick h
  = Ok (mkPool sizeof_T cpb maxb 0 (fst (calloc maxb sizeof_ptr pick h))
               nullptr,
        snd (calloc maxb sizeof_ptr pick h)).
Proof.
  unfold PoolAllocator_init.
  destruct (calloc maxb sizeof_ptr pick h) as [blocks h1]. reflexivity.
Qed.

(** C2 (amended): construction never fails and checks nothing.  Whatever the
    capacities, zero included, and whether or not [std::calloc] succeeds, the
    constructor returns an allocator that stores the arguments as given, has
    no block and an empty free list, and keeps the result of [std::calloc],
    null or not, as its block table. *)
Theorem constructor_never_fails (sizeof_T cpb maxb pick : Z) (h : Heap) :
  exists p h1,
    PoolAllocator_init sizeof_T cpb maxb pick h = Ok (p, h1)
    /\ chunk_size p = sizeof_T
    /\ chunks_per_block p = cpb
    /\ max_blocks p = maxb
    /\ m_current_block_index p = 0
    /\ m_alloc p = nullptr
    /\ (m_blocks p, h1) = calloc maxb sizeof_ptr pick h.
Proof.
  do 2 eexists. split; [apply PoolAllocator_init_Ok |].
  cbn. repeat split. now destruct (calloc maxb sizeof_ptr pick h).
Qed.

(** ** Well-formed heaps *)

(** Two live allocations are the same one or lie strictly apart. *)
Lemma wf_live_apart l b1 sz1 b2 sz2 :
  wf_live l = true -> In (b1, sz1) l -> In (b2, sz2) l ->
  (b1, sz1) = (b2, sz2) \/ b1 + sz1 < b2 \/ b2 + sz2 < b1.
Proof.
  induction l as [| blk l IH]; simpl; [tauto |].
  rewrite andb_true_iff. intros [Hf Hw] [E1 | H1] [E2 | H2].
  - left. congruence.
  - subst blk. apply fresh_in_spec in Hf. destruct Hf as (_ & _ & _ & Hf).
    simpl in Hf. right. apply Hf in H2. tauto.
  - subst blk. apply fresh_in_spec in Hf. destruct Hf as (_ & _ & _ & Hf).
    simpl in Hf. right. apply Hf in H1. tauto.
  - auto.
Qed.

(** An address belongs to (or is one past the end of) at most one live
    allocation. *)
Lemma wf_live_owner l b1 sz1 b2 sz2 x :
  wf_live l = true -> In (b1, sz1) l -> In (b2, sz2) l ->
  b1 <= x <= b1 + sz1 -> b2 <= x <= b2 + sz2 ->
  (b1, sz1) = (b2, sz2).
Proof.
  intros Hw H1 H2 Hx1 Hx2.
  destruct (wf_live_apart _ _ _ _ _ Hw H1 H2) as [E | E]; [exact E | lia].
Qed.

Lemma accessible_in_block h a len B size :
  heap_wf h -> In (B, size) (live h) -> 0 <= len ->
  B <= a <= B + size ->
  accessible h a len = true -> a + len <= B + size.
Proof.
  intros Hw HB Hlen Ha Hacc.
  apply accessible_spec in Hacc. destruct Hacc as (b & sz & Hin & Hb1 & Hb2).
  assert (E : (b, sz) = (B, size)).
  { apply (wf_live_owner (live h) _ _ _ _ a Hw Hin HB); lia. }
  injection E as -> ->. exact Hb2.
Qed.

Lemma block_accessible h a len B size :
  In (B, size) (live h) -> B <= a -> a + len <= B + size ->
  accessible h a len = true.
Proof. intros HB H1 H2. apply accessible_spec. eauto. Qed.

Lemma ptr_add_in_block h p k q B size :
  heap_wf h -> In (B, size) (live h) -> B <= p <= B + size -> 0 < k ->
  ptr_add p k h = Ok q -> q = p + k /\ p + k <= B + size.
Proof.
  intros Hw HB Hp Hk H. unfold ptr_add in H.
  destruct (Z.eqb_spec k 0) as [E | _]; [lia |]. simpl in H.
  destruct (existsb _ (live h)) eqn:Ex; [| discriminate].
  injection H as <-. split; [reflexivity |].
  apply existsb_exists in Ex. destruct Ex as ([b sz] & Hin & Hi).
  apply andb_true_iff in Hi. destruct Hi as [Hi1 Hi2].
  apply inside_spec in Hi1. apply inside_spec in Hi2. simpl in Hi1, Hi2.
  assert (E : (b, sz) = (B, size)).
  { apply (wf_live_owner (live h) _ _ _ _ p Hw Hin HB); lia. }
  injection E as -> ->. lia.
Qed.

Lemma block_ptr_add h p k B size :
  In (B, size) (live h) -> B <= p -> 0 <= k -> p + k <= B + size ->
  ptr_add p k h = Ok (p + k).
Proof.
  intros HB Hp Hk Hq. unfold ptr_add.
  replace (existsb _ (live h)) with true; [now rewrite orb_true_r |].
  symmetry. apply existsb_exists. exists (B, size). split; [assumption |].
  apply andb_true_iff. split; apply inside_spec; simpl; lia.
Qed.

(** ** The block table and the free list as read from memory *)

Lemma In_table_entries m base count : forall i b,
  In b (table_entries m base i count) <->
  exists k, i <= k < i + Z.of_nat count /\ b = load64 m (base + sizeof_ptr * k).
Proof.
  induction count as [| count IH]; intros i b.
  - simpl. split; [tauto | intros (k & Hk & _); lia].
  - cbn [table_entries In]. rewrite IH. split.
    + intros [E | (k & Hk & E)].
      * exists i. split; [lia | auto].
      * exists k. split; [lia | auto].
    + intros (k & Hk & E).
      destruct (Z.eq_dec k i) as [-> | Hne]; [left; auto |].
      right. exists k. split; [lia | auto].
Qed.

Lemma table_entries_ext m m' base count : forall i,
  (forall x, base + sizeof_ptr * i <= x
             < base + sizeof_ptr * (i + Z.of_nat count) -> m' x = m x) ->
  table_entries m' base i count = table_entries m base i count.
Proof.
  induction count as [| count IH]; intros i H; [reflexivity |].
  cbn [table_entries]. f_equal.
  - apply load64_ext. intros x Hx. apply H. unfold sizeof_ptr in *. lia.
  - apply IH. intros x Hx. apply H. unfold sizeof_ptr in *. lia.
Qed.

Lemma table_entries_snoc m base count : forall i,
  table_entries m base i (S count)
  = table_entries m base i count
    ++ [load64 m (base + sizeof_ptr * (i + Z.of_nat count))].
Proof.
  induction count as [| count IH]; intros i.
  - simpl. now rewrite Z.add_0_r.
  - change (table_entries m base i (S (S count)))
      with (load64 m (base + sizeof_ptr * i)
            :: table_entries m base (i + 1) (S count)).
    rewrite IH. cbn [table_entries app].
    replace (i + 1 + Z.of_nat count) with (i + Z.of_nat (S count)) by lia.
    reflexivity.
Qed.

Lemma table_entries_length m base count : forall i,
  length (table_entries m base i count) = count.
Proof. induction count; intros; simpl; auto. Qed.

Lemma free_chain_ext m m' fl : forall head,
  (forall c, In c fl -> load64 m' c = load64 m c) ->
  free_chain m head fl -> free_chain m' head fl.
Proof.
  induction fl as [| c fl IH]; intros head Heq H; simpl in *; [exact H |].
  destruct H as (-> & Hc & H). repeat split; try assumption.
  rewrite Heq by auto. apply IH; auto.
Qed.

(** ** Carving a block into chunks *)

(** The chaining loop, started at [chunk] inside the allocation
    [(B, size)]: if it completes, it walked [n] chunks without leaving the
    allocation, wrote only inside it, and (for chunks at least a pointer
    wide) left every chunk it visited linked to the following one. *)
Lemma chain_chunks_Ok n s B size : forall chunk h c' h',
  heap_wf h -> In (B, size) (live h) -> 1 <= s -> B <= chunk <= B + size ->
  chain_chunks n s chunk h = Ok (c', h') ->
  c' = chunk + Z.of_nat n * s
  /\ c' <= B + size
  /\ live h' = live h /\ freed h' = freed h
  /\ (forall x, x < chunk \/ B + size <= x -> bytes h' x = bytes h x)
  /\ (sizeof_ptr <= s -> forall j, 0 <= j < Z.of_nat n ->
        load64 (bytes h') (chunk + j * s) = chunk + (j + 1) * s).
Proof.
  induction n as [| n IH]; intros chunk h c' h' Hw HB Hs Hchunk H.
  - injection H as <- <-. simpl. repeat split; auto; try lia.
  - cbn [chain_chunks] in H.
    bind_inv H as next Hnext. bind_inv H as h1 Hstore.
    bind_inv H as chunk' Hload.
    destruct (wf_live_In _ _ _ Hw HB) as (HB0 & Hsz & Hmax).
    assert (Hs0 : 0 < s) by lia.
    destruct (ptr_add_in_block _ _ _ _ _ _ Hw HB Hchunk Hs0 Hnext)
      as [-> Hnext_le].
    apply store_ptr_Ok in Hstore. destruct Hstore as [Hacc ->].
    apply load_ptr_Ok in Hload. destruct Hload as [_ ->]. simpl in H.
    rewrite load64_store64_same in H by (unfold Usize.in_range; lia).
    apply IH in H; try assumption; try lia.
    destruct H as (-> & Hc' & Hlive & Hfreed & Hframe & Hlinks).
    simpl in Hlive, Hfreed, Hframe.
    assert (Hin : chunk + sizeof_ptr <= B + size).
    { apply (accessible_in_block h chunk sizeof_ptr B size Hw HB);
        [unfold sizeof_ptr; lia | lia | exact Hacc]. }
    rewrite Nat2Z.inj_succ.
    split; [ring |]. split; [exact Hc' |]. split; [exact Hlive |].
    split; [exact Hfreed |]. split.
    + intros x Hx. rewrite Hframe by lia. apply store64_outside.
      unfold sizeof_ptr in *. lia.
    + intros Hwide j Hj. destruct (Z.eq_dec j 0) as [-> | Hj0].
      * replace (chunk + 0 * s) with chunk by ring.
        replace (chunk + (0 + 1) * s) with (chunk + s) by ring.
        rewrite <- (load64_store64_same (bytes h) chunk (chunk + s))
          by (unfold Usize.in_range; lia).
        apply load64_ext. intros x Hx. apply Hframe. lia.
      * replace (chunk + j * s) with (chunk + s + (j - 1) * s) by ring.
        rewrite Hlinks by lia. ring.
Qed.

(** The loop stops at its first step when that step's pointer arithmetic is
    undefined. *)
Lemma chain_chunks_first_fault n s chunk h f :
  (0 < n)%nat -> ptr_add chunk s h = Fault f ->
  chain_chunks n s chunk h = Fault f.
Proof.
  intros Hn Hf. destruct n as [| n]; [inversion Hn |].
  cbn [chain_chunks]. rewrite Hf. reflexivity.
Qed.

(** Leaving a zero-sized or too small allocation. *)
Lemma ptr_add_leaves_block h p k B size :
  heap_wf h -> In (B, size) (live h) -> B <= p <= B + size -> 0 < k ->
  B + size < p + k ->
  ptr_add p k h = Fault (PointerOverflow p k).
Proof.
  intros Hw HB Hp Hk Hout.
  destruct (ptr_add p k h) as [q | f] eqn:E.
  - apply (ptr_add_in_block _ _ _ _ _ _ Hw HB Hp Hk) in E. lia.
  - unfold ptr_add in E. destruct (_ || _); [discriminate | now symmetry].
Qed.

Lemma to_nat_max_pos : (0 < Z.to_nat Usize.max)%nat.
Proof.
  assert (H : 0 < Usize.max) by reflexivity.
  apply Nat2Z.inj_lt. rewrite Z2Nat.id by lia. exact H.
Qed.

Lemma sub_one_small c : 1 <= c < Usize.modulus -> Usize.sub c 1 = c - 1.
Proof. intros H. apply wrap_small. unfold Usize.in_range. lia. Qed.

(** A block only holds its last chunk's link when the chunks are at least a
    pointer wide and their total size did not wrap. *)
Lemma block_size_fits c s :
  1 <= c -> 1 <= s < Usize.modulus ->
  (c - 1) * s + sizeof_ptr <= Usize.mul c s ->
  sizeof_ptr <= s /\ c * s < Usize.modulus /\ Usize.mul c s = c * s.
Proof.
  intros Hc Hs Hfit. unfold Usize.mul in *.
  replace ((c - 1) * s) with (c * s - s) in Hfit by ring.
  assert (Hpos : 0 <= c * s) by nia.
  unfold sizeof_ptr in *.
  destruct (Z_lt_le_dec (c * s) Usize.modulus) as [Hlt | Hge].
  - rewrite wrap_small in * by (unfold Usize.in_range; lia). lia.
  - pose proof (wrap_overflow _ Hge). lia.
Qed.

(** ** Growth that succeeds *)

Lemma ptr_add_null h k q : heap_wf h -> ptr_add nullptr k h = Ok q -> k = 0.
Proof.
  intros Hw H. unfold ptr_add in H.
  destruct (Z.eqb_spec k 0) as [E | _]; [exact E | exfalso]. simpl in H.
  destruct (existsb _ (live h)) eqn:Ex; [| discriminate].
  apply existsb_exists in Ex. destruct Ex as ([b sz] & Hin & Hi).
  apply andb_true_iff in Hi. destruct Hi as [Hi _].
  apply inside_spec in Hi. simpl in Hi.
  apply (wf_live_In _ _ _ Hw) in Hin. unfold nullptr in Hi. lia.
Qed.

(** A successful [_allocate_block] in a well-formed heap: the ceiling was
    not reached, the chunks are at least a pointer wide and fit the block
    without overflow, the block is recorded in the table and threaded. *)
Lemma allocate_block_Ok pick p h B p1 h1 :
  heap_wf h ->
  1 <= m_chunk_size p < Usize.modulus ->
  Usize.in_range (m_chunks_per_block p) ->
  0 <= m_current_block_index p ->
  Usize.in_range (m_max_blocks p) ->
  m_blocks p = nullptr
  \/ In (m_blocks p, m_max_blocks p * sizeof_ptr) (live h) ->
  _allocate_block pick p h = Ok (B, p1, h1) -> B <> nullptr ->
  m_current_block_index p < m_max_blocks p
  /\ fresh h B (m_chunks_per_block p * m_chunk_size p) = true
  /\ sizeof_ptr <= m_chunk_size p
  /\ 1 <= m_chunks_per_block p
  /\ m_chunks_per_block p * m_chunk_size p < Usize.modulus
  /\ In (m_blocks p, m_max_blocks p * sizeof_ptr) (live h)
  /\ p1 = with_current_block_index (m_current_block_index p + 1) p
  /\ live h1 = (B, m_chunks_per_block p * m_chunk_size p) :: live h
  /\ freed h1 = freed h
  /\ (forall x,
        x < B \/ B + m_chunks_per_block p * m_chunk_size p <= x ->
        x < m_blocks p + sizeof_ptr * m_current_block_index p
        \/ m_blocks p + sizeof_ptr * m_current_block_index p + sizeof_ptr <= x ->
        bytes h1 x = bytes h x)
  /\ load64 (bytes h1) (m_blocks p + sizeof_ptr * m_current_block_index p) = B
  /\ (forall j, 0 <= j < m_chunks_per_block p - 1 ->
        load64 (bytes h1) (B + j * m_chunk_size p)
        = B + (j + 1) * m_chunk_size p)
  /\ load64 (bytes h1) (B + (m_chunks_per_block p - 1) * m_chunk_size p)
     = nullptr.
Proof.
  intros Hw Hs HC Hn HM Htable H HB.
  unfold _allocate_block in H.
  destruct (Z.leb_spec (m_max_blocks p) (m_current_block_index p))
    as [Hfull | Hroom].
  { injection H as <- _ _. contradiction. }
  unfold malloc in H.
  set (size := Usize.mul (m_chunks_per_block p) (m_chunk_size p)) in *.
  destruct (fresh h pick size) eqn:Hfresh.
  2:{ simpl in H. injection H as <- _ _. contradiction. }
  destruct (Z.eqb_spec pick nullptr) as [Hnull | Hpick].
  { injection H as <- _ _. contradiction. }
  set (h0 := mkHeap ((pick, size) :: live h) (bytes h) (freed h)) in *.
  assert (Hw0 : heap_wf h0).
  { unfold heap_wf, h0. simpl. unfold fresh in Hfresh. rewrite Hfresh.
    exact Hw. }
  assert (Hblk : In (pick, size) (live h0)) by (left; reflexivity).
  bind_inv H as slot Hslot. bind_inv H as h2 Hstore.
  bind_inv H as [chunk h3] Hchain. bind_inv H as h4 Hlast.
  injection H as <- <- <-.
  pose proof (proj1 (fresh_in_spec _ _ _) Hfresh)
    as (Hpick0 & Hsize0 & Hpickmax & Hsep).
  (* the table *)
  assert (HT : In (m_blocks p, m_max_blocks p * sizeof_ptr) (live h)).
  { destruct Htable as [Hnone | Hlive]; [exfalso | exact Hlive].
    rewrite Hnone in Hslot.
    pose proof (ptr_add_null _ _ _ Hw0 Hslot) as Hk.
    apply ptr_add_Ok in Hslot. rewrite Hk in Hslot. subst slot.
    apply store_ptr_Ok in Hstore. destruct Hstore as [Hacc _].
    change (nullptr + 0) with nullptr in Hacc.
    rewrite (null_not_accessible _ Hw0) in Hacc. discriminate. }
  destruct (wf_live_In _ _ _ Hw HT) as (HT0 & _ & HTmax).
  assert (HT' : In (m_blocks p, m_max_blocks p * sizeof_ptr) (live h0))
    by (right; exact HT).
  apply ptr_add_Ok in Hslot. subst slot.
  set (slot := m_blocks p + sizeof_ptr * m_current_block_index p) in *.
  apply store_ptr_Ok in Hstore. destruct Hstore as [_ ->].
  specialize (Hsep _ _ HT).
  (* the chunks *)
  assert (HC1 : 1 <= m_chunks_per_block p).
  { destruct (Z_lt_le_dec (m_chunks_per_block p) 1) as [Hzero | Hone];
      [exfalso | exact Hone].
    assert (E : m_chunks_per_block p = 0) by (unfold Usize.in_range in HC; lia).
    cbn [m_chunks_per_block m_chunk_size with_current_block_index] in Hchain.
    rewrite E in Hchain. rewrite sub_zero_one in Hchain.
    rewrite (chain_chunks_first_fault _ _ _ _
               (PointerOverflow pick (m_chunk_size p)))
      in Hchain; [discriminate | apply to_nat_max_pos |].
    apply (ptr_add_leaves_block _ _ _ pick size); try assumption; try lia.
    unfold size. rewrite E. change (Usize.mul 0 (m_chunk_size p)) with 0. lia. }
  cbn [m_chunks_per_block m_chunk_size with_current_block_index] in Hchain.
  rewrite sub_one_small in Hchain by (unfold Usize.in_range in HC; lia).
  set (h2 := mkHeap (live h0) (store64 (bytes h0) slot pick) (freed h0)) in *.
  assert (Hs1 : 1 <= m_chunk_size p) by lia.
  assert (Hin0 : pick <= pick <= pick + size) by lia.
  assert (Hw2 : heap_wf h2) by exact Hw0.
  assert (Hblk2 : In (pick, size) (live h2)) by exact Hblk.
  destruct (chain_chunks_Ok _ _ pick size _ _ _ _ Hw2 Hblk2 Hs1 Hin0 Hchain)
    as (Hc & Hc_le & Hlive3 & Hfreed3 & Hframe3 & Hlinks3).
  rewrite Z2Nat.id in Hc, Hlinks3 by lia.
  apply store_ptr_Ok in Hlast. destruct Hlast as [Hacc ->].
  assert (Hfit : chunk + sizeof_ptr <= pick + size).
  { apply (accessible_in_block h3 chunk sizeof_ptr pick size).
    - unfold heap_wf. rewrite Hlive3. exact Hw0.
    - rewrite Hlive3. exact Hblk.
    - unfold sizeof_ptr. lia.
    - subst chunk. nia.
    - exact Hacc. }
  subst chunk.
  assert (Hfit' : (m_chunks_per_block p - 1) * m_chunk_size p + sizeof_ptr
                  <= Usize.mul (m_chunks_per_block p) (m_chunk_size p))
    by (fold size; lia).
  destruct (block_size_fits _ _ HC1 Hs Hfit') as (Hwide & Hnowrap & Hsize).
  fold size in Hsize. rewrite <- Hsize.
  specialize (Hlinks3 Hwide).
  cbn [live bytes freed]. rewrite Hlive3, Hfreed3.
  assert (HinB : forall x, slot <= x < slot + sizeof_ptr ->
                 x < pick \/ pick + size <= x).
  { intros x Hx. unfold slot, sizeof_ptr in *. lia. }
  assert (Hoff : 0 <= (m_chunks_per_block p - 1) * m_chunk_size p) by nia.
  assert (Hoffj : forall j, 0 <= j < m_chunks_per_block p - 1 ->
            pick + j * m_chunk_size p + m_chunk_size p
            <= pick + (m_chunks_per_block p - 1) * m_chunk_size p)
    by (intros; nia).
  split; [exact Hroom |]. split; [exact Hfresh |]. split; [exact Hwide |].
  split; [exact HC1 |]. split; [lia |]. split; [exact HT |].
  split; [| split; [reflexivity |]; split; [reflexivity |]; repeat split].
  - unfold with_current_block_index. f_equal. apply wrap_small.
    unfold Usize.in_range in *. clear - Hn Hroom HM. lia.
  - intros x HxB Hxs. rewrite store64_outside by (unfold sizeof_ptr in *; lia).
    rewrite Hframe3 by lia. apply store64_outside. exact Hxs.
  - transitivity (load64 (store64 (bytes h) slot pick) slot);
      [| apply load64_store64_same; unfold Usize.in_range; lia].
    apply load64_ext. intros x Hx. specialize (HinB x Hx).
    rewrite store64_outside by (unfold sizeof_ptr in *; lia).
    apply Hframe3. lia.
  - intros j Hj. specialize (Hoffj j Hj).
    rewrite load64_store64_other by (unfold sizeof_ptr in *; lia).
    apply Hlinks3. lia.
  - apply load64_store64_same. unfold Usize.in_range, nullptr.
    rewrite modulus_eq. lia.
Qed.

(** ** Lists of chunks *)

Lemma existsb_eqb_In c l : existsb (Z.eqb c) l = true <-> In c l.
Proof.
  rewrite existsb_exists. split.
  - intros (x & Hin & E). apply Z.eqb_eq in E. now subst.
  - intros Hin. exists c. split; [assumption | apply Z.eqb_refl].
Qed.

Lemma remove_one_perm c l : In c l -> Permutation l (c :: remove_one c l).
Proof.
  induction l as [| y l IH]; simpl; [tauto |].
  destruct (Z.eqb_spec c y) as [-> | Hne]; [reflexivity |].
  intros [E | Hin]; [congruence |].
  rewrite (IH Hin) at 1. apply perm_swap.
Qed.

Lemma give_back_perm c fl out :
  In c out -> Permutation (fl ++ out) ((c :: fl) ++ remove_one c out).
Proof.
  intros Hin. rewrite (remove_one_perm c out Hin) at 1.
  symmetry. apply Permutation_middle.
Qed.

Lemma hand_out_perm (c : Z) (fl out : list Z) :
  Permutation ((c :: fl) ++ out) (fl ++ c :: out).
Proof. apply Permutation_middle. Qed.

Lemma In_carved B s count : forall j c,
  In c (carved B s j count) <->
  exists i, j <= i < j + Z.of_nat count /\ c = B + i * s.
Proof.
  induction count as [| count IH]; intros j c.
  - simpl. split; [tauto | intros (i & Hi & _); lia].
  - cbn [carved In]. rewrite IH. split.
    + intros [E | (i & Hi & E)].
      * exists j. split; [lia | auto].
      * exists i. split; [lia | auto].
    + intros (i & Hi & E).
      destruct (Z.eq_dec i j) as [-> | Hne]; [left; auto |].
      right. exists i. split; [lia | auto].
Qed.

Lemma NoDup_carved B s count : forall j, 0 < s -> NoDup (carved B s j count).
Proof.
  induction count as [| count IH]; intros j Hs; simpl; constructor; auto.
  rewrite In_carved. intros (i & Hi & E). nia.
Qed.

(** The links written by [_allocate_block] make the chunks after the first
    a free list. *)
Lemma free_chain_carved m B s C :
  0 < B -> 0 < s ->
  (forall j, 0 <= j < C - 1 -> load64 m (B + j * s) = B + (j + 1) * s) ->
  load64 m (B + (C - 1) * s) = nullptr ->
  forall count j, 1 <= j -> j + Z.of_nat count = C ->
  free_chain m (load64 m (B + (j - 1) * s)) (carved B s j count).
Proof.
  intros HB Hs Hlinks Hlast.
  induction count as [| count IH]; intros j Hj Hsum.
  - simpl. replace (j - 1) with (C - 1) by lia. exact Hlast.
  - cbn [carved free_chain].
    rewrite Hlinks by lia. replace (j - 1 + 1) with j by lia.
    split; [reflexivity |]. split; [unfold nullptr; nia |].
    replace j with (j + 1 - 1) at 1 by lia. apply IH; lia.
Qed.

(** ** Geometry of the chunks of a pool *)

Lemma In_block_table p h b :
  In b (block_table p h) <->
  exists k, 0 <= k < m_current_block_index p
            /\ b = load64 (bytes h) (m_blocks p + sizeof_ptr * k).
Proof.
  unfold block_table. rewrite In_table_entries. split.
  - intros (k & Hk & E). exists k. split; [lia | exact E].
  - intros (k & Hk & E). exists k. split; [lia | exact E].
Qed.

(** A chunk sits, with all its bytes, in a live recorded block. *)
Lemma chunk_geometry w c :
  pool_inv w -> is_chunk (pool w) (heap w) c ->
  exists b,
    In b (block_table (pool w) (heap w))
    /\ In (b, m_chunks_per_block (pool w) * m_chunk_size (pool w))
          (live (heap w))
    /\ b <= c
    /\ c + m_chunk_size (pool w)
       <= b + m_chunks_per_block (pool w) * m_chunk_size (pool w)
    /\ sizeof_ptr <= m_chunk_size (pool w).
Proof.
  intros Hinv (b & j & Hb & Hj & ->). exists b.
  assert (Hn : 0 < m_current_block_index (pool w)).
  { apply In_block_table in Hb. destruct Hb as (k & Hk & _). lia. }
  destruct (inv_geometry w Hinv Hn) as (Hwide & _ & _).
  split; [exact Hb |]. split; [apply (inv_blocks w Hinv b Hb) |].
  unfold sizeof_ptr in *. repeat split; nia.
Qed.

Lemma chunk_accessible w c :
  pool_inv w -> is_chunk (pool w) (heap w) c ->
  accessible (heap w) c sizeof_ptr = true.
Proof.
  intros Hinv Hc.
  destruct (chunk_geometry w c Hinv Hc) as (b & _ & Hlive & Hlo & Hhi & Hwide).
  apply (block_accessible _ _ _ _ _ Hlive Hlo). lia.
Qed.

Lemma chunk_in_range w c :
  pool_inv w -> is_chunk (pool w) (heap w) c -> 0 < c < Usize.modulus.
Proof.
  intros Hinv Hc.
  destruct (chunk_geometry w c Hinv Hc) as (b & _ & Hlive & Hlo & Hhi & Hwide).
  destruct (wf_live_In _ _ _ (inv_heap w Hinv) Hlive) as (Hb & _ & Hmax).
  unfold sizeof_ptr in *. lia.
Qed.

(** Two different chunks of a pool do not overlap. *)
Lemma chunks_apart w c1 c2 :
  pool_inv w ->
  is_chunk (pool w) (heap w) c1 -> is_chunk (pool w) (heap w) c2 ->
  c1 <> c2 ->
  disjoint_chunks (m_chunk_size (pool w)) c1 c2.
Proof.
  intros Hinv H1 H2 Hne. unfold disjoint_chunks.
  destruct H1 as (b1 & j1 & Hb1 & Hj1 & ->).
  destruct H2 as (b2 & j2 & Hb2 & Hj2 & ->).
  pose proof (inv_size w Hinv) as Hs.
  destruct (Z.eq_dec b1 b2) as [-> | Hb].
  - assert (j1 <> j2) by congruence. nia.
  - pose proof (inv_blocks w Hinv b1 Hb1) as L1.
    pose proof (inv_blocks w Hinv b2 Hb2) as L2.
    destruct (wf_live_apart _ _ _ _ _ (inv_heap w Hinv) L1 L2) as [E | Hsep];
      [congruence |].
    nia.
Qed.

(** The recorded part of the block table lies outside every chunk. *)
Lemma table_outside_chunk w c x :
  pool_inv w -> is_chunk (pool w) (heap w) c ->
  m_blocks (pool w) <= x
  < m_blocks (pool w) + sizeof_ptr * m_current_block_index (pool w) ->
  x < c \/ c + m_chunk_size (pool w) <= x.
Proof.
  intros Hinv Hc Hx.
  destruct (chunk_geometry w c Hinv Hc) as (b & Hb & Hlive & Hlo & Hhi & Hwide).
  pose proof (inv_count w Hinv) as Hn.
  destruct (inv_table w Hinv) as [[_ E] | HT]; [unfold sizeof_ptr in *; lia |].
  assert (Hne : m_blocks (pool w) <> b).
  { pose proof (inv_distinct w Hinv) as Hd. inversion Hd; subst.
    intros E. apply H1. rewrite E. exact Hb. }
  destruct (wf_live_apart _ _ _ _ _ (inv_heap w Hinv) HT Hlive) as [E | Hsep];
    [congruence |].
  unfold sizeof_ptr in *. lia.
Qed.

(** ** The invariant is kept *)

Lemma NoDup_app_disjoint (l1 l2 : list Z) x :
  NoDup (l1 ++ l2) -> In x l1 -> In x l2 -> False.
Proof.
  induction l1 as [| a l1 IH]; simpl; [tauto |].
  intros Hnd Hx H2. apply NoDup_cons_iff in Hnd. destruct Hnd as [Hout Hnd].
  destruct Hx as [-> | H1]; [| auto].
  apply Hout, in_or_app. right. exact H2.
Qed.

Lemma head_in_range w : pool_inv w -> Usize.in_range (m_alloc (pool w)).
Proof.
  intros Hinv. destruct (inv_free w Hinv) as ([| c fl] & Hchain & _ & Hchunks).
  - simpl in Hchain. rewrite Hchain. unfold Usize.in_range, nullptr.
    rewrite modulus_eq. lia.
  - simpl in Hchain. destruct Hchain as (-> & _ & _).
    assert (Hc : is_chunk (pool w) (heap w) c) by (apply Hchunks; left; auto).
    pose proof (chunk_in_range w c Hinv Hc). unfold Usize.in_range. lia.
Qed.

(** Handing back an outstanding chunk is defined. *)
Lemma deallocate_succeeds w c :
  pool_inv w -> In c (outstanding w) ->
  deallocate c (pool w) (heap w)
  = Ok (with_alloc c (pool w),
        mkHeap (live (heap w))
               (store64 (bytes (heap w)) c (m_alloc (pool w)))
               (freed (heap w))).
Proof.
  intros Hinv Hin.
  assert (Hc : is_chunk (pool w) (heap w) c).
  { destruct (inv_free w Hinv) as (fl & _ & _ & Hchunks).
    apply Hchunks, in_or_app. right. exact Hin. }
  unfold deallocate, store_ptr. rewrite (chunk_accessible w c Hinv Hc).
  reflexivity.
Qed.

Lemma deallocate_keeps_table w c :
  pool_inv w -> is_chunk (pool w) (heap w) c ->
  forall v,
  block_table (with_alloc c (pool w))
              (mkHeap (live (heap w)) (store64 (bytes (heap w)) c v)
                      (freed (heap w)))
  = block_table (pool w) (heap w).
Proof.
  intros Hinv Hc v. unfold block_table. simpl.
  apply table_entries_ext. intros x Hx.
  pose proof (inv_count w Hinv) as Hn.
  destruct (chunk_geometry w c Hinv Hc) as (_ & _ & _ & _ & _ & Hwide).
  apply store64_outside.
  assert (Hx' : m_blocks (pool w) <= x
                < m_blocks (pool w) + sizeof_ptr * m_current_block_index (pool w))
    by (unfold sizeof_ptr in *; lia).
  pose proof (table_outside_chunk w c x Hinv Hc Hx'). lia.
Qed.

Lemma deallocate_preserves_inv w c :
  pool_inv w -> In c (outstanding w) ->
  pool_inv (mkWorld (with_alloc c (pool w))
                    (mkHeap (live (heap w))
                            (store64 (bytes (heap w)) c (m_alloc (pool w)))
                            (freed (heap w)))
                    (remove_one c (outstanding w))).
Proof.
  intros Hinv Hin.
  destruct (inv_free w Hinv) as (fl & Hchain & Hnodup & Hchunks).
  assert (Hc : is_chunk (pool w) (heap w) c).
  { apply Hchunks, in_or_app. right. exact Hin. }
  pose proof (deallocate_keeps_table w c Hinv Hc (m_alloc (pool w))) as Htable.
  pose proof (give_back_perm c fl (outstanding w) Hin) as Hperm.
  constructor; cbn [pool heap outstanding]; try rewrite Htable;
    cbn [with_alloc m_chunk_size m_chunks_per_block m_max_blocks
         m_current_block_index m_blocks m_alloc live bytes freed];
    try apply Hinv.
  exists (c :: fl). split; [| split].
  - cbn [free_chain]. split; [reflexivity |].
    split; [pose proof (chunk_in_range w c Hinv Hc); unfold nullptr; lia |].
    rewrite load64_store64_same by apply (head_in_range w Hinv).
    apply (free_chain_ext (bytes (heap w))); [| exact Hchain].
    intros c' Hc'. apply load64_store64_other.
    assert (Hne : c' <> c).
    { intros ->. exact (NoDup_app_disjoint _ _ _ Hnodup Hc' Hin). }
    assert (Hc'' : is_chunk (pool w) (heap w) c').
    { apply Hchunks, in_or_app. left. exact Hc'. }
    destruct (chunk_geometry w c Hinv Hc) as (_ & _ & _ & _ & _ & Hwide).
    pose proof (chunks_apart w c' c Hinv Hc'' Hc Hne) as Hapart.
    unfold disjoint_chunks in Hapart. lia.
  - apply (Permutation_NoDup Hperm Hnodup).
  - intros x Hx. apply (Permutation_in _ (Permutation_sym Hperm)) in Hx.
    destruct (Hchunks x Hx) as (b & j & Hb & Hj & E).
    exists b, j. rewrite Htable. auto.
Qed.

Lemma allocate_block_null pick p h p1 h1 :
  _allocate_block pick p h = Ok (nullptr, p1, h1) -> p1 = p /\ h1 = h.
Proof.
  unfold _allocate_block.
  destruct (m_max_blocks p <=? m_current_block_index p).
  { intros H. injection H as <- <-. auto. }
  unfold malloc.
  destruct (fresh h pick _) eqn:Hfresh.
  2:{ simpl. intros H. injection H as <- <-. auto. }
  apply fresh_in_spec in Hfresh.
  destruct (Z.eqb_spec pick nullptr) as [E | Hne]; [unfold nullptr in E; lia |].
  intros H. bind_inv H as slot Hslot. bind_inv H as h2 Hh2.
  bind_inv H as [chunk h3] Hchain. bind_inv H as h4 Hh4.
  injection H as E _ _. contradiction.
Qed.

(** Taking the head of a non-empty free list. *)
Lemma allocate_pop pick w :
  pool_inv w -> m_alloc (pool w) <> nullptr ->
  allocate pick (pool w) (heap w)
  = Ok (m_alloc (pool w),
        with_alloc (load64 (bytes (heap w)) (m_alloc (pool w))) (pool w),
        heap w)
  /\ pool_inv (mkWorld
                 (with_alloc (load64 (bytes (heap w)) (m_alloc (pool w)))
                             (pool w))
                 (heap w) (m_alloc (pool w) :: outstanding w)).
Proof.
  intros Hinv Hhead.
  destruct (inv_free w Hinv) as (fl & Hchain & Hnodup & Hchunks).
  destruct fl as [| c fl]; [simpl in Hchain; contradiction |].
  cbn [free_chain] in Hchain. destruct Hchain as (Ehead & _ & Hchain).
  assert (Hc : is_chunk (pool w) (heap w) c) by (apply Hchunks; left; auto).
  split.
  - unfold allocate, allocate_refill.
    destruct (Z.eqb_spec (m_alloc (pool w)) nullptr) as [E | _];
      [contradiction |].
    cbn [bind]. unfold load_ptr. rewrite Ehead.
    rewrite (chunk_accessible w c Hinv Hc). reflexivity.
  - rewrite Ehead.
    constructor; cbn [pool heap outstanding]; try apply Hinv.
    exists fl. split; [exact Hchain |]. split.
    + apply (Permutation_NoDup (hand_out_perm c fl (outstanding w)) Hnodup).
    + intros x Hx.
      apply (Permutation_in _ (Permutation_sym (hand_out_perm c fl _))) in Hx.
      exact (Hchunks x Hx).
Qed.

(** The table after a successful growth: the entries it had, then the new
    block. *)
Lemma grown_block_table pick w B p1 h1 :
  pool_inv w ->
  _allocate_block pick (pool w) (heap w) = Ok (B, p1, h1) -> B <> nullptr ->
  block_table p1 h1 = block_table (pool w) (heap w) ++ [B].
Proof.
  intros Hinv Hblock HB.
  assert (Htbl : m_blocks (pool w) = nullptr
                 \/ In (m_blocks (pool w), m_max_blocks (pool w) * sizeof_ptr)
                       (live (heap w))).
  { destruct (inv_table w Hinv) as [[E _] | HT]; auto. }
  destruct (allocate_block_Ok pick (pool w) (heap w) B p1 h1
              (inv_heap w Hinv) (inv_size w Hinv) (inv_cpb w Hinv)
              (proj1 (inv_count w Hinv)) (inv_max w Hinv) Htbl Hblock HB)
    as (Hroom & Hfresh & Hwide & HC1 & Hnowrap & HT & -> & Hlive & Hfreed
        & Hframe & Hentry & Hlinks & Hlast).
  apply fresh_in_spec in Hfresh. destruct Hfresh as (_ & _ & _ & Hsep).
  pose proof (inv_count w Hinv) as Hn.
  unfold block_table.
  cbn [with_current_block_index m_current_block_index m_blocks].
  rewrite Z2Nat.inj_add by lia. rewrite Nat.add_1_r.
  rewrite table_entries_snoc. rewrite Z2Nat.id by lia.
  replace (0 + m_current_block_index (pool w))
    with (m_current_block_index (pool w)) by lia.
  rewrite Hentry. f_equal.
  apply table_entries_ext. intros x Hx. rewrite Z2Nat.id in Hx by lia.
  specialize (Hsep _ _ HT). unfold sizeof_ptr in *.
  apply Hframe; lia.
Qed.

(** Growing an empty pool by one block and taking its first chunk. *)
Lemma allocate_grow pick w c p' h' :
  pool_inv w -> m_alloc (pool w) = nullptr ->
  allocate pick (pool w) (heap w) = Ok (c, p', h') ->
  pool_inv (mkWorld p' h' (c :: outstanding w)).
Proof.
  intros Hinv Hhead H.
  unfold allocate, allocate_refill in H. rewrite Hhead in H.
  change (nullptr =? nullptr) with true in H. cbn iota in H.
  bind_inv H as [p1' h1] Hrefill. bind_inv Hrefill as [[B p1] h1'] Hblock.
  injection Hrefill as <- <-. bind_inv H as next Hnext.
  injection H as <- <- <-. cbn [with_alloc m_alloc] in Hnext |- *.
  (* the block cannot be null *)
  assert (HB : B <> nullptr).
  { intros ->. apply allocate_block_null in Hblock. destruct Hblock as [_ ->].
    unfold load_ptr in Hnext.
    rewrite (null_not_accessible _ (inv_heap w Hinv)) in Hnext. discriminate. }
  assert (Htbl : m_blocks (pool w) = nullptr
                 \/ In (m_blocks (pool w), m_max_blocks (pool w) * sizeof_ptr)
                       (live (heap w))).
  { destruct (inv_table w Hinv) as [[E _] | HT]; auto. }
  pose proof (grown_block_table pick w B p1 h1' Hinv Hblock HB) as Htable0.
  destruct (allocate_block_Ok pick (pool w) (heap w) B p1 h1'
              (inv_heap w Hinv) (inv_size w Hinv) (inv_cpb w Hinv)
              (proj1 (inv_count w Hinv)) (inv_max w Hinv) Htbl Hblock HB)
    as (Hroom & Hfresh & Hwide & HC1 & Hnowrap & HT & -> & Hlive & Hfreed
        & Hframe & Hentry & Hlinks & Hlast).
  apply load_ptr_Ok in Hnext. destruct Hnext as [_ ->].
  destruct (inv_free w Hinv) as (fl & Hchain & Hnodup & Hchunks).
  assert (fl = []) as ->.
  { destruct fl as [| c0 fl]; [reflexivity |]. simpl in Hchain.
    destruct Hchain as (E & Hc0 & _). congruence. }
  simpl in Hnodup, Hchunks.
  pose proof (proj1 (fresh_in_spec _ _ _) Hfresh)
    as (HB0 & Hsz0 & HBmax & Hsep).
  set (p := pool w) in *. set (h := heap w) in *.
  set (s := m_chunk_size p) in *. set (C := m_chunks_per_block p) in *.
  set (n := m_current_block_index p) in *.
  pose proof (inv_count w Hinv) as Hn. fold p n in Hn.
  assert (Htable : block_table
                     (with_alloc (load64 (bytes h1') B)
                        (with_alloc B (with_current_block_index (n + 1) p)))
                     h1'
                   = block_table p h ++ [B]) by exact Htable0.
  assert (Hold : forall b, In b (block_table p h) -> In (b, C * s) (live h))
    by apply (inv_blocks w Hinv).
  assert (HBnew : ~ In B (m_blocks p :: block_table p h)).
  { intros [E | Hb].
    - specialize (Hsep _ _ HT). rewrite E in Hsep. unfold sizeof_ptr in *. lia.
    - specialize (Hsep _ _ (Hold _ Hb)). lia. }
  assert (Hs0 : 0 < s) by (unfold sizeof_ptr in *; lia).
  assert (Hcount : Z.to_nat C = S (Z.to_nat (C - 1))) by lia.
  assert (Hnewout : forall a, In a (carved B s 0 (Z.to_nat C)) ->
                              ~ In a (outstanding w)).
  { intros a Ha Hout. apply In_carved in Ha. destruct Ha as (i & Hi & ->).
    rewrite Z2Nat.id in Hi by lia.
    destruct (chunk_geometry w _ Hinv (Hchunks _ Hout))
      as (b & Hb & Hblive & Hlo & Hhi & _).
    fold p h s C in Hb, Hblive, Hlo, Hhi.
    specialize (Hsep _ _ Hblive). nia. }
  constructor; cbn [pool heap outstanding]; rewrite ?Htable;
    cbn [with_alloc with_current_block_index m_chunk_size m_chunks_per_block
         m_max_blocks m_current_block_index m_blocks m_alloc];
    fold p h s C n.
  - unfold heap_wf. rewrite Hlive. cbn [wf_live fst snd].
    unfold fresh in Hfresh. rewrite Hfresh. apply (inv_heap w Hinv).
  - apply (inv_size w Hinv).
  - apply (inv_cpb w Hinv).
  - lia.
  - apply (inv_max w Hinv).
  - right. rewrite Hlive. right. exact HT.
  - intros b Hb. rewrite Hlive. apply in_app_or in Hb.
    destruct Hb as [Hb | [<- | []]]; [right; auto | left; reflexivity].
  - apply (Permutation_NoDup
             (Permutation_cons_append (m_blocks p :: block_table p h) B)).
    constructor; [exact HBnew | apply (inv_distinct w Hinv)].
  - intros _. auto.
  - exists (carved B s 1 (Z.to_nat (C - 1))). split; [| split].
    + replace B with (B + (1 - 1) * s) at 1 by ring.
      apply (free_chain_carved _ B s C); try assumption; lia.
    + apply (Permutation_NoDup
               (Permutation_middle (carved B s 1 (Z.to_nat (C - 1)))
                                   (outstanding w) B)).
      replace (B :: carved B s 1 (Z.to_nat (C - 1)) ++ outstanding w)
        with (carved B s 0 (Z.to_nat C) ++ outstanding w).
      2:{ rewrite Hcount. cbn [carved app]. f_equal. ring. }
      apply NoDup_app; [apply NoDup_carved; exact Hs0 | exact Hnodup
                        | exact Hnewout].
    + intros x Hx. apply in_app_or in Hx.
      destruct Hx as [Hx | [<- | Hx]].
      * apply In_carved in Hx. destruct Hx as (i & Hi & ->).
        exists B, i. rewrite Htable. cbn [with_alloc with_current_block_index
          m_chunk_size m_chunks_per_block]. fold s C.
        split; [apply in_or_app; right; left; reflexivity |].
        split; [lia | reflexivity].
      * exists B, 0. rewrite Htable. cbn [with_alloc with_current_block_index
          m_chunk_size m_chunks_per_block]. fold s C.
        split; [apply in_or_app; right; left; reflexivity |].
        split; [lia | ring].
      * destruct (Hchunks x Hx) as (b & j & Hb & Hj & E).
        exists b, j. rewrite Htable. cbn [with_alloc with_current_block_index
          m_chunk_size m_chunks_per_block].
        split; [apply in_or_app; left; exact Hb | auto].
Qed.

Lemma allocate_preserves_inv pick w c p' h' :
  pool_inv w ->
  allocate pick (pool w) (heap w) = Ok (c, p', h') ->
  pool_inv (mkWorld p' h' (c :: outstanding w)).
Proof.
  intros Hinv H.
  destruct (Z.eq_dec (m_alloc (pool w)) nullptr) as [Hhead | Hhead].
  - exact (allocate_grow pick w c p' h' Hinv Hhead H).
  - destruct (allocate_pop pick w Hinv Hhead) as [E Hinv'].
    rewrite E in H. injection H as <- <- <-. exact Hinv'.
Qed.

Lemma step_preserves_inv o w w' :
  pool_inv w -> step o w = Ok w' -> pool_inv w'.
Proof.
  intros Hinv H. destruct o as [pick | chunk]; cbn [step] in H.
  - bind_inv H as [[c p'] h'] Halloc. injection H as <-.
    exact (allocate_preserves_inv pick w c p' h' Hinv Halloc).
  - destruct (existsb (Z.eqb chunk) (outstanding w)) eqn:Hin; [| discriminate].
    apply existsb_eqb_In in Hin.
    rewrite (deallocate_succeeds w chunk Hinv Hin) in H.
    cbn [bind] in H. injection H as <-.
    exact (deallocate_preserves_inv w chunk Hinv Hin).
Qed.

(** A store into a chunk the client holds is defined and touches neither
    the block table nor the free list. *)
Lemma write_preserves_inv w chunk offset value w' :
  pool_inv w -> act (Write chunk offset value) w = Ok w' -> pool_inv w'.
Proof.
  intros Hinv H. cbn [act] in H.
  destruct (existsb (Z.eqb chunk) (outstanding w) && (0 <=? offset)
            && (offset <? chunk_size (pool w))) eqn:Hguard; [| discriminate].
  apply andb_true_iff in Hguard. destruct Hguard as [Hguard Hhi].
  apply andb_true_iff in Hguard. destruct Hguard as [Hin Hlo].
  apply existsb_eqb_In in Hin. apply Z.leb_le in Hlo. apply Z.ltb_lt in Hhi.
  unfold chunk_size in Hhi.
  bind_inv H as h1 Hstore. injection H as <-.
  unfold store_byte in Hstore.
  destruct (accessible (heap w) (chunk + offset) 1); [| discriminate].
  injection Hstore as <-.
  destruct (inv_free w Hinv) as (fl & Hchain & Hnodup & Hchunks).
  assert (Hc : is_chunk (pool w) (heap w) chunk).
  { apply Hchunks, in_or_app. right. exact Hin. }
  destruct (chunk_geometry w chunk Hinv Hc) as (_ & _ & _ & _ & _ & Hwide).
  set (m' := fun x => if x =? chunk + offset then value mod 256
                      else bytes (heap w) x).
  assert (Hframe : forall x, x < chunk \/ chunk + m_chunk_size (pool w) <= x ->
                             m' x = bytes (heap w) x).
  { intros x Hx. unfold m'. destruct (Z.eqb_spec x (chunk + offset)); [lia |].
    reflexivity. }
  assert (Htable : block_table (pool w)
                     (mkHeap (live (heap w)) m' (freed (heap w)))
                   = block_table (pool w) (heap w)).
  { unfold block_table. cbn [bytes]. apply table_entries_ext. intros x Hx.
    pose proof (inv_count w Hinv) as Hn. apply Hframe.
    apply (table_outside_chunk w chunk x Hinv Hc).
    unfold sizeof_ptr in *. lia. }
  constructor; cbn [pool heap outstanding]; try rewrite Htable;
    cbn [live bytes freed]; try apply Hinv.
  exists fl. split; [| split].
  - apply (free_chain_ext (bytes (heap w))); [| exact Hchain].
    intros c' Hc'. apply load64_ext. intros x Hx. apply Hframe.
    assert (Hne : c' <> chunk).
    { intros ->. exact (NoDup_app_disjoint _ _ _ Hnodup Hc' Hin). }
    assert (Hc'' : is_chunk (pool w) (heap w) c').
    { apply Hchunks, in_or_app. left. exact Hc'. }
    pose proof (chunks_apart w c' chunk Hinv Hc'' Hc Hne) as Hapart.
    unfold disjoint_chunks in Hapart. lia.
  - exact Hnodup.
  - intros x Hx. destruct (Hchunks x Hx) as (b & j & Hb & Hj & E).
    exists b, j. rewrite Htable. auto.
Qed.

Lemma act_preserves_inv a w w' :
  pool_inv w -> act a w = Ok w' -> pool_inv w'.
Proof.
  intros Hinv H. destruct a as [o | chunk offset value].
  - exact (step_preserves_inv o w w' Hinv H).
  - exact (write_preserves_inv w chunk offset value w' Hinv H).
Qed.

Lemma run_preserves_inv acts : forall w w',
  pool_inv w -> run acts w = Ok w' -> pool_inv w'.
Proof.
  induction acts as [| a acts IH]; intros w w' Hinv H; cbn [run] in H.
  - injection H as <-. exact Hinv.
  - bind_inv H as w1 Hact. apply (IH w1 w'); [| exact H].
    exact (act_preserves_inv a w w1 Hinv Hact).
Qed.

Lemma start_inv sizeof_T cpb maxb pick h w0 :
  valid_start sizeof_T cpb maxb h ->
  start sizeof_T cpb maxb pick h = Ok w0 -> pool_inv w0.
Proof.
  intros (Hw & Hs & HC & HM) H.
  unfold start, PoolAllocator_init, calloc in H.
  destruct ((maxb * sizeof_ptr <? Usize.modulus)
            && fresh h pick (maxb * sizeof_ptr)) eqn:Hcalloc;
    cbn [bind] in H; injection H as <-.
  - apply andb_true_iff in Hcalloc. destruct Hcalloc as [_ Hfresh].
    constructor; cbn [pool heap outstanding m_chunk_size m_chunks_per_block
                      m_max_blocks m_current_block_index m_blocks m_alloc
                      live bytes freed];
      try assumption; try lia.
    + unfold heap_wf. cbn [live wf_live fst snd]. unfold fresh in Hfresh.
      rewrite Hfresh. exact Hw.
    + unfold Usize.in_range in HM. lia.
    + right. left. reflexivity.
    + intros b [].
    + repeat constructor. intros [].
    + exists []. simpl. repeat split; [constructor | tauto].
  - constructor; cbn [pool heap outstanding m_chunk_size m_chunks_per_block
                      m_max_blocks m_current_block_index m_blocks m_alloc
                      live bytes freed];
      try assumption; try lia.
    + unfold Usize.in_range in HM. lia.
    + intros b [].
    + repeat constructor. intros [].
    + exists []. simpl. repeat split; [constructor | tauto].
Qed.

(** Every reachable state satisfies the invariant. *)
Lemma reachable_inv w : reachable w -> pool_inv w.
Proof.
  intros (sizeof_T & cpb & maxb & pick & h & ops & w0 & Hvalid & Hstart & Hrun).
  apply (run_preserves_inv ops w0 w); [| exact Hrun].
  exact (start_inv _ _ _ _ _ _ Hvalid Hstart).
Qed.

(** ** When allocation is defined *)

Lemma chain_chunks_succeeds n s B size : forall chunk h,
  In (B, size) (live h) -> 0 <= s -> 0 < B -> B + size < Usize.modulus ->
  B <= chunk ->
  chunk + Z.of_nat n * s + sizeof_ptr <= B + size ->
  exists h', chain_chunks n s chunk h = Ok (chunk + Z.of_nat n * s, h')
             /\ live h' = live h.
Proof.
  induction n as [| n IH]; intros chunk h HB Hs HB0 Hmax Hlo Hhi.
  - exists h. simpl. rewrite Z.add_0_r. auto.
  - rewrite Nat2Z.inj_succ in *. cbn [chain_chunks].
    assert (Hn : 0 <= Z.of_nat n * s) by nia.
    rewrite (block_ptr_add h chunk s B size HB)
      by (unfold sizeof_ptr in *; lia).
    cbn [bind]. unfold store_ptr.
    rewrite (block_accessible h chunk sizeof_ptr B size HB)
      by (unfold sizeof_ptr in *; lia).
    cbn [bind]. unfold load_ptr.
    rewrite (block_accessible
               (mkHeap (live h) (store64 (bytes h) chunk (chunk + s)) (freed h))
               chunk sizeof_ptr B size HB)
      by (unfold sizeof_ptr in *; lia).
    cbn [bind bytes].
    rewrite load64_store64_same
      by (unfold Usize.in_range, sizeof_ptr in *; lia).
    destruct (IH (chunk + s)
                 (mkHeap (live h) (store64 (bytes h) chunk (chunk + s))
                         (freed h)))
      as (h' & Hrun & Hlive); try assumption; try lia.
    exists h'. rewrite Hrun. split; [| exact Hlive].
    do 2 f_equal. ring.
Qed.

(** With a table, room in it, chunks at least a pointer wide and fresh
    storage from [std::malloc], [_allocate_block] returns the new block. *)
Lemma allocate_block_succeeds pick p h :
  In (m_blocks p, m_max_blocks p * sizeof_ptr) (live h) ->
  0 <= m_current_block_index p < m_max_blocks p ->
  Usize.in_range (m_max_blocks p) ->
  1 <= m_chunks_per_block p -> sizeof_ptr <= m_chunk_size p ->
  fresh h pick (m_chunks_per_block p * m_chunk_size p) = true ->
  exists h1,
    _allocate_block pick p h
    = Ok (pick, with_current_block_index (m_current_block_index p + 1) p, h1).
Proof.
  intros HT Hn HM HC Hs Hfresh.
  pose proof (proj1 (fresh_in_spec _ _ _) Hfresh)
    as (Hpick0 & Hsize0 & Hpickmax & Hsep).
  set (C := m_chunks_per_block p) in *. set (s := m_chunk_size p) in *.
  assert (Hmul : Usize.mul C s = C * s).
  { apply wrap_small. unfold Usize.in_range. lia. }
  assert (HCs : C <= C * s) by (unfold sizeof_ptr in *; nia).
  unfold _allocate_block. fold C s.
  destruct (Z.leb_spec (m_max_blocks p) (m_current_block_index p)); [lia |].
  rewrite Hmul. unfold malloc. rewrite Hfresh.
  destruct (Z.eqb_spec pick nullptr) as [E | _]; [unfold nullptr in E; lia |].
  set (h0 := mkHeap ((pick, C * s) :: live h) (bytes h) (freed h)).
  assert (HT0 : In (m_blocks p, m_max_blocks p * sizeof_ptr) (live h0))
    by (right; exact HT).
  assert (HB0 : In (pick, C * s) (live h0)) by (left; reflexivity).
  rewrite (block_ptr_add h0 (m_blocks p) _ _ _ HT0)
    by (unfold sizeof_ptr; lia).
  cbn [bind]. unfold store_ptr at 1.
  rewrite (block_accessible h0 _ sizeof_ptr _ _ HT0)
    by (unfold sizeof_ptr; lia).
  cbn [bind with_current_block_index m_chunks_per_block m_chunk_size].
  fold C s. rewrite sub_one_small by lia.
  set (h2 := mkHeap (live h0) _ (freed h0)).
  assert (Hoff : Z.of_nat (Z.to_nat (C - 1)) * s = C * s - s)
    by (rewrite Z2Nat.id by lia; ring).
  assert (Hs0 : 0 <= s) by (unfold sizeof_ptr in *; lia).
  assert (Hs_le : s <= C * s) by nia.
  assert (Hfit : pick + Z.of_nat (Z.to_nat (C - 1)) * s + sizeof_ptr
                 <= pick + C * s) by (unfold sizeof_ptr in *; lia).
  destruct (chain_chunks_succeeds (Z.to_nat (C - 1)) s pick (C * s) pick h2
              HB0 Hs0 Hpick0 Hpickmax (Z.le_refl pick) Hfit)
    as (h3 & Hrun & Hlive3).
  rewrite Hrun. cbn [bind]. unfold store_ptr.
  rewrite (block_accessible h3 _ sizeof_ptr pick (C * s));
    [| rewrite Hlive3; exact HB0 | lia | unfold sizeof_ptr in *; lia].
  cbn [bind]. eexists. unfold Usize.add.
  rewrite wrap_small by (unfold Usize.in_range in *; lia). reflexivity.
Qed.

(** [allocate] returns a chunk whenever the free list is not empty, and
    also when it is empty provided the pool can grow: there is room in an
    allocated table, there are chunks in a block and they are at least a
    pointer wide, and [std::malloc] returns fresh storage. *)
Lemma allocate_succeeds pick w :
  reachable w ->
  m_alloc (pool w) <> nullptr
  \/ (m_current_block_index (pool w) < m_max_blocks (pool w)
      /\ m_blocks (pool w) <> nullptr
      /\ 1 <= m_chunks_per_block (pool w)
      /\ sizeof_ptr <= m_chunk_size (pool w)
      /\ fresh (heap w) pick
               (m_chunks_per_block (pool w) * m_chunk_size (pool w)) = true) ->
  exists c p' h',
    allocate pick (pool w) (heap w) = Ok (c, p', h') /\ c <> nullptr.
Proof.
  intros Hreach Hcase. pose proof (reachable_inv w Hreach) as Hinv.
  destruct (Z.eq_dec (m_alloc (pool w)) nullptr) as [Hhead | Hhead].
  - destruct Hcase as [Hne | (Hroom & HT & HC & Hs & Hfresh)];
      [contradiction |].
    assert (HTlive : In (m_blocks (pool w), m_max_blocks (pool w) * sizeof_ptr)
                        (live (heap w))).
    { destruct (inv_table w Hinv) as [[E _] | Hlive]; [contradiction | auto]. }
    destruct (allocate_block_succeeds pick (pool w) (heap w) HTlive
                (conj (proj1 (inv_count w Hinv)) Hroom) (inv_max w Hinv)
                HC Hs Hfresh) as (h1 & Hblock).
    assert (Hpick : pick <> nullptr).
    { apply fresh_in_spec in Hfresh. unfold nullptr. lia. }
    destruct (allocate_block_Ok pick (pool w) (heap w) pick _ h1
                (inv_heap w Hinv) (inv_size w Hinv) (inv_cpb w Hinv)
                (proj1 (inv_count w Hinv)) (inv_max w Hinv) (or_intror HTlive)
                Hblock Hpick)
      as (_ & _ & _ & _ & _ & _ & _ & Hlive & _).
    unfold allocate, allocate_refill. rewrite Hhead.
    change (nullptr =? nullptr) with true. cbn iota. rewrite Hblock.
    cbn [bind with_alloc m_alloc]. unfold load_ptr.
    rewrite (block_accessible h1 pick sizeof_ptr pick
               (m_chunks_per_block (pool w) * m_chunk_size (pool w))).
    + cbn [bind]. do 3 eexists. split; [reflexivity | exact Hpick].
    + rewrite Hlive. left. reflexivity.
    + lia.
    + unfold sizeof_ptr in *. nia.
  - destruct (allocate_pop pick w Hinv Hhead) as [E _].
    do 3 eexists. split; [exact E | exact Hhead].
Qed.

(** ** No two outstanding chunks overlap *)

Lemma distinct_chunks_disjoint w l :
  pool_inv w -> NoDup l -> (forall c, In c l -> is_chunk (pool w) (heap w) c) ->
  ForallOrdPairs (disjoint_chunks (chunk_size (pool w))) l.
Proof.
  intros Hinv. induction l as [| x l IH]; intros Hnd Hchunks.
  - constructor.
  - apply NoDup_cons_iff in Hnd. destruct Hnd as [Hx Hnd].
    constructor.
    + apply Forall_forall. intros y Hy.
      apply (chunks_apart w x y Hinv).
      * apply Hchunks. left. reflexivity.
      * apply Hchunks. right. exact Hy.
      * intros ->. contradiction.
    + apply IH; [exact Hnd |]. intros c Hc. apply Hchunks. right. exact Hc.
Qed.

Ltac solve_valid_start :=
  unfold valid_start, heap_wf, Usize.in_range; rewrite ?modulus_eq;
  repeat split; (reflexivity || lia).

(** C3: in every state reached by a client that only hands back chunks it
    holds (and writes only into chunks it holds), any two chunks it holds at
    the same time occupy disjoint address ranges [p, p + element size). *)
Theorem outstanding_chunks_disjoint (w : world) :
  reachable w ->
  ForallOrdPairs (disjoint_chunks (chunk_size (pool w))) (outstanding w).
Proof.
  intros Hreach. pose proof (reachable_inv w Hreach) as Hinv.
  destruct (inv_free w Hinv) as (fl & _ & Hnodup & Hchunks).
  apply (distinct_chunks_disjoint w); [exact Hinv | |].
  - exact (NoDup_app_remove_l _ _ Hnodup).
  - intros c Hc. apply Hchunks, in_or_app. right. exact Hc.
Qed.

Lemma outstanding_chunks_disjoint_witness :
  exists w0 w,
    start 16 2 2 4096 empty_heap = Ok w0
    /\ run [Call (Allocate 8192); Write 8192 0 255; Call (Allocate 0);
            Call (Allocate 12288); Write 8208 15 7; Call (Deallocate 8208);
            Call (Allocate 0)] w0 = Ok w
    /\ outstanding w = [8208; 12288; 8192]
    /\ ForallOrdPairs (disjoint_chunks (chunk_size (pool w))) (outstanding w).
Proof.
  do 2 eexists.
  split; [reflexivity |].
  split; [vm_compute; reflexivity |].
  split; [reflexivity |].
  apply outstanding_chunks_disjoint.
  exists 16, 2, 2, 4096, empty_heap,
    [Call (Allocate 8192); Write 8192 0 255; Call (Allocate 0);
     Call (Allocate 12288); Write 8208 15 7; Call (Deallocate 8208);
     Call (Allocate 0)].
  eexists.
  split; [solve_valid_start |].
  split; [reflexivity | vm_compute; reflexivity].
Defined.

(** ** Reuse of the chunk handed back last *)

(** C5: handing back an outstanding chunk [X] and allocating right after
    returns [X] again; the allocator is then back in the state it had before
    the two calls. *)
Theorem deallocate_then_allocate_returns_same (pick : Z) (w : world) (X : Z) :
  reachable w -> In X (outstanding w) ->
  exists p1 h1,
    deallocate X (pool w) (heap w) = Ok (p1, h1)
    /\ m_alloc p1 = X
    /\ allocate pick p1 h1 = Ok (X, pool w, h1).
Proof.
  intros Hreach Hin. pose proof (reachable_inv w Hreach) as Hinv.
  pose proof (deallocate_succeeds w X Hinv Hin) as Hfree.
  pose proof (deallocate_preserves_inv w X Hinv Hin) as Hinv1.
  do 2 eexists. split; [exact Hfree |]. split; [reflexivity |].
  assert (HX : X <> nullptr).
  { destruct (inv_free w Hinv) as (fl & _ & _ & Hchunks).
    assert (Hc : is_chunk (pool w) (heap w) X)
      by (apply Hchunks, in_or_app; right; exact Hin).
    pose proof (chunk_in_range w X Hinv Hc). unfold nullptr. lia. }
  destruct (allocate_pop pick _ Hinv1 HX) as [E _].
  cbn [pool heap with_alloc m_alloc bytes] in E. rewrite E.
  rewrite load64_store64_same by apply (head_in_range w Hinv).
  destruct (pool w). reflexivity.
Qed.

Lemma deallocate_then_allocate_returns_same_witness :
  exists w0 w p1 h1,
    start 16 2 2 4096 empty_heap = Ok w0
    /\ run (map Call [Allocate 8192; Allocate 0; Allocate 12288]) w0 = Ok w
    /\ In 8208 (outstanding w)
    /\ deallocate 8208 (pool w) (heap w) = Ok (p1, h1)
    /\ allocate 0 p1 h1 = Ok (8208, pool w, h1).
Proof.
  assert (Hw : { w | run (map Call [Allocate 8192; Allocate 0; Allocate 12288])
                         (mkWorld (mkPool 16 2 2 0 4096 nullptr)
                                  (snd (calloc 2 sizeof_ptr 4096 empty_heap))
                                  []) = Ok w
                     /\ In 8208 (outstanding w) }).
  { eexists. split; [vm_compute; reflexivity |]. right. left. reflexivity. }
  destruct Hw as (w & Hrun & Hin).
  assert (Hreach : reachable w).
  { exists 16, 2, 2, 4096, empty_heap,
      (map Call [Allocate 8192; Allocate 0; Allocate 12288]).
    eexists.
    split; [solve_valid_start |]. split; [reflexivity | exact Hrun]. }
  destruct (deallocate_then_allocate_returns_same 0 w 8208 Hreach Hin)
    as (p1 & h1 & Hfree & _ & Halloc).
  exists (mkWorld (mkPool 16 2 2 0 4096 nullptr)
                  (snd (calloc 2 sizeof_ptr 4096 empty_heap)) []), w, p1, h1.
  split; [reflexivity |]. auto.
Defined.

(** ** Teardown *)

Lemma forallb_filter {A : Type} (f g : A -> bool) l :
  forallb f l = true -> forallb f (filter g l) = true.
Proof.
  rewrite !forallb_forall. intros H x Hx. apply filter_In in Hx.
  apply H. tauto.
Qed.

Lemma wf_live_filter g l : wf_live l = true -> wf_live (filter g l) = true.
Proof.
  induction l as [| blk l IH]; simpl; [reflexivity |].
  rewrite andb_true_iff. intros [Hf Hw].
  assert (Hf' : fresh_in (filter g l) (fst blk) (snd blk) = true).
  { unfold fresh_in in *. rewrite !andb_true_iff in *.
    destruct Hf as [Hf1 Hf2]. split; [exact Hf1 |].
    apply forallb_filter. exact Hf2. }
  destruct (g blk); simpl; [rewrite Hf' |]; auto.
Qed.

(** Releasing the base of a live allocation. *)
Lemma free_live h b sz :
  heap_wf h -> In (b, sz) (live h) ->
  free b h
  = Ok (mkHeap (filter (fun blk => negb (fst blk =? b)) (live h))
               (bytes h) (freed h ++ [b])).
Proof.
  intros Hw Hin. unfold free.
  destruct (Z.eqb_spec b nullptr) as [E | _].
  { apply (wf_live_In _ _ _ Hw) in Hin. unfold nullptr in E. lia. }
  replace (existsb _ (live h)) with true; [reflexivity |].
  symmetry. apply existsb_exists. exists (b, sz).
  split; [exact Hin | apply Z.eqb_refl].
Qed.

Lemma In_live_after_free b (l : list (Z * Z)) blk :
  In blk (filter (fun blk => negb (fst blk =? b)) l)
  <-> In blk l /\ fst blk <> b.
Proof.
  rewrite filter_In, negb_true_iff, Z.eqb_neq. tauto.
Qed.

(** The loop of the destructor over table entries that are distinct live
    allocations, different from the table itself. *)
Lemma free_blocks_Ok p M count : forall i h,
  heap_wf h ->
  In (m_blocks p, M * sizeof_ptr) (live h) ->
  0 <= i -> i + Z.of_nat count <= M ->
  NoDup (m_blocks p :: table_entries (bytes h) (m_blocks p) i count) ->
  (forall b, In b (table_entries (bytes h) (m_blocks p) i count) ->
             exists sz, In (b, sz) (live h)) ->
  exists h',
    free_blocks count i p h = Ok h'
    /\ heap_wf h'
    /\ bytes h' = bytes h
    /\ freed h' = freed h ++ table_entries (bytes h) (m_blocks p) i count
    /\ forall blk,
         In blk (live h') <->
         In blk (live h)
         /\ ~ In (fst blk) (table_entries (bytes h) (m_blocks p) i count).
Proof.
  induction count as [| count IH]; intros i h Hw HT Hi Hle Hnd Hlive.
  - exists h. simpl. rewrite app_nil_r. repeat split; auto; tauto.
  - cbn [free_blocks table_entries] in *.
    set (b := load64 (bytes h) (m_blocks p + sizeof_ptr * i)) in *.
    set (rest := table_entries (bytes h) (m_blocks p) (i + 1) count) in *.
    rewrite (block_ptr_add h (m_blocks p) (sizeof_ptr * i) _ _ HT)
      by (unfold sizeof_ptr; lia).
    cbn [bind]. unfold load_ptr.
    rewrite (block_accessible h _ sizeof_ptr _ _ HT)
      by (unfold sizeof_ptr; lia).
    cbn [bind]. fold b.
    destruct (Hlive b (or_introl eq_refl)) as (sz & Hb).
    rewrite (free_live h b sz Hw Hb). cbn [bind].
    set (h1 := mkHeap (filter (fun blk => negb (fst blk =? b)) (live h))
                      (bytes h) (freed h ++ [b])).
    apply NoDup_cons_iff in Hnd. destruct Hnd as [HTout Hnd].
    apply NoDup_cons_iff in Hnd. destruct Hnd as [Hbout Hnd].
    destruct (IH (i + 1) h1) as (h' & Hrun & Hw' & Hbytes & Hfreed & Hl).
    + apply wf_live_filter. exact Hw.
    + apply In_live_after_free. split; [exact HT |]. simpl.
      intros E. apply HTout. left. auto.
    + lia.
    + lia.
    + constructor; [| exact Hnd]. intros Hin. apply HTout. right. exact Hin.
    + intros b' Hb'. destruct (Hlive b' (or_intror Hb')) as (sz' & Hb'live).
      exists sz'. apply In_live_after_free. split; [exact Hb'live |]. simpl.
      intros ->. contradiction.
    + exists h'. split; [exact Hrun |]. split; [exact Hw' |].
      split; [exact Hbytes |]. split.
      * rewrite Hfreed. cbn [freed bytes h1]. fold rest.
        rewrite <- app_assoc. reflexivity.
      * intros blk. rewrite Hl. cbn [live bytes h1]. fold rest.
        rewrite In_live_after_free. simpl. intuition congruence.
Qed.

(** C7: the destructor of a pool that created [n] blocks calls [std::free]
    on [block_table[0]], ..., [block_table[n-1]], in this order, then on the
    block table, and on nothing else; afterwards exactly these allocations
    are gone from the heap.  Outstanding chunks and the free list play no
    part. *)
Theorem destructor_releases_blocks_then_table (w : world) :
  reachable w ->
  exists h',
    PoolAllocator_destroy (pool w) (heap w) = Ok h'
    /\ freed h'
       = freed (heap w) ++ block_table (pool w) (heap w) ++ [m_blocks (pool w)]
    /\ length (block_table (pool w) (heap w))
       = Z.to_nat (m_current_block_index (pool w))
    /\ forall b sz,
         In (b, sz) (live h') <->
         In (b, sz) (live (heap w))
         /\ ~ In b (m_blocks (pool w) :: block_table (pool w) (heap w)).
Proof.
  intros Hreach. pose proof (reachable_inv w Hreach) as Hinv.
  pose proof (inv_heap w Hinv) as Hw. pose proof (inv_count w Hinv) as Hn.
  unfold PoolAllocator_destroy.
  destruct (inv_table w Hinv) as [[Enull Ezero] | HT].
  - unfold block_table. rewrite Ezero, Enull. simpl.
    eexists. split; [reflexivity |]. simpl.
    split; [reflexivity |]. split; [reflexivity |].
    intros b sz. split; [| tauto]. intros Hin. split; [exact Hin |].
    intros [E | []]. apply (wf_live_In _ _ _ Hw) in Hin.
    unfold nullptr in E. lia.
  - destruct (free_blocks_Ok (pool w) (m_max_blocks (pool w))
                (Z.to_nat (m_current_block_index (pool w))) 0 (heap w))
      as (h1 & Hrun & Hw1 & Hbytes & Hfreed & Hl); try assumption; try lia.
    + apply (inv_distinct w Hinv).
    + intros b Hb. eexists. apply (inv_blocks w Hinv b Hb).
    + fold (block_table (pool w) (heap w)) in *.
      rewrite Hrun. cbn [bind].
      assert (HT1 : In (m_blocks (pool w), m_max_blocks (pool w) * sizeof_ptr)
                       (live h1)).
      { apply Hl. split; [exact HT |]. simpl.
        pose proof (inv_distinct w Hinv) as Hd.
        apply NoDup_cons_iff in Hd. tauto. }
      rewrite (free_live h1 _ _ Hw1 HT1).
      eexists. split; [reflexivity |]. cbn [freed live].
      split; [rewrite Hfreed, <- app_assoc; reflexivity |].
      split; [apply table_entries_length |].
      intros b sz. rewrite In_live_after_free, Hl. simpl. intuition congruence.
Qed.

Lemma destructor_releases_blocks_then_table_witness :
  exists w0 w,
    start 16 8 2 4096 empty_heap = Ok w0
    /\ run (map Call
              [Allocate 8192; Allocate 0; Allocate 0; Allocate 0; Allocate 0;
               Allocate 0; Allocate 0; Allocate 0; Allocate 12288; Allocate 0;
               Deallocate 12304; Deallocate 12288; Deallocate 8304])
           w0 = Ok w
    /\ exists h',
         PoolAllocator_destroy (pool w) (heap w) = Ok h'
         /\ freed h' = [8192; 12288; 4096].
Proof.
  do 2 eexists.
  split; [reflexivity |].
  split; [vm_compute; reflexivity |].
  match goal with
  | |- exists h', PoolAllocator_destroy (pool ?w) _ = _ /\ _ =>
      assert (Hreach : reachable w)
  end.
  { exists 16, 8, 2, 4096, empty_heap,
      (map Call [Allocate 8192; Allocate 0; Allocate 0; Allocate 0; Allocate 0;
       Allocate 0; Allocate 0; Allocate 0; Allocate 12288; Allocate 0;
       Deallocate 12304; Deallocate 12288; Deallocate 8304]).
    eexists.
    split; [solve_valid_start |].
    split; [reflexivity | vm_compute; reflexivity]. }
  destruct (destructor_releases_blocks_then_table _ Hreach)
    as (h' & Hrun & Hfreed & _).
  exists h'. split; [exact Hrun |]. rewrite Hfreed. reflexivity.
Defined.

(** ** A block that was just carved *)

(** C4: when the ceiling is not reached, there is at least one chunk per
    block and [_allocate_block] succeeds, the new block's base is stored in
    [m_blocks[m_current_block_index]], the index grows by one, every chunk
    [i] in [0, C-2] holds the address of chunk [i+1], the last chunk holds
    [nullptr], and [allocate] makes the first chunk the head of the free
    list. *)
Theorem successful_growth_threads_block (pick : Z) (w : world) (B : Z)
    (p1 : PoolAllocator) (h1 : Heap) :
  reachable w ->
  m_current_block_index (pool w) < max_blocks (pool w) ->
  1 <= chunks_per_block (pool w) ->
  _allocate_block pick (pool w) (heap w) = Ok (B, p1, h1) ->
  B <> nullptr ->
  load64 (bytes h1)
         (m_blocks (pool w) + sizeof_ptr * m_current_block_index (pool w)) = B
  /\ block_table p1 h1 = block_table (pool w) (heap w) ++ [B]
  /\ m_current_block_index p1 = m_current_block_index (pool w) + 1
  /\ (forall i, 0 <= i <= chunks_per_block (pool w) - 2 ->
        load64 (bytes h1) (B + i * chunk_size (pool w))
        = B + (i + 1) * chunk_size (pool w))
  /\ load64 (bytes h1)
            (B + (chunks_per_block (pool w) - 1) * chunk_size (pool w))
     = nullptr
  /\ (m_alloc (pool w) = nullptr ->
      exists p2, allocate_refill pick (pool w) (heap w) = Ok (p2, h1)
                 /\ m_alloc p2 = B).
Proof.
  intros Hreach Hroom HC Hblock HB.
  pose proof (reachable_inv w Hreach) as Hinv.
  pose proof (grown_block_table pick w B p1 h1 Hinv Hblock HB) as Htable.
  assert (Htbl : m_blocks (pool w) = nullptr
                 \/ In (m_blocks (pool w), m_max_blocks (pool w) * sizeof_ptr)
                       (live (heap w))).
  { destruct (inv_table w Hinv) as [[E _] | HT]; auto. }
  destruct (allocate_block_Ok pick (pool w) (heap w) B p1 h1
              (inv_heap w Hinv) (inv_size w Hinv) (inv_cpb w Hinv)
              (proj1 (inv_count w Hinv)) (inv_max w Hinv) Htbl Hblock HB)
    as (_ & _ & _ & _ & _ & _ & Hp1 & _ & _ & _ & Hentry & Hlinks & Hlast).
  unfold chunks_per_block, chunk_size, max_blocks in *.
  split; [exact Hentry |]. split; [exact Htable |].
  split; [rewrite Hp1; reflexivity |].
  split; [intros i Hi; apply Hlinks; lia |].
  split; [exact Hlast |].
  intros Hhead. unfold allocate_refill. rewrite Hhead.
  change (nullptr =? nullptr) with true. cbn iota. rewrite Hblock.
  cbn [bind]. eexists. split; reflexivity.
Qed.

Lemma successful_growth_threads_block_witness :
  exists w0 w,
    start 16 3 2 4096 empty_heap = Ok w0
    /\ run (map Call [Allocate 8192; Allocate 0; Allocate 0]) w0 = Ok w
    /\ exists B p1 h1,
         m_alloc (pool w) = nullptr
         /\ _allocate_block 12288 (pool w) (heap w) = Ok (B, p1, h1)
         /\ B = 12288
         /\ m_current_block_index p1 = 2
         /\ block_table p1 h1 = [8192; 12288]
         /\ load64 (bytes h1) 12288 = 12304
         /\ load64 (bytes h1) 12304 = 12320
         /\ load64 (bytes h1) 12320 = nullptr.
Proof.
  do 2 eexists.
  split; [reflexivity |].
  split; [vm_compute; reflexivity |].
  match goal with
  | |- exists B p1 h1, m_alloc (pool ?W) = _ /\ _ => set (w := W)
  end.
  assert (Hreach : reachable w).
  { exists 16, 3, 2, 4096, empty_heap,
      (map Call [Allocate 8192; Allocate 0; Allocate 0]).
    eexists. split; [solve_valid_start |].
    split; [reflexivity | vm_compute; reflexivity]. }
  do 3 eexists.
  split; [reflexivity |].
  split; [vm_compute; reflexivity |].
  split; [reflexivity |].
  match goal with
  | |- m_current_block_index ?p1 = _ /\ block_table _ ?h1 = _ /\ _ =>
      destruct (successful_growth_threads_block 12288 w 12288 p1 h1 Hreach)
        as (Hentry & Htable & Hindex & Hlinks & Hlast & _)
  end.
  - vm_compute. reflexivity.
  - vm_compute. discriminate.
  - vm_compute. reflexivity.
  - discriminate.
  - split; [exact Hindex |]. split; [exact Htable |].
    split; [exact (Hlinks 0 ltac:(vm_compute; split; discriminate)) |].
    split; [exact (Hlinks 1 ltac:(vm_compute; split; discriminate)) |].
    exact Hlast.
Defined.

(** ** What [deallocate] writes *)

(** C10 (as stated) fails: [deallocate] accepts any pointer, and when it is
    given the address of the block table it overwrites the first entry. *)
Lemma deallocate_can_overwrite_block_table :
  exists w0 w p' h',
    start 16 1 1 4096 empty_heap = Ok w0
    /\ run (map Call [Allocate 8192]) w0 = Ok w
    /\ deallocate 4096 (pool w) (heap w) = Ok (p', h')
    /\ block_table (pool w) (heap w) = [8192]
    /\ block_table p' h' = [nullptr].
Proof.
  do 4 eexists.
  split; [reflexivity |].
  split; [vm_compute; reflexivity |].
  split; [vm_compute; reflexivity |].
  split; reflexivity.
Qed.

(** C10 (amended): [deallocate(p)], when the store it performs is defined,
    changes the free-list head and the pointer-sized region at [p] and
    nothing else: the block count, the table pointer, the capacity fields,
    the set of live allocations and every byte outside [p, p + 8) stay as
    they were.  When [p] is a chunk the client holds, no entry of the block
    table and no byte of any other chunk lies in that region, so all of them
    are unchanged. *)
Theorem deallocate_frame (chunk : Z) (p p' : PoolAllocator) (h h' : Heap) :
  deallocate chunk p h = Ok (p', h') ->
  (m_alloc p' = chunk
   /\ m_current_block_index p' = m_current_block_index p
   /\ m_blocks p' = m_blocks p
   /\ chunks_per_block p' = chunks_per_block p
   /\ max_blocks p' = max_blocks p
   /\ chunk_size p' = chunk_size p
   /\ live h' = live h
   /\ freed h' = freed h)
  /\ (forall x, x < chunk \/ chunk + sizeof_ptr <= x -> bytes h' x = bytes h x)
  /\ (forall out,
        reachable (mkWorld p h out) -> In chunk out ->
        block_table p' h' = block_table p h
        /\ forall c, is_chunk p h c -> c <> chunk ->
             forall x, c <= x < c + chunk_size p -> bytes h' x = bytes h x).
Proof.
  intros H. apply deallocate_Ok in H. destruct H as (_ & -> & ->).
  split; [cbn; auto 10 |]. split.
  - intros x Hx. cbn [bytes]. apply store64_outside. exact Hx.
  - intros out Hreach Hin. pose proof (reachable_inv _ Hreach) as Hinv.
    assert (Hc : is_chunk p h chunk).
    { destruct (inv_free _ Hinv) as (fl & _ & _ & Hchunks).
      apply (Hchunks chunk), in_or_app. right. exact Hin. }
    split.
    + exact (deallocate_keeps_table _ chunk Hinv Hc (m_alloc p)).
    + intros c Hc' Hne x Hx. cbn [bytes]. apply store64_outside.
      destruct (chunk_geometry _ chunk Hinv Hc) as (_ & _ & _ & _ & _ & Hwide).
      pose proof (chunks_apart _ c chunk Hinv Hc' Hc Hne) as Hapart.
      unfold disjoint_chunks, chunk_size in *. cbn [pool] in *. lia.
Qed.

Lemma deallocate_frame_witness :
  exists w0 w,
    start 16 2 2 4096 empty_heap = Ok w0
    /\ run (map Call [Allocate 8192; Allocate 0; Allocate 12288]) w0 = Ok w
    /\ In 8208 (outstanding w)
    /\ exists p' h',
         deallocate 8208 (pool w) (heap w) = Ok (p', h')
         /\ m_alloc p' = 8208
         /\ block_table p' h' = block_table (pool w) (heap w)
         /\ forall x, x < 8208 \/ 8208 + sizeof_ptr <= x ->
                      bytes h' x = bytes (heap w) x.
Proof.
  do 2 eexists.
  split; [reflexivity |].
  split; [vm_compute; reflexivity |].
  split; [right; left; reflexivity |].
  do 2 eexists. split; [vm_compute; reflexivity |].
  match goal with
  | |- m_alloc ?p' = _ /\ block_table _ ?h' = block_table (pool ?w) _ /\ _ =>
      assert (Hreach : reachable (mkWorld (pool w) (heap w) (outstanding w)));
      [| destruct (deallocate_frame 8208 (pool w) p' (heap w) h')
           as (Hfields & Hbytes & Hrest)]
  end.
  - exists 16, 2, 2, 4096, empty_heap,
      (map Call [Allocate 8192; Allocate 0; Allocate 12288]).
    eexists.
    split; [solve_valid_start |].
    split; [reflexivity | vm_compute; reflexivity].
  - vm_compute. reflexivity.
  - destruct (Hrest _ Hreach) as [Htable _]; [right; left; reflexivity |].
    split; [apply Hfields |]. split; [exact Htable | exact Hbytes].
Defined.

(** ** An allocator without chunks *)

(** C9: [PoolAllocator(0, max_blocks)] is constructed like any other
    allocator.  On its first growth the block size is [0] and the bound of
    the chaining loop, [m_chunks_per_block - 1], wraps to the largest
    [usize].  When [std::malloc(0)] returns a block, the link of the first
    chunk is already outside of it, and the first iteration of the loop
    leaves the block: the growth has undefined behaviour.  However
    [std::malloc] answers, [allocate] never returns. *)
Theorem zero_chunks_per_block_is_unguarded (sizeof_T maxb pick0 : Z)
    (h0 : Heap) :
  valid_start sizeof_T 0 maxb h0 ->
  exists p h,
    PoolAllocator_init sizeof_T 0 maxb pick0 h0 = Ok (p, h)
    /\ chunks_per_block p = 0
    /\ Usize.sub (chunks_per_block p) 1 = Usize.max
    /\ Usize.mul (chunks_per_block p) (chunk_size p) = 0
    /\ (forall pick block h1,
          malloc (Usize.mul (chunks_per_block p) (chunk_size p)) pick h
          = (block, h1) ->
          block <> nullptr ->
          accessible h1 block sizeof_ptr = false
          /\ (m_blocks p <> nullptr -> 0 < maxb ->
              _allocate_block pick p h
              = Fault (PointerOverflow block sizeof_T)))
    /\ (forall pick, exists f, allocate pick p h = Fault f).
Proof.
  intros Hvalid.
  pose proof (PoolAllocator_init_Ok sizeof_T 0 maxb pick0 h0) as Hinit.
  set (p := mkPool sizeof_T 0 maxb 0
                   (fst (calloc maxb sizeof_ptr pick0 h0)) nullptr) in *.
  set (h := snd (calloc maxb sizeof_ptr pick0 h0)) in *.
  assert (Hs : chunk_size p = sizeof_T) by reflexivity.
  assert (HC : chunks_per_block p = 0) by reflexivity.
  assert (HM : max_blocks p = maxb) by reflexivity.
  assert (Hn : m_current_block_index p = 0) by reflexivity.
  assert (Hhead : m_alloc p = nullptr) by reflexivity.
  exists p, h. split; [exact Hinit |].
  assert (Hinv : pool_inv (mkWorld p h [])).
  { apply (start_inv sizeof_T 0 maxb pick0 h0); [exact Hvalid |].
    unfold start. rewrite Hinit. reflexivity. }
  pose proof (inv_heap _ Hinv) as Hw. cbn [heap] in Hw.
  destruct Hvalid as (_ & Hsize & _ & _).
  unfold chunks_per_block, chunk_size, max_blocks in *.
  rewrite HC, Hs. split; [reflexivity |]. split; [reflexivity |].
  split; [reflexivity |].
  change (Usize.mul 0 sizeof_T) with 0.
  split.
  - intros pick block h1 Hmalloc Hblock.
    unfold malloc in Hmalloc. destruct (fresh h pick 0) eqn:Hfresh.
    2:{ injection Hmalloc as <- _. contradiction. }
    injection Hmalloc as <- <-.
    set (h1 := mkHeap ((pick, 0) :: live h) (bytes h) (freed h)).
    assert (Hw1 : heap_wf h1).
    { unfold heap_wf, h1. cbn [live wf_live fst snd]. unfold fresh in Hfresh.
      rewrite Hfresh. exact Hw. }
    assert (Hin1 : In (pick, 0) (live h1)) by (left; reflexivity).
    split.
    + destruct (accessible h1 pick sizeof_ptr) eqn:Hacc; [| reflexivity].
      apply (accessible_in_block h1 pick sizeof_ptr pick 0 Hw1 Hin1) in Hacc;
        unfold sizeof_ptr in *; lia.
    + intros HT HM0. unfold _allocate_block.
      rewrite HM, Hn, HC, Hs.
      destruct (Z.leb_spec maxb 0) as [Hle | _]; [lia |].
      change (Usize.mul 0 sizeof_T) with 0.
      unfold malloc. rewrite Hfresh. fold h1.
      destruct (Z.eqb_spec pick nullptr) as [E | _]; [contradiction |].
      change (sizeof_ptr * 0) with 0. unfold ptr_add at 1.
      change (0 =? 0) with true. cbn [orb bind].
      assert (HTlive : In (m_blocks p, maxb * sizeof_ptr) (live h1)).
      { right. destruct (inv_table _ Hinv) as [[E _] | Hlive];
          [contradiction |].
        cbn [pool heap] in Hlive. rewrite HM in Hlive. exact Hlive. }
      unfold store_ptr.
      rewrite (block_accessible h1 (m_blocks p + 0) sizeof_ptr _ _ HTlive)
        by (unfold sizeof_ptr; lia).
      cbn [bind with_current_block_index m_chunks_per_block m_chunk_size].
      rewrite HC, Hs, sub_zero_one.
      rewrite (chain_chunks_first_fault _ _ _ _
                 (PointerOverflow pick sizeof_T)); [reflexivity | |].
      * apply to_nat_max_pos.
      * apply (ptr_add_leaves_block _ _ _ pick 0); try lia; assumption.
  - intros pick. unfold allocate, allocate_refill. rewrite Hhead.
    change (nullptr =? nullptr) with true. cbn iota.
    destruct (_allocate_block pick p h) as [[[B p1] h1] | f] eqn:Hblock;
      [| eexists; reflexivity].
    cbn [bind with_alloc m_alloc].
    destruct (Z.eq_dec B nullptr) as [-> | HB].
    + apply allocate_block_null in Hblock. destruct Hblock as [_ ->].
      unfold load_ptr. rewrite (null_not_accessible h Hw).
      eexists. reflexivity.
    + exfalso.
      assert (Htbl : m_blocks p = nullptr
                     \/ In (m_blocks p, m_max_blocks p * sizeof_ptr) (live h)).
      { destruct (inv_table _ Hinv) as [[E _] | HT]; auto. }
      destruct (allocate_block_Ok pick p h B p1 h1 Hw (inv_size _ Hinv)
                  (inv_cpb _ Hinv) (proj1 (inv_count _ Hinv)) (inv_max _ Hinv)
                  Htbl Hblock HB)
        as (_ & _ & _ & HC1 & _).
      lia.
Qed.

Lemma zero_chunks_per_block_is_unguarded_witness :
  exists p h,
    PoolAllocator_init 16 0 2 4096 empty_heap = Ok (p, h)
    /\ m_chunks_per_block p = 0
    /\ m_blocks p = 4096
    /\ Usize.sub (chunks_per_block p) 1 = 18446744073709551615
    /\ fst (malloc 0 8192 h) = 8192
    /\ _allocate_block 8192 p h = Fault (PointerOverflow 8192 16)
    /\ exists f, allocate 8192 p h = Fault f.
Proof.
  destruct (zero_chunks_per_block_is_unguarded 16 2 4096 empty_heap)
    as (p & h & Hinit & HC & Hbound & Hsize & Hgrow & Halloc);
    [solve_valid_start |].
  exists p, h. split; [exact Hinit |].
  injection Hinit as <- <-.
  split; [reflexivity |]. split; [reflexivity |]. split; [exact Hbound |].
  split; [reflexivity |].
  split; [| apply Halloc].
  eapply Hgrow; [reflexivity | discriminate | discriminate | reflexivity].
Defined.

(** * Part III: further properties of the allocator *)

(** ** The free list, explicitly *)

Lemma free_chain_unique m l1 : forall l2 head,
  free_chain m head l1 -> free_chain m head l2 -> l1 = l2.
Proof.
  induction l1 as [| c l1 IH]; intros [| c2 l2] head H1 H2; simpl in *.
  - reflexivity.
  - destruct H2 as (E & Hc & _). congruence.
  - destruct H1 as (E & Hc & _). congruence.
  - destruct H1 as (E1 & _ & H1). destruct H2 as (E2 & _ & H2).
    subst head. subst c2. f_equal. exact (IH _ _ H1 H2).
Qed.

(** The list of free chunks read from memory is the one the invariant
    speaks about. *)
Lemma inv_free_list w fl :
  pool_inv w -> free_chain (bytes (heap w)) (m_alloc (pool w)) fl ->
  NoDup (fl ++ outstanding w)
  /\ forall c, In c (fl ++ outstanding w) -> is_chunk (pool w) (heap w) c.
Proof.
  intros Hinv Hchain.
  destruct (inv_free w Hinv) as (fl0 & Hchain0 & Hnodup & Hchunks).
  rewrite (free_chain_unique _ _ _ _ Hchain Hchain0). auto.
Qed.

Lemma free_chain_null m fl : free_chain m nullptr fl -> fl = [].
Proof.
  destruct fl as [| c fl]; [reflexivity |]. simpl.
  intros (E & Hc & _). congruence.
Qed.

(** Handing back [c] puts it in front of the free list. *)
Lemma deallocate_free_list w c fl :
  pool_inv w -> In c (outstanding w) ->
  free_chain (bytes (heap w)) (m_alloc (pool w)) fl ->
  free_chain (store64 (bytes (heap w)) c (m_alloc (pool w))) c (c :: fl).
Proof.
  intros Hinv Hin Hchain.
  destruct (inv_free_list w fl Hinv Hchain) as [Hnodup Hchunks].
  assert (Hc : is_chunk (pool w) (heap w) c).
  { apply Hchunks, in_or_app. right. exact Hin. }
  cbn [free_chain]. split; [reflexivity |].
  split; [pose proof (chunk_in_range w c Hinv Hc); unfold nullptr; lia |].
  rewrite load64_store64_same by apply (head_in_range w Hinv).
  apply (free_chain_ext (bytes (heap w))); [| exact Hchain].
  intros c' Hc'. apply load64_store64_other.
  assert (Hne : c' <> c).
  { intros ->. exact (NoDup_app_disjoint _ _ _ Hnodup Hc' Hin). }
  assert (Hc'' : is_chunk (pool w) (heap w) c').
  { apply Hchunks, in_or_app. left. exact Hc'. }
  destruct (chunk_geometry w c Hinv Hc) as (_ & _ & _ & _ & _ & Hwide).
  pose proof (chunks_apart w c' c Hinv Hc'' Hc Hne) as Hapart.
  unfold disjoint_chunks in Hapart. lia.
Qed.

(** What a growing [allocate] did. *)
Lemma allocate_grow_Ok pick w c p' h' :
  pool_inv w -> m_alloc (pool w) = nullptr ->
  allocate pick (pool w) (heap w) = Ok (c, p', h') ->
  c <> nullptr
  /\ _allocate_block pick (pool w) (heap w)
     = Ok (c, with_current_block_index
                (m_current_block_index (pool w) + 1) (pool w), h')
  /\ p' = with_alloc (load64 (bytes h') c)
            (with_current_block_index
               (m_current_block_index (pool w) + 1) (pool w)).
Proof.
  intros Hinv Hhead H.
  unfold allocate, allocate_refill in H. rewrite Hhead in H.
  change (nullptr =? nullptr) with true in H. cbn iota in H.
  bind_inv H as [p1' h1] Hrefill. bind_inv Hrefill as [[B p1] h1'] Hblock.
  injection Hrefill as <- <-. bind_inv H as next Hnext.
  injection H as <- <- <-. cbn [with_alloc m_alloc] in Hnext |- *.
  assert (HB : B <> nullptr).
  { intros ->. apply allocate_block_null in Hblock. destruct Hblock as [_ ->].
    unfold load_ptr in Hnext.
    rewrite (null_not_accessible _ (inv_heap w Hinv)) in Hnext. discriminate. }
  assert (Htbl : m_blocks (pool w) = nullptr
                 \/ In (m_blocks (pool w), m_max_blocks (pool w) * sizeof_ptr)
                       (live (heap w))).
  { destruct (inv_table w Hinv) as [[E _] | HT]; auto. }
  destruct (allocate_block_Ok pick (pool w) (heap w) B p1 h1'
              (inv_heap w Hinv) (inv_size w Hinv) (inv_cpb w Hinv)
              (proj1 (inv_count w Hinv)) (inv_max w Hinv) Htbl Hblock HB)
    as (_ & _ & _ & _ & _ & _ & Hp1 & _).
  subst p1. apply load_ptr_Ok in Hnext. destruct Hnext as [_ ->].
  split; [exact HB |]. split; [exact Hblock |].
  destruct (pool w). reflexivity.
Qed.

Lemma growth_facts pick w B h' :
  pool_inv w ->
  _allocate_block pick (pool w) (heap w)
  = Ok (B, with_current_block_index
             (m_current_block_index (pool w) + 1) (pool w), h') ->
  B <> nullptr ->
  m_current_block_index (pool w) < m_max_blocks (pool w)
  /\ fresh (heap w) B (m_chunks_per_block (pool w) * m_chunk_size (pool w))
     = true
  /\ sizeof_ptr <= m_chunk_size (pool w)
  /\ 1 <= m_chunks_per_block (pool w)
  /\ In (m_blocks (pool w), m_max_blocks (pool w) * sizeof_ptr)
        (live (heap w))
  /\ live h'
     = (B, m_chunks_per_block (pool w) * m_chunk_size (pool w))
       :: live (heap w)
  /\ freed h' = freed (heap w)
  /\ (forall x,
        x < B
        \/ B + m_chunks_per_block (pool w) * m_chunk_size (pool w) <= x ->
        x < m_blocks (pool w)
            + sizeof_ptr * m_current_block_index (pool w)
        \/ m_blocks (pool w) + sizeof_ptr * m_current_block_index (pool w)
           + sizeof_ptr <= x ->
        bytes h' x = bytes (heap w) x)
  /\ free_chain (bytes h') (load64 (bytes h') B)
       (carved B (m_chunk_size (pool w)) 1
               (Z.to_nat (m_chunks_per_block (pool w) - 1))).
Proof.
  intros Hinv Hblock HB.
  assert (Htbl : m_blocks (pool w) = nullptr
                 \/ In (m_blocks (pool w), m_max_blocks (pool w) * sizeof_ptr)
                       (live (heap w))).
  { destruct (inv_table w Hinv) as [[E _] | HT]; auto. }
  destruct (allocate_block_Ok pick (pool w) (heap w) B _ h'
              (inv_heap w Hinv) (inv_size w Hinv) (inv_cpb w Hinv)
              (proj1 (inv_count w Hinv)) (inv_max w Hinv) Htbl Hblock HB)
    as (Hroom & Hfresh & Hwide & HC1 & Hnowrap & HT & _ & Hlive & Hfreed
        & Hframe & Hentry & Hlinks & Hlast).
  repeat (split; [assumption |]).
  pose proof (proj1 (fresh_in_spec _ _ _) Hfresh) as (HB0 & _).
  replace B with (B + (1 - 1) * m_chunk_size (pool w)) at 1 by ring.
  apply (free_chain_carved _ B _ (m_chunks_per_block (pool w)));
    try assumption; unfold sizeof_ptr in *; lia.
Qed.

(** A store by the client into a chunk it holds. *)
Lemma write_effect w chunk offset value w' :
  pool_inv w -> act (Write chunk offset value) w = Ok w' ->
  In chunk (outstanding w)
  /\ 0 <= offset < m_chunk_size (pool w)
  /\ pool w' = pool w
  /\ outstanding w' = outstanding w
  /\ live (heap w') = live (heap w)
  /\ freed (heap w') = freed (heap w)
  /\ (forall x, x <> chunk + offset -> bytes (heap w') x = bytes (heap w) x)
  /\ block_table (pool w') (heap w') = block_table (pool w) (heap w)
  /\ forall fl, free_chain (bytes (heap w)) (m_alloc (pool w)) fl ->
                free_chain (bytes (heap w')) (m_alloc (pool w')) fl.
Proof.
  intros Hinv H. cbn [act] in H.
  destruct (existsb (Z.eqb chunk) (outstanding w) && (0 <=? offset)
            && (offset <? chunk_size (pool w))) eqn:Hguard; [| discriminate].
  apply andb_true_iff in Hguard. destruct Hguard as [Hguard Hhi].
  apply andb_true_iff in Hguard. destruct Hguard as [Hin Hlo].
  apply existsb_eqb_In in Hin. apply Z.leb_le in Hlo. apply Z.ltb_lt in Hhi.
  unfold chunk_size in Hhi.
  bind_inv H as h1 Hstore. injection H as <-.
  unfold store_byte in Hstore.
  destruct (accessible (heap w) (chunk + offset) 1); [| discriminate].
  injection Hstore as <-. cbn [pool heap outstanding live freed bytes].
  assert (Hc : is_chunk (pool w) (heap w) chunk).
  { destruct (inv_free w Hinv) as (fl & _ & _ & Hchunks).
    apply Hchunks, in_or_app. right. exact Hin. }
  destruct (chunk_geometry w chunk Hinv Hc) as (_ & _ & _ & _ & _ & Hwide).
  set (m' := fun x => if x =? chunk + offset then value mod 256
                      else bytes (heap w) x).
  assert (Hframe : forall x, x <> chunk + offset -> m' x = bytes (heap w) x).
  { intros x Hx. unfold m'. destruct (Z.eqb_spec x (chunk + offset));
      [contradiction | reflexivity]. }
  repeat (split; [first [assumption | reflexivity | lia] |]).
  split.
  - unfold block_table. cbn [bytes]. apply table_entries_ext. intros x Hx.
    pose proof (inv_count w Hinv) as Hn. apply Hframe.
    assert (Hx' : m_blocks (pool w) <= x
                  < m_blocks (pool w)
                    + sizeof_ptr * m_current_block_index (pool w))
      by (unfold sizeof_ptr in *; lia).
    pose proof (table_outside_chunk w chunk x Hinv Hc Hx'). lia.
  - intros fl Hchain.
    destruct (inv_free_list w fl Hinv Hchain) as [Hnodup Hchunks].
    apply (free_chain_ext (bytes (heap w))); [| exact Hchain].
    intros c' Hc'. apply load64_ext. intros x Hx. apply Hframe.
    assert (Hne : c' <> chunk).
    { intros ->. exact (NoDup_app_disjoint _ _ _ Hnodup Hc' Hin). }
    assert (Hc'' : is_chunk (pool w) (heap w) c').
    { apply Hchunks, in_or_app. left. exact Hc'. }
    pose proof (chunks_apart w c' chunk Hinv Hc'' Hc Hne) as Hapart.
    unfold disjoint_chunks in Hapart. lia.
Qed.

(** What one action of the client does to the bookkeeping: either the
    blocks stay as they are and chunks only move between the free list and
    the client, or the free list was empty and exactly one block is added,
    whose first chunk goes to the client and whose other chunks become the
    free list. *)
Lemma act_effect a w w' fl :
  pool_inv w -> free_chain (bytes (heap w)) (m_alloc (pool w)) fl ->
  act a w = Ok w' ->
  (m_blocks (pool w') = m_blocks (pool w)
   /\ m_chunk_size (pool w') = m_chunk_size (pool w)
   /\ m_chunks_per_block (pool w') = m_chunks_per_block (pool w)
   /\ m_max_blocks (pool w') = m_max_blocks (pool w)
   /\ freed (heap w') = freed (heap w))
  /\ ((block_table (pool w') (heap w') = block_table (pool w) (heap w)
       /\ m_current_block_index (pool w') = m_current_block_index (pool w)
       /\ live (heap w') = live (heap w)
       /\ exists fl',
            free_chain (bytes (heap w')) (m_alloc (pool w')) fl'
            /\ Permutation (fl' ++ outstanding w') (fl ++ outstanding w))
      \/ (fl = []
          /\ exists B,
               block_table (pool w') (heap w')
               = block_table (pool w) (heap w) ++ [B]
               /\ m_current_block_index (pool w')
                  = m_current_block_index (pool w) + 1
               /\ m_current_block_index (pool w) < m_max_blocks (pool w)
               /\ live (heap w')
                  = (B, m_chunks_per_block (pool w) * m_chunk_size (pool w))
                    :: live (heap w)
               /\ fresh (heap w) B
                    (m_chunks_per_block (pool w) * m_chunk_size (pool w))
                  = true
               /\ 1 <= m_chunks_per_block (pool w)
               /\ outstanding w' = B :: outstanding w
               /\ free_chain (bytes (heap w')) (m_alloc (pool w'))
                    (carved B (m_chunk_size (pool w)) 1
                       (Z.to_nat (m_chunks_per_block (pool w) - 1))))).
Proof.
  intros Hinv Hchain H.
  destruct a as [[pick | chunk] | chunk offset value].
  - (* allocate *)
    cbn [act step] in H. bind_inv H as [[c p'] h'] Halloc. injection H as <-.
    cbn [pool heap outstanding].
    destruct (Z.eq_dec (m_alloc (pool w)) nullptr) as [Hhead | Hhead].
    + destruct (allocate_grow_Ok pick w c p' h' Hinv Hhead Halloc)
        as (Hc & Hblock & ->).
      pose proof (grown_block_table pick w c _ h' Hinv Hblock Hc) as Htable.
      destruct (growth_facts pick w c h' Hinv Hblock Hc)
        as (Hroom & Hfresh & Hwide & HC1 & HT & Hlive & Hfreed & _ & Hnew).
      split; [cbn; auto |]. right.
      rewrite Hhead in Hchain. split; [exact (free_chain_null _ _ Hchain) |].
      exists c. cbn [with_alloc with_current_block_index m_alloc
                     m_current_block_index].
      repeat (split; [first [assumption | reflexivity] |]). exact Hnew.
    + destruct (allocate_pop pick w Hinv Hhead) as [E _].
      rewrite E in Halloc. injection Halloc as <- <- <-.
      split; [cbn; auto |]. left.
      split; [reflexivity |]. split; [reflexivity |]. split; [reflexivity |].
      destruct fl as [| c fl]; [simpl in Hchain; contradiction |].
      cbn [free_chain] in Hchain. destruct Hchain as (-> & _ & Hchain).
      exists fl. split; [exact Hchain |].
      symmetry. apply hand_out_perm.
  - (* deallocate *)
    cbn [act step] in H.
    destruct (existsb (Z.eqb chunk) (outstanding w)) eqn:Hin; [| discriminate].
    apply existsb_eqb_In in Hin.
    rewrite (deallocate_succeeds w chunk Hinv Hin) in H.
    cbn [bind] in H. injection H as <-. cbn [pool heap outstanding].
    split; [cbn; auto |]. left.
    assert (Hc : is_chunk (pool w) (heap w) chunk).
    { destruct (inv_free w Hinv) as (fl0 & _ & _ & Hchunks).
      apply Hchunks, in_or_app. right. exact Hin. }
    split; [exact (deallocate_keeps_table w chunk Hinv Hc _) |].
    split; [reflexivity |]. split; [reflexivity |].
    exists (chunk :: fl). split.
    + exact (deallocate_free_list w chunk fl Hinv Hin Hchain).
    + symmetry. apply give_back_perm. exact Hin.
  - (* a store by the client *)
    destruct (write_effect w chunk offset value w' Hinv H)
      as (_ & _ & Hpool & Hout & Hlive & Hfreed & _ & Htable & Hfl).
    rewrite Hpool in *. split; [auto |]. left.
    split; [exact Htable |]. split; [reflexivity |]. split; [exact Hlive |].
    exists fl. split; [exact (Hfl fl Hchain) |]. rewrite Hout. reflexivity.
Qed.

(** ** Conservation of chunks *)

Lemma carved_length B s count : forall j, length (carved B s j count) = count.
Proof. induction count; intros; simpl; auto. Qed.

Lemma all_chunks_length p h :
  0 <= m_current_block_index p -> 0 <= m_chunks_per_block p ->
  Z.of_nat (length (all_chunks p h))
  = m_current_block_index p * m_chunks_per_block p.
Proof.
  intros Hn HC. unfold all_chunks, block_table.
  set (f := fun b => carved b (m_chunk_size p) 0
                            (Z.to_nat (m_chunks_per_block p))).
  assert (Hlen : forall l, length (flat_map f l)
                           = (length l * Z.to_nat (m_chunks_per_block p))%nat).
  { induction l as [| b l IH]; [reflexivity |].
    cbn [flat_map length]. rewrite length_app, IH. unfold f at 1.
    rewrite carved_length. lia. }
  rewrite Hlen, table_entries_length. nia.
Qed.

Lemma act_conserved a w w' :
  pool_inv w -> conserved w -> act a w = Ok w' -> conserved w'.
Proof.
  intros Hinv (fl & Hchain & Hperm) H.
  destruct (act_effect a w w' fl Hinv Hchain H)
    as ((HT & Hs & HC & HM & _) & [Hquiet | Hgrow]).
  - destruct Hquiet as (Htable & _ & _ & fl' & Hchain' & Hperm').
    exists fl'. split; [exact Hchain' |].
    unfold all_chunks. rewrite Htable, Hs, HC.
    exact (Permutation_trans Hperm' Hperm).
  - destruct Hgrow as (-> & B & Htable & _ & _ & _ & _ & HC1 & Hout & Hnew).
    eexists. split; [exact Hnew |].
    unfold all_chunks. rewrite Htable, Hs, HC, Hout, flat_map_app.
    cbn [flat_map]. rewrite app_nil_r.
    fold (all_chunks (pool w) (heap w)).
    set (all := all_chunks (pool w) (heap w)) in *.
    replace (Z.to_nat (m_chunks_per_block (pool w)))
      with (S (Z.to_nat (m_chunks_per_block (pool w) - 1))) by lia.
    cbn [carved]. replace (B + 0 * m_chunk_size (pool w)) with B by ring.
    change (0 + 1) with 1.
    set (rest := carved B (m_chunk_size (pool w)) 1 _).
    simpl in Hperm.
    apply Permutation_trans with ((B :: rest) ++ outstanding w).
    + symmetry. apply Permutation_middle.
    + apply Permutation_trans with (outstanding w ++ B :: rest).
      * apply Permutation_app_comm.
      * apply Permutation_app_tail. exact Hperm.
Qed.

Lemma run_conserved acts : forall w w',
  pool_inv w -> conserved w -> run acts w = Ok w' -> conserved w'.
Proof.
  induction acts as [| a acts IH]; intros w w' Hinv Hcons H; cbn [run] in H.
  - injection H as <-. exact Hcons.
  - bind_inv H as w1 Hact. apply (IH w1 w'); [| | exact H].
    + exact (act_preserves_inv a w w1 Hinv Hact).
    + exact (act_conserved a w w1 Hinv Hcons Hact).
Qed.

Lemma start_fields sizeof_T cpb maxb pick h w0 :
  start sizeof_T cpb maxb pick h = Ok w0 ->
  w0 = mkWorld (mkPool sizeof_T cpb maxb 0
                       (fst (calloc maxb sizeof_ptr pick h)) nullptr)
               (snd (calloc maxb sizeof_ptr pick h)) [].
Proof.
  unfold start. rewrite PoolAllocator_init_Ok. cbn [bind].
  intros H. now injection H as <-.
Qed.

Lemma reachable_conserved w : reachable w -> conserved w.
Proof.
  intros (sizeof_T & cpb & maxb & pick & h & acts & w0 & Hvalid & Hstart & Hrun).
  apply (run_conserved acts w0 w); [| | exact Hrun].
  - exact (start_inv _ _ _ _ _ _ Hvalid Hstart).
  - rewrite (start_fields _ _ _ _ _ _ Hstart). exists []. split; reflexivity.
Qed.

(** Reachable states are closed under further actions. *)
Lemma reachable_run acts w w' :
  reachable w -> run acts w = Ok w' -> reachable w'.
Proof.
  intros (sizeof_T & cpb & maxb & pick & h & acts0 & w0 & Hvalid & Hstart
          & Hrun0) Hrun.
  exists sizeof_T, cpb, maxb, pick, h, (acts0 ++ acts), w0.
  split; [exact Hvalid |]. split; [exact Hstart |].
  clear Hstart Hvalid. revert w0 Hrun0.
  induction acts0 as [| a acts0 IH]; intros w0 Hrun0; cbn [run app] in *.
  - injection Hrun0 as ->. exact Hrun.
  - bind_inv Hrun0 as w1 Hact. rewrite Hact. cbn [bind]. auto.
Qed.

(** The count behind the capacity of a pool. *)
Lemma chunk_count w fl :
  reachable w -> free_chain (bytes (heap w)) (m_alloc (pool w)) fl ->
  Z.of_nat (length fl) + Z.of_nat (length (outstanding w))
  = m_current_block_index (pool w) * m_chunks_per_block (pool w).
Proof.
  intros Hreach Hchain. pose proof (reachable_inv w Hreach) as Hinv.
  destruct (reachable_conserved w Hreach) as (fl0 & Hchain0 & Hperm).
  rewrite (free_chain_unique _ _ _ _ Hchain Hchain0).
  rewrite <- (all_chunks_length (pool w) (heap w)).
  - rewrite <- (Permutation_length Hperm), length_app. lia.
  - apply (inv_count w Hinv).
  - apply (inv_cpb w Hinv).
Qed.

(** With an empty free list the exhausted or starved [allocate] reads
    through the null head. *)
Lemma allocate_null_deref pick p h :
  heap_wf h -> m_alloc p = nullptr ->
  _allocate_block pick p h = Ok (nullptr, p, h) ->
  allocate pick p h = Fault (OutOfBounds nullptr).
Proof.
  intros Hwf Hhead Hblock. unfold allocate.
  rewrite (allocate_refill_fails pick p h Hhead Hblock).
  simpl. rewrite Hhead. unfold load_ptr.
  now rewrite (null_not_accessible h Hwf).
Qed.

(** X1: at any time every chunk of every block the pool has created is
    either in the free list or held by the client, and only once: following
    [next] from [m_alloc] and adding the chunks handed out gives exactly the
    chunks of the recorded blocks.  No chunk is lost and none is
    duplicated. *)
Theorem chunks_free_or_held (w : world) :
  reachable w ->
  exists fl,
    free_chain (bytes (heap w)) (m_alloc (pool w)) fl
    /\ Permutation (fl ++ outstanding w) (all_chunks (pool w) (heap w))
    /\ Z.of_nat (length fl) + Z.of_nat (length (outstanding w))
       = m_current_block_index (pool w) * chunks_per_block (pool w).
Proof.
  intros Hreach.
  destruct (reachable_conserved w Hreach) as (fl & Hchain & Hperm).
  exists fl. split; [exact Hchain |]. split; [exact Hperm |].
  exact (chunk_count w fl Hreach Hchain).
Qed.

Ltac reach_by sizeof_T cpb maxb pick acts :=
  exists sizeof_T, cpb, maxb, pick, empty_heap, acts; eexists;
  split; [solve_valid_start |];
  split; [reflexivity | vm_compute; reflexivity].

Ltac run_to_state :=
  do 2 eexists; split; [reflexivity |]; split; [vm_compute; reflexivity |].

Lemma chunks_free_or_held_witness :
  exists w0 w,
    start 16 3 2 4096 empty_heap = Ok w0
    /\ run [Call (Allocate 8192); Call (Allocate 0); Write 8208 3 9;
            Call (Deallocate 8192)] w0 = Ok w
    /\ outstanding w = [8208]
    /\ all_chunks (pool w) (heap w) = [8192; 8208; 8224]
    /\ exists fl,
         free_chain (bytes (heap w)) (m_alloc (pool w)) fl
         /\ Permutation (fl ++ outstanding w) (all_chunks (pool w) (heap w)).
Proof.
  run_to_state.
  split; [reflexivity |]. split; [reflexivity |].
  match goal with
  | |- exists fl, free_chain (bytes (heap ?W)) _ _ /\ _ =>
      destruct (chunks_free_or_held W) as (fl & Hchain & Hperm & _)
  end.
  - reach_by 16 3 2 4096
      [Call (Allocate 8192); Call (Allocate 0); Write 8208 3 9;
       Call (Deallocate 8192)].
  - exists fl. split; assumption.
Defined.

(** X2: a pool never has more chunks handed out than the blocks it has
    created hold, and so never more than
    [chunks_per_block() * max_blocks()]. *)
Theorem outstanding_within_capacity (w : world) :
  reachable w ->
  Z.of_nat (length (outstanding w))
  <= m_current_block_index (pool w) * chunks_per_block (pool w)
  <= max_blocks (pool w) * chunks_per_block (pool w).
Proof.
  intros Hreach. pose proof (reachable_inv w Hreach) as Hinv.
  destruct (inv_free w Hinv) as (fl & Hchain & _).
  pose proof (chunk_count w fl Hreach Hchain) as Hcount.
  pose proof (inv_count w Hinv) as Hn. pose proof (inv_cpb w Hinv) as HC.
  unfold chunks_per_block, max_blocks, Usize.in_range in *. nia.
Qed.

Lemma outstanding_within_capacity_witness :
  exists w0 w,
    start 16 3 2 4096 empty_heap = Ok w0
    /\ run (map Call [Allocate 8192; Allocate 0; Allocate 0; Allocate 12288])
           w0 = Ok w
    /\ length (outstanding w) = 4%nat
    /\ Z.of_nat (length (outstanding w))
       <= m_current_block_index (pool w) * chunks_per_block (pool w)
       <= max_blocks (pool w) * chunks_per_block (pool w).
Proof.
  run_to_state.
  split; [reflexivity |].
  apply outstanding_within_capacity.
  reach_by 16 3 2 4096
    (map Call [Allocate 8192; Allocate 0; Allocate 0; Allocate 12288]).
Defined.

(** X3: as long as fewer than [chunks_per_block() * max_blocks()] chunks are
    handed out, [allocate] returns a non-null chunk, for a pool whose table
    was allocated, with at least one chunk per block and chunks at least a
    pointer wide, provided [std::malloc] can supply a block. *)
Theorem allocate_succeeds_below_capacity (pick : Z) (w : world) :
  reachable w ->
  m_blocks (pool w) <> nullptr ->
  sizeof_ptr <= chunk_size (pool w) ->
  1 <= chunks_per_block (pool w) ->
  Z.of_nat (length (outstanding w))
  < chunks_per_block (pool w) * max_blocks (pool w) ->
  fresh (heap w) pick (chunks_per_block (pool w) * chunk_size (pool w))
  = true ->
  exists c p' h',
    allocate pick (pool w) (heap w) = Ok (c, p', h') /\ c <> nullptr.
Proof.
  unfold chunk_size, chunks_per_block, max_blocks.
  intros Hreach HT Hs HC Hroom Hfresh.
  pose proof (reachable_inv w Hreach) as Hinv.
  destruct (inv_free w Hinv) as (fl & Hchain & _).
  pose proof (chunk_count w fl Hreach Hchain) as Hcount.
  apply (allocate_succeeds pick w Hreach).
  destruct fl as [| c fl].
  - right. simpl in Hcount. repeat (split; [first [assumption | nia] |]).
    exact Hfresh.
  - left. simpl in Hchain. destruct Hchain as (-> & Hc & _). exact Hc.
Qed.

Lemma allocate_succeeds_below_capacity_witness :
  exists w0 w,
    start 16 3 2 4096 empty_heap = Ok w0
    /\ run (map Call [Allocate 8192; Allocate 0; Allocate 0]) w0 = Ok w
    /\ m_alloc (pool w) = nullptr
    /\ exists c p' h',
         allocate 12288 (pool w) (heap w) = Ok (c, p', h') /\ c <> nullptr.
Proof.
  run_to_state.
  split; [reflexivity |].
  apply allocate_succeeds_below_capacity.
  - reach_by 16 3 2 4096 (map Call [Allocate 8192; Allocate 0; Allocate 0]).
  - discriminate.
  - vm_compute. discriminate.
  - vm_compute. discriminate.
  - reflexivity.
  - reflexivity.
Defined.

(** X4: once [chunks_per_block() * max_blocks()] chunks are handed out, the
    next [allocate] finds the free list empty and the block ceiling reached,
    and dereferences the null head instead of returning: the capacity of a
    pool is exact. *)
Theorem allocate_at_capacity_faults (pick : Z) (w : world) :
  reachable w ->
  1 <= chunks_per_block (pool w) ->
  Z.of_nat (length (outstanding w))
  = chunks_per_block (pool w) * max_blocks (pool w) ->
  allocate pick (pool w) (heap w) = Fault (OutOfBounds nullptr).
Proof.
  unfold chunks_per_block, max_blocks. intros Hreach HC Hfull.
  pose proof (reachable_inv w Hreach) as Hinv.
  destruct (inv_free w Hinv) as (fl & Hchain & _).
  pose proof (chunk_count w fl Hreach Hchain) as Hcount.
  pose proof (inv_count w Hinv) as Hn.
  assert (Hfl : fl = []).
  { destruct fl as [| c fl]; [reflexivity |]. simpl length in Hcount. nia. }
  subst fl. simpl in Hchain.
  assert (Hceil : m_max_blocks (pool w) <= m_current_block_index (pool w))
    by (simpl in Hcount; nia).
  apply (allocate_null_deref pick _ _ (inv_heap w Hinv) Hchain).
  apply allocate_block_fails. left. exact Hceil.
Qed.

Lemma allocate_at_capacity_faults_witness :
  exists w0 w,
    start 16 2 2 4096 empty_heap = Ok w0
    /\ run (map Call [Allocate 8192; Allocate 0; Allocate 12288; Allocate 0])
           w0 = Ok w
    /\ length (outstanding w) = 4%nat
    /\ allocate 16384 (pool w) (heap w) = Fault (OutOfBounds nullptr).
Proof.
  run_to_state.
  split; [reflexivity |].
  apply allocate_at_capacity_faults.
  - reach_by 16 2 2 4096
      (map Call [Allocate 8192; Allocate 0; Allocate 12288; Allocate 0]).
  - vm_compute. discriminate.
  - reflexivity.
Defined.

(** X5: when the free list is empty and [std::malloc] refuses the new block,
    [_allocate_block] returns [nullptr] and [allocate] dereferences it: a
    failed backing allocation is not reported to the caller either. *)
Theorem allocate_malloc_failure_faults (pick : Z) (p : PoolAllocator)
    (h : Heap) :
  heap_wf h ->
  m_alloc p = nullptr ->
  fst (malloc (Usize.mul (m_chunks_per_block p) (m_chunk_size p)) pick h)
  = nullptr ->
  allocate pick p h = Fault (OutOfBounds nullptr).
Proof.
  intros Hwf Hhead Hfail.
  apply (allocate_null_deref pick p h Hwf Hhead).
  apply allocate_block_fails. right. exact Hfail.
Qed.

Lemma allocate_malloc_failure_faults_witness :
  exists w0,
    start 16 2 2 4096 empty_heap = Ok w0
    /\ m_current_block_index (pool w0) < m_max_blocks (pool w0)
    /\ fst (malloc 32 0 (heap w0)) = nullptr
    /\ fst (malloc 32 4100 (heap w0)) = nullptr
    /\ allocate 0 (pool w0) (heap w0) = Fault (OutOfBounds nullptr)
    /\ allocate 4100 (pool w0) (heap w0) = Fault (OutOfBounds nullptr).
Proof.
  eexists. split; [reflexivity |].
  split; [reflexivity |]. split; [reflexivity |]. split; [reflexivity |].
  split; apply allocate_malloc_failure_faults; reflexivity.
Defined.

(** ** When [allocate] cannot return *)

Lemma allocate_Ok_configured pick w c p' h' :
  reachable w -> allocate pick (pool w) (heap w) = Ok (c, p', h') ->
  c <> nullptr
  /\ m_blocks (pool w) <> nullptr
  /\ sizeof_ptr <= m_chunk_size (pool w)
  /\ 1 <= m_chunks_per_block (pool w)
  /\ 1 <= m_max_blocks (pool w)
  /\ m_chunks_per_block (pool w) * m_chunk_size (pool w) < Usize.modulus.
Proof.
  intros Hreach H. pose proof (reachable_inv w Hreach) as Hinv.
  pose proof (allocate_preserves_inv pick w c p' h' Hinv H) as Hinv'.
  destruct (allocate_fields _ _ _ _ _ _ H) as (Hs & HC & HM & HT).
  destruct (inv_free _ Hinv') as (fl & _ & _ & Hchunks).
  cbn [pool heap outstanding] in *.
  assert (Hc : is_chunk p' h' c).
  { apply Hchunks, in_or_app. right. left. reflexivity. }
  pose proof (chunk_in_range _ c Hinv' Hc) as Hrange.
  assert (Hn : 0 < m_current_block_index p').
  { destruct Hc as (b & _ & Hb & _). apply In_block_table in Hb.
    destruct Hb as (k & Hk & _). lia. }
  destruct (inv_geometry _ Hinv' Hn) as (Hwide & HC1 & Hfit).
  pose proof (inv_count _ Hinv') as Hcount. cbn [pool heap] in *.
  rewrite Hs, HC in *. rewrite HM in Hcount.
  split; [unfold nullptr; lia |]. split.
  - destruct (inv_table _ Hinv') as [[_ E] | Hlive]; cbn [pool heap] in *;
      [lia |].
    apply (wf_live_In _ _ _ (inv_heap _ Hinv')) in Hlive.
    rewrite <- HT. unfold nullptr. lia.
  - repeat split; lia.
Qed.

(** X6: [allocate] has undefined behaviour, whatever [std::malloc] answers,
    on a pool that is not usable: one whose block table could not be
    allocated, one with [max_blocks] or [chunks_per_block] zero, and one for
    an element type narrower than a pointer, whose chunks cannot hold the
    [next] link.  Nothing in the constructor or the template rejects these
    pools. *)
Theorem allocate_unusable_pool_faults (pick : Z) (w : world) :
  reachable w ->
  m_blocks (pool w) = nullptr
  \/ max_blocks (pool w) = 0
  \/ chunks_per_block (pool w) = 0
  \/ chunk_size (pool w) < sizeof_ptr ->
  exists f, allocate pick (pool w) (heap w) = Fault f.
Proof.
  unfold max_blocks, chunks_per_block, chunk_size. intros Hreach Hbad.
  destruct (allocate pick (pool w) (heap w)) as [[[c p'] h'] | f] eqn:H;
    [exfalso | eexists; reflexivity].
  destruct (allocate_Ok_configured pick w c p' h' Hreach H)
    as (_ & HT & Hs & HC & HM & _).
  destruct Hbad as [E | [E | [E | E]]]; try contradiction; lia.
Qed.

Lemma allocate_unusable_pool_faults_witness :
  exists w0,
    start 4 8 2 4096 empty_heap = Ok w0
    /\ chunk_size (pool w0) < sizeof_ptr
    /\ fst (malloc 32 8192 (heap w0)) = 8192
    /\ exists f, allocate 8192 (pool w0) (heap w0) = Fault f.
Proof.
  eexists. split; [reflexivity |].
  split; [reflexivity |]. split; [reflexivity |].
  apply allocate_unusable_pool_faults.
  - reach_by 4 8 2 4096 (@nil action).
  - right. right. right. reflexivity.
Defined.

(** ** What [allocate] returns and touches *)

Lemma chain_chunks_live n s : forall chunk h c' h',
  chain_chunks n s chunk h = Ok (c', h') -> live h' = live h.
Proof.
  induction n as [| n IH]; intros chunk h c' h' H; cbn [chain_chunks] in H.
  - now injection H as _ <-.
  - bind_inv H as next Hnext. bind_inv H as h1 Hstore.
    bind_inv H as chunk' Hload.
    apply store_ptr_Ok in Hstore. destruct Hstore as [_ ->].
    apply IH in H. exact H.
Qed.

(** [_allocate_block] returns [nullptr] or the address [std::malloc]
    picked, and keeps the heap well formed. *)
Lemma allocate_block_result pick p h b p1 h1 :
  heap_wf h -> _allocate_block pick p h = Ok (b, p1, h1) ->
  heap_wf h1 /\ (b = nullptr \/ b = pick).
Proof.
  intros Hw. unfold _allocate_block.
  destruct (m_max_blocks p <=? m_current_block_index p).
  { intros H. injection H as <- _ <-. auto. }
  unfold malloc.
  destruct (fresh h pick _) eqn:Hfresh.
  2:{ simpl. intros H. injection H as <- _ <-. auto. }
  destruct (pick =? nullptr).
  { intros H. injection H as <- _ <-. split; [| auto].
    unfold heap_wf. cbn [live wf_live fst snd]. unfold fresh in Hfresh.
    rewrite Hfresh. exact Hw. }
  intros H. bind_inv H as slot Hslot. bind_inv H as h2 Hh2.
  bind_inv H as [chunk h3] Hchain. bind_inv H as h4 Hh4.
  injection H as <- _ <-.
  apply store_ptr_Ok in Hh2. destruct Hh2 as [_ ->].
  apply chain_chunks_live in Hchain.
  apply store_ptr_Ok in Hh4. destruct Hh4 as [_ ->].
  split; [| auto].
  unfold heap_wf. cbn [live] in *. rewrite Hchain.
  cbn [wf_live fst snd]. unfold fresh in Hfresh. rewrite Hfresh. exact Hw.
Qed.

(** X7: in a well-formed heap [allocate] never returns [nullptr], whatever
    state the allocator is in: when it has no chunk to give it dereferences
    the null head instead.  A caller's test of the result against [nullptr]
    can never succeed. *)
Theorem allocate_never_returns_null (pick : Z) (p p' : PoolAllocator)
    (h h' : Heap) (c : Z) :
  heap_wf h ->
  allocate pick p h = Ok (c, p', h') ->
  c <> nullptr.
Proof.
  intros Hw H. unfold allocate in H.
  bind_inv H as [p1 h1] Hrefill. bind_inv H as next Hnext.
  injection H as <- _ <-.
  assert (Hw1 : heap_wf h1).
  { unfold allocate_refill in Hrefill.
    destruct (m_alloc p =? nullptr).
    - bind_inv Hrefill as [[b p2] h2] Hblock. injection Hrefill as _ <-.
      exact (proj1 (allocate_block_result _ _ _ _ _ _ Hw Hblock)).
    - injection Hrefill as _ <-. exact Hw. }
  intros E. rewrite E in Hnext. unfold load_ptr in Hnext.
  rewrite (null_not_accessible h1 Hw1) in Hnext. discriminate.
Qed.

Lemma allocate_never_returns_null_witness :
  exists c p' h',
    allocate 8192 (mkPool 16 2 2 0 4096 nullptr)
             (mkHeap [(4096, 16)] (fun _ => 0) [])
    = Ok (c, p', h')
    /\ c <> nullptr.
Proof.
  assert (E : { r | allocate 8192 (mkPool 16 2 2 0 4096 nullptr)
                             (mkHeap [(4096, 16)] (fun _ => 0) []) = Ok r })
    by (eexists; vm_compute; reflexivity).
  destruct E as [[[c p'] h'] E]. exists c, p', h'.
  split; [exact E |].
  refine (allocate_never_returns_null _ _ _ _ _ _ _ E). reflexivity.
Defined.

(** X8: [allocate] asks [std::malloc] for memory only when the free list is
    empty, and then for exactly one block of
    [chunks_per_block * sizeof(T)] bytes, which it appends to the block
    table and whose first chunk it returns.  With a non-empty free list it
    returns the head and leaves the heap and the block count untouched. *)
Theorem allocate_grows_on_demand (pick : Z) (w : world) (c : Z)
    (p' : PoolAllocator) (h' : Heap) :
  reachable w ->
  allocate pick (pool w) (heap w) = Ok (c, p', h') ->
  (m_alloc (pool w) <> nullptr ->
   c = m_alloc (pool w) /\ h' = heap w
   /\ m_current_block_index p' = m_current_block_index (pool w))
  /\ (m_alloc (pool w) = nullptr ->
      c = pick
      /\ live h'
         = (pick, chunks_per_block (pool w) * chunk_size (pool w))
           :: live (heap w)
      /\ m_current_block_index p' = m_current_block_index (pool w) + 1
      /\ block_table p' h' = block_table (pool w) (heap w) ++ [pick]).
Proof.
  intros Hreach H. pose proof (reachable_inv w Hreach) as Hinv. split.
  - intros Hhead. destruct (allocate_pop pick w Hinv Hhead) as [E _].
    rewrite E in H. injection H as <- <- <-. auto.
  - intros Hhead.
    destruct (allocate_grow_Ok pick w c p' h' Hinv Hhead H)
      as (Hc & Hblock & ->).
    destruct (allocate_block_result _ _ _ _ _ _ (inv_heap w Hinv) Hblock)
      as [_ [E | E]]; [contradiction |]. subst c.
    destruct (growth_facts pick w pick h' Hinv Hblock Hc)
      as (_ & _ & _ & _ & _ & Hlive & _).
    split; [reflexivity |]. split; [exact Hlive |]. split; [reflexivity |].
    exact (grown_block_table pick w pick _ h' Hinv Hblock Hc).
Qed.

Lemma allocate_grows_on_demand_witness :
  exists w0 w,
    start 16 2 2 4096 empty_heap = Ok w0
    /\ run (map Call [Allocate 8192; Allocate 0]) w0 = Ok w
    /\ m_alloc (pool w) = nullptr
    /\ exists c p' h',
         allocate 12288 (pool w) (heap w) = Ok (c, p', h')
         /\ c = 12288
         /\ live h' = (12288, 32) :: live (heap w)
         /\ block_table p' h' = [8192; 12288].
Proof.
  run_to_state.
  split; [reflexivity |].
  do 3 eexists. split; [vm_compute; reflexivity |].
  match goal with
  | |- _ = _ /\ live ?h' = _ :: live (heap ?W) /\ block_table ?p' _ = _ =>
      destruct (allocate_grows_on_demand 12288 W 12288 p' h')
        as [_ Hgrow]
  end.
  - reach_by 16 2 2 4096 (map Call [Allocate 8192; Allocate 0]).
  - vm_compute. reflexivity.
  - destruct Hgrow as (Hc & Hlive & _ & Htable); [reflexivity |].
    split; [reflexivity |]. split; [exact Hlive | exact Htable].
Defined.

(** ** What the client keeps *)

Lemma remove_one_In_other x c l :
  In c l -> x <> c -> In c (remove_one x l).
Proof.
  induction l as [| y l IH]; simpl; [tauto |].
  intros [-> | Hin] Hne.
  - destruct (Z.eqb_spec x c); [contradiction | left; reflexivity].
  - destruct (x =? y); [exact Hin | right; auto].
Qed.

Lemma act_keeps_held a w w' c :
  pool_inv w -> In c (outstanding w) -> touches c a = false ->
  act a w = Ok w' ->
  In c (outstanding w')
  /\ m_chunk_size (pool w') = m_chunk_size (pool w)
  /\ forall x, c <= x < c + m_chunk_size (pool w) ->
               bytes (heap w') x = bytes (heap w) x.
Proof.
  intros Hinv Hin Htouch H.
  destruct (inv_free w Hinv) as (fl & Hchain & Hnodup & Hchunks).
  assert (Hc : is_chunk (pool w) (heap w) c).
  { apply Hchunks, in_or_app. right. exact Hin. }
  destruct (chunk_geometry w c Hinv Hc) as (b & Hb & Hblive & Hlo & Hhi & Hwide).
  destruct a as [[pick | chunk] | chunk offset value]; cbn [touches] in Htouch.
  - (* allocate *)
    cbn [act step] in H. bind_inv H as [[c' p'] h'] Halloc. injection H as <-.
    cbn [pool heap outstanding].
    split; [right; exact Hin |].
    split; [apply (allocate_fields _ _ _ _ _ _ Halloc) |].
    destruct (Z.eq_dec (m_alloc (pool w)) nullptr) as [Hhead | Hhead].
    + destruct (allocate_grow_Ok pick w c' p' h' Hinv Hhead Halloc)
        as (Hc' & Hblock & ->).
      destruct (growth_facts pick w c' h' Hinv Hblock Hc')
        as (Hroom & Hfresh & _ & _ & HT & _ & _ & Hframe & _).
      apply fresh_in_spec in Hfresh. destruct Hfresh as (_ & _ & _ & Hsep).
      specialize (Hsep _ _ Hblive).
      assert (Hne : m_blocks (pool w) <> b).
      { pose proof (inv_distinct w Hinv) as Hd.
        apply NoDup_cons_iff in Hd. intros E. apply (proj1 Hd).
        rewrite E. exact Hb. }
      destruct (wf_live_apart _ _ _ _ _ (inv_heap w Hinv) HT Hblive)
        as [E | Hapart]; [congruence |].
      pose proof (inv_count w Hinv) as Hn.
      intros x Hx. apply Hframe; unfold sizeof_ptr in *; lia.
    + destruct (allocate_pop pick w Hinv Hhead) as [E _].
      rewrite E in Halloc. injection Halloc as _ _ <-. reflexivity.
  - (* deallocate another chunk *)
    apply Z.eqb_neq in Htouch. cbn [act step] in H.
    destruct (existsb (Z.eqb chunk) (outstanding w)) eqn:Hin'; [| discriminate].
    apply existsb_eqb_In in Hin'.
    rewrite (deallocate_succeeds w chunk Hinv Hin') in H.
    cbn [bind] in H. injection H as <-. cbn [pool heap outstanding bytes].
    split; [exact (remove_one_In_other chunk c _ Hin Htouch) |].
    split; [reflexivity |].
    assert (Hc' : is_chunk (pool w) (heap w) chunk).
    { apply Hchunks, in_or_app. right. exact Hin'. }
    pose proof (chunks_apart w c chunk Hinv Hc Hc' (not_eq_sym Htouch))
      as Hapart.
    unfold disjoint_chunks in Hapart.
    intros x Hx. apply store64_outside. lia.
  - (* a store into another chunk *)
    apply Z.eqb_neq in Htouch.
    destruct (write_effect w chunk offset value w' Hinv H)
      as (Hin' & Hoff & Hpool & Hout & _ & _ & Hframe & _).
    rewrite Hpool, Hout. split; [exact Hin |]. split; [reflexivity |].
    assert (Hc' : is_chunk (pool w) (heap w) chunk).
    { apply Hchunks, in_or_app. right. exact Hin'. }
    pose proof (chunks_apart w c chunk Hinv Hc Hc' (not_eq_sym Htouch))
      as Hapart.
    unfold disjoint_chunks in Hapart.
    intros x Hx. apply Hframe. lia.
Qed.

Lemma run_keeps_held acts c : forall w w',
  pool_inv w -> In c (outstanding w) ->
  forallb (fun a => negb (touches c a)) acts = true ->
  run acts w = Ok w' ->
  In c (outstanding w')
  /\ m_chunk_size (pool w') = m_chunk_size (pool w)
  /\ forall x, c <= x < c + m_chunk_size (pool w) ->
               bytes (heap w') x = bytes (heap w) x.
Proof.
  induction acts as [| a acts IH]; intros w w' Hinv Hin Hno H;
    cbn [run forallb] in *.
  - injection H as <-. auto.
  - apply andb_true_iff in Hno. destruct Hno as [Ha Hno].
    apply negb_true_iff in Ha. bind_inv H as w1 Hact.
    destruct (act_keeps_held a w w1 c Hinv Hin Ha Hact) as (Hin1 & Hs1 & Hb1).
    destruct (IH w1 w' (act_preserves_inv a w w1 Hinv Hact) Hin1 Hno H)
      as (Hin' & Hs' & Hb').
    split; [exact Hin' |]. split; [congruence |].
    intros x Hx. rewrite Hb' by (rewrite Hs1; exact Hx). apply Hb1. exact Hx.
Qed.

(** X9: the bytes of a chunk the client holds are not changed by anything
    the pool does: across any sequence of [allocate] calls (growth
    included), [deallocate] calls on other chunks and stores into other
    chunks, the chunk stays handed out and keeps its contents. *)
Theorem held_chunk_keeps_contents (acts : list action) (w w' : world)
    (c : Z) :
  reachable w ->
  In c (outstanding w) ->
  forallb (fun a => negb (touches c a)) acts = true ->
  run acts w = Ok w' ->
  In c (outstanding w')
  /\ forall x, c <= x < c + chunk_size (pool w) ->
               bytes (heap w') x = bytes (heap w) x.
Proof.
  intros Hreach Hin Hno H.
  destruct (run_keeps_held acts c w w' (reachable_inv w Hreach) Hin Hno H)
    as (Hin' & _ & Hbytes).
  split; assumption.
Qed.

Lemma held_chunk_keeps_contents_witness :
  exists w0 w w',
    start 16 2 2 4096 empty_heap = Ok w0
    /\ run [Call (Allocate 8192); Call (Allocate 0); Write 8192 0 171;
            Write 8192 15 205] w0 = Ok w
    /\ run [Call (Deallocate 8208); Call (Allocate 0); Call (Allocate 12288);
            Write 12288 0 1; Call (Deallocate 8208)] w = Ok w'
    /\ bytes (heap w) 8192 = 171
    /\ In 8192 (outstanding w')
    /\ forall x, 8192 <= x < 8192 + 16 ->
                 bytes (heap w') x = bytes (heap w) x.
Proof.
  do 3 eexists. split; [reflexivity |].
  split; [vm_compute; reflexivity |].
  split; [vm_compute; reflexivity |].
  split; [reflexivity |].
  match goal with
  | |- In _ (outstanding ?W') /\ (forall x, _ -> _ = bytes (heap ?W) x) =>
      apply (held_chunk_keeps_contents
               [Call (Deallocate 8208); Call (Allocate 0);
                Call (Allocate 12288); Write 12288 0 1;
                Call (Deallocate 8208)] W W' 8192)
  end.
  - reach_by 16 2 2 4096
      [Call (Allocate 8192); Call (Allocate 0); Write 8192 0 171;
       Write 8192 15 205].
  - right. left. reflexivity.
  - reflexivity.
  - vm_compute. reflexivity.
Defined.

(** ** The block table over time *)

Lemma run_block_table acts : forall w w',
  pool_inv w -> run acts w = Ok w' ->
  exists new,
    block_table (pool w') (heap w') = block_table (pool w) (heap w) ++ new
    /\ m_current_block_index (pool w')
       = m_current_block_index (pool w) + Z.of_nat (length new)
    /\ m_blocks (pool w') = m_blocks (pool w)
    /\ freed (heap w') = freed (heap w).
Proof.
  induction acts as [| a acts IH]; intros w w' Hinv H; cbn [run] in H.
  - injection H as <-. exists []. rewrite app_nil_r. simpl.
    repeat split; lia.
  - bind_inv H as w1 Hact.
    destruct (inv_free w Hinv) as (fl & Hchain & _).
    destruct (act_effect a w w1 fl Hinv Hchain Hact)
      as ((HT & _ & _ & _ & Hfreed) & Heffect).
    destruct (IH w1 w' (act_preserves_inv a w w1 Hinv Hact) H)
      as (new & Htable & Hindex & HT' & Hfreed').
    destruct Heffect as [(Htable1 & Hindex1 & _) | (_ & B & Htable1 & Hindex1 & _)].
    + exists new. rewrite Htable, Htable1, Hindex, Hindex1.
      repeat split; congruence.
    + exists (B :: new). rewrite Htable, Htable1, Hindex, Hindex1, <- app_assoc.
      cbn [app length]. repeat split; try congruence. lia.
Qed.

(** X10: the block table only grows.  Whatever the client does, the entries
    recorded so far stay where they are with the value they have, new blocks
    are appended after them, the block count is the number of entries and
    never decreases, and nothing is ever passed to [std::free] before the
    destructor runs. *)
Theorem block_table_append_only (acts : list action) (w w' : world) :
  reachable w ->
  run acts w = Ok w' ->
  exists new,
    block_table (pool w') (heap w') = block_table (pool w) (heap w) ++ new
    /\ m_current_block_index (pool w')
       = m_current_block_index (pool w) + Z.of_nat (length new)
    /\ m_current_block_index (pool w') <= max_blocks (pool w')
    /\ freed (heap w') = freed (heap w).
Proof.
  intros Hreach H. pose proof (reachable_inv w Hreach) as Hinv.
  destruct (run_block_table acts w w' Hinv H)
    as (new & Htable & Hindex & _ & Hfreed).
  exists new. repeat (split; [assumption |]). split; [| exact Hfreed].
  apply (inv_count w' (run_preserves_inv acts w w' Hinv H)).
Qed.

Lemma block_table_append_only_witness :
  exists w0 w w',
    start 16 2 3 4096 empty_heap = Ok w0
    /\ run (map Call [Allocate 8192; Allocate 0]) w0 = Ok w
    /\ run [Call (Allocate 12288); Write 8192 0 255; Call (Deallocate 8192);
            Call (Deallocate 12288); Call (Allocate 0); Call (Allocate 0);
            Call (Allocate 0); Call (Allocate 16384)] w = Ok w'
    /\ block_table (pool w) (heap w) = [8192]
    /\ exists new,
         block_table (pool w') (heap w') = block_table (pool w) (heap w) ++ new
         /\ m_current_block_index (pool w')
            = m_current_block_index (pool w) + Z.of_nat (length new).
Proof.
  do 3 eexists. split; [reflexivity |].
  split; [vm_compute; reflexivity |].
  split; [vm_compute; reflexivity |].
  split; [reflexivity |].
  match goal with
  | |- exists new, block_table (pool ?W') _ = block_table (pool ?W) _ ++ _ /\ _ =>
      destruct (block_table_append_only
                  [Call (Allocate 12288); Write 8192 0 255;
                   Call (Deallocate 8192); Call (Deallocate 12288);
                   Call (Allocate 0); Call (Allocate 0); Call (Allocate 0);
                   Call (Allocate 16384)] W W')
        as (new & Htable & Hindex & _)
  end.
  - reach_by 16 2 3 4096 (map Call [Allocate 8192; Allocate 0]).
  - vm_compute. reflexivity.
  - exists new. split; assumption.
Defined.

(** ** The life of a pool *)

(** The destructor on a state that satisfies the invariant. *)
Lemma destroy_Ok w :
  pool_inv w ->
  exists h',
    PoolAllocator_destroy (pool w) (heap w) = Ok h'
    /\ heap_wf h'
    /\ bytes h' = bytes (heap w)
    /\ freed h'
       = freed (heap w) ++ block_table (pool w) (heap w) ++ [m_blocks (pool w)]
    /\ forall blk,
         In blk (live h') <->
         In blk (live (heap w))
         /\ ~ In (fst blk) (m_blocks (pool w) :: block_table (pool w) (heap w)).
Proof.
  intros Hinv.
  pose proof (inv_heap w Hinv) as Hw. pose proof (inv_count w Hinv) as Hn.
  unfold PoolAllocator_destroy.
  destruct (inv_table w Hinv) as [[Enull Ezero] | HT].
  - unfold block_table. rewrite Ezero, Enull. simpl.
    eexists. split; [reflexivity |]. simpl.
    split; [exact Hw |]. split; [reflexivity |]. split; [reflexivity |].
    intros [b sz]. split; [| tauto]. intros Hin. split; [exact Hin |].
    intros [E | []]. apply (wf_live_In _ _ _ Hw) in Hin.
    simpl in E. unfold nullptr in E. lia.
  - destruct (free_blocks_Ok (pool w) (m_max_blocks (pool w))
                (Z.to_nat (m_current_block_index (pool w))) 0 (heap w))
      as (h1 & Hrun & Hw1 & Hbytes & Hfreed & Hl); try assumption; try lia.
    + apply (inv_distinct w Hinv).
    + intros b Hb. eexists. apply (inv_blocks w Hinv b Hb).
    + fold (block_table (pool w) (heap w)) in *.
      rewrite Hrun. cbn [bind].
      assert (HT1 : In (m_blocks (pool w), m_max_blocks (pool w) * sizeof_ptr)
                       (live h1)).
      { apply Hl. split; [exact HT |]. simpl.
        pose proof (inv_distinct w Hinv) as Hd.
        apply NoDup_cons_iff in Hd. tauto. }
      rewrite (free_live h1 _ _ Hw1 HT1).
      eexists. split; [reflexivity |]. cbn [freed live bytes].
      split; [apply wf_live_filter; exact Hw1 |].
      split; [exact Hbytes |].
      split; [rewrite Hfreed, <- app_assoc; reflexivity |].
      intros blk. rewrite In_live_after_free, Hl. simpl. intuition congruence.
Qed.

Lemma act_owned h0 a w w' :
  pool_inv w -> owned h0 w -> act a w = Ok w' -> owned h0 w'.
Proof.
  intros Hinv [Hlive Hfar] H.
  destruct (inv_free w Hinv) as (fl & Hchain & _).
  destruct (act_effect a w w' fl Hinv Hchain H)
    as ((HT & Hs & HC & HM & _) & [Hquiet | Hgrow]).
  - destruct Hquiet as (Htable & _ & Hlive' & _).
    split.
    + intros blk. unfold pool_owns. rewrite Hlive', Htable, HT, Hs, HC, HM.
      apply Hlive.
    + intros blk Hblk. rewrite Htable, HT. exact (Hfar blk Hblk).
  - destruct Hgrow as (_ & B & Htable & _ & _ & Hlive' & Hfresh & _).
    apply fresh_in_spec in Hfresh. destruct Hfresh as (_ & Hsz & _ & Hsep).
    split.
    + intros blk. unfold pool_owns. rewrite Hlive', Htable, HT, Hs, HC, HM.
      cbn [In]. rewrite Hlive. unfold pool_owns. split.
      * intros [<- | [Hold | [Htab | (b & Hb & E)]]].
        -- right. right. exists B. split; [| reflexivity].
           apply in_or_app. right. left. reflexivity.
        -- left. exact Hold.
        -- right. left. exact Htab.
        -- right. right. exists b. split; [| exact E].
           apply in_or_app. left. exact Hb.
      * intros [Hold | [Htab | (b & Hb & E)]]; [tauto | tauto |].
        apply in_app_or in Hb. destruct Hb as [Hb | [<- | []]].
        -- right. right. right. exists b. auto.
        -- left. symmetry. exact E.
    + intros [b sz] Hblk. rewrite Htable, HT. cbn [fst].
      intros Hin. change (In b ((m_blocks (pool w)
                                 :: block_table (pool w) (heap w)) ++ [B]))
        in Hin.
      apply in_app_or in Hin. destruct Hin as [Hin | [<- | []]].
      * exact (Hfar _ Hblk Hin).
      * assert (Hl : In (B, sz) (live (heap w)))
          by (apply Hlive; left; exact Hblk).
        pose proof (wf_live_In _ _ _ (inv_heap w Hinv) Hl) as (_ & Hsz' & _).
        specialize (Hsep _ _ Hl). lia.
Qed.

Lemma run_owned h0 acts : forall w w',
  pool_inv w -> owned h0 w -> run acts w = Ok w' -> owned h0 w'.
Proof.
  induction acts as [| a acts IH]; intros w w' Hinv Hown H; cbn [run] in H.
  - injection H as <-. exact Hown.
  - bind_inv H as w1 Hact. apply (IH w1 w'); [| | exact H].
    + exact (act_preserves_inv a w w1 Hinv Hact).
    + exact (act_owned h0 a w w1 Hinv Hown Hact).
Qed.

Lemma start_owned sizeof_T cpb maxb pick h0 w0 :
  heap_wf h0 -> start sizeof_T cpb maxb pick h0 = Ok w0 ->
  owned h0 w0 /\ freed (heap w0) = freed h0.
Proof.
  intros Hw Hstart. rewrite (start_fields _ _ _ _ _ _ Hstart).
  unfold owned, pool_owns, block_table, calloc.
  cbn [pool heap m_blocks m_max_blocks m_current_block_index
       m_chunks_per_block m_chunk_size].
  destruct ((maxb * sizeof_ptr <? Usize.modulus)
            && fresh h0 pick (maxb * sizeof_ptr)) eqn:Hcalloc;
    cbn [fst snd live freed Z.to_nat table_entries].
  - apply andb_true_iff in Hcalloc. destruct Hcalloc as [_ Hfresh].
    apply fresh_in_spec in Hfresh.
    destruct Hfresh as (Hpick & Hsz & _ & Hsep).
    split; [| reflexivity]. split.
    + intros blk. cbn [In]. split.
      * intros [<- | Hold]; [| tauto]. right. left.
        split; [unfold nullptr; lia | reflexivity].
      * intros [Hold | [[_ ->] | (b & [] & _)]]; tauto.
    + intros [b sz] Hblk [E | []]. cbn [fst] in E. subst b.
      pose proof (wf_live_In _ _ _ Hw Hblk) as (_ & Hsz' & _).
      specialize (Hsep _ _ Hblk). lia.
  - split; [| reflexivity]. split.
    + intros blk. split; [tauto |].
      intros [Hold | [[E _] | (b & [] & _)]]; [exact Hold | congruence].
    + intros [b sz] Hblk [E | []]. cbn [fst] in E. subst b.
      pose proof (wf_live_In _ _ _ Hw Hblk) as (Hb & _). unfold nullptr in Hb.
      lia.
Qed.

(** X11: a pool gives back everything it took.  Construct a pool in any
    well-formed heap, use it in any way the contract allows, and destroy
    it: the destructor is defined, the allocations live afterwards are
    exactly those that were live before the constructor ran, and the only
    calls to [std::free] over the whole life of the pool are the
    destructor's, on the blocks in the order of their creation and then on
    the table.  Chunks still held by the client are reclaimed with their
    block. *)
Theorem lifetime_releases_everything (sizeof_T cpb maxb pick : Z)
    (h0 : Heap) (acts : list action) (w0 w : world) :
  valid_start sizeof_T cpb maxb h0 ->
  start sizeof_T cpb maxb pick h0 = Ok w0 ->
  run acts w0 = Ok w ->
  exists h',
    PoolAllocator_destroy (pool w) (heap w) = Ok h'
    /\ (forall blk, In blk (live h') <-> In blk (live h0))
    /\ freed h'
       = freed h0 ++ block_table (pool w) (heap w) ++ [m_blocks (pool w)].
Proof.
  intros Hvalid Hstart Hrun.
  pose proof (start_inv _ _ _ _ _ _ Hvalid Hstart) as Hinv0.
  pose proof (run_preserves_inv acts w0 w Hinv0 Hrun) as Hinv.
  destruct (start_owned _ _ _ _ _ _ (proj1 Hvalid) Hstart) as [Hown0 Hfreed0].
  destruct (run_owned h0 acts w0 w Hinv0 Hown0 Hrun) as [Hlive Hfar].
  destruct (run_block_table acts w0 w Hinv0 Hrun) as (_ & _ & _ & _ & Hfreed).
  destruct (destroy_Ok w Hinv) as (h' & Hd & _ & _ & Hlog & Hl).
  exists h'. split; [exact Hd |]. split.
  - intros blk. rewrite Hl, Hlive. split.
    + intros [[Hold | Hpool] Hnot]; [exact Hold | exfalso].
      apply Hnot. destruct Hpool as [[_ ->] | (b & Hb & ->)]; cbn [fst].
      * left. reflexivity.
      * right. exact Hb.
    + intros Hold. split; [left; exact Hold | exact (Hfar blk Hold)].
  - rewrite Hlog, Hfreed, Hfreed0. reflexivity.
Qed.

Lemma lifetime_releases_everything_witness :
  exists w0 w h',
    start 16 2 2 4096 (mkHeap [(64, 100)] (fun _ => 0) []) = Ok w0
    /\ run [Call (Allocate 8192); Call (Allocate 0); Call (Allocate 12288);
            Write 12288 5 77; Call (Deallocate 8208)] w0 = Ok w
    /\ outstanding w = [12288; 8192]
    /\ PoolAllocator_destroy (pool w) (heap w) = Ok h'
    /\ (forall blk, In blk (live h') <-> In blk [(64, 100)])
    /\ freed h' = [8192; 12288; 4096].
Proof.
  assert (Hrun : { w | run [Call (Allocate 8192); Call (Allocate 0);
                            Call (Allocate 12288); Write 12288 5 77;
                            Call (Deallocate 8208)]
                           (mkWorld (mkPool 16 2 2 0 4096 nullptr)
                              (snd (calloc 2 sizeof_ptr 4096
                                      (mkHeap [(64, 100)] (fun _ => 0) [])))
                              [])
                       = Ok w
                       /\ outstanding w = [12288; 8192]
                       /\ block_table (pool w) (heap w) ++ [m_blocks (pool w)]
                          = [8192; 12288; 4096] }).
  { eexists. split; [vm_compute; reflexivity |]. split; reflexivity. }
  destruct Hrun as (w & Hrun & Hout & Hlog).
  destruct (lifetime_releases_everything 16 2 2 4096
              (mkHeap [(64, 100)] (fun _ => 0) []) _ _ w
              ltac:(solve_valid_start) eq_refl Hrun)
    as (h' & Hd & Hlive & Hfreed).
  eexists. exists w, h'. split; [reflexivity |].
  split; [exact Hrun |]. split; [exact Hout |]. split; [exact Hd |].
  split; [exact Hlive |]. rewrite Hfreed. exact Hlog.
Defined.

(** ** After the destructor *)

(** No byte of a chunk is in live storage once the destructor has run. *)
Lemma chunk_dead_after_destroy w h' c x len :
  pool_inv w -> is_chunk (pool w) (heap w) c ->
  (forall blk,
     In blk (live h') <->
     In blk (live (heap w))
     /\ ~ In (fst blk) (m_blocks (pool w) :: block_table (pool w) (heap w))) ->
  c <= x < c + m_chunk_size (pool w) -> 0 <= len ->
  accessible h' x len = false.
Proof.
  intros Hinv Hc Hl Hx Hlen.
  destruct (chunk_geometry w c Hinv Hc) as (b & Hb & Hblive & Hlo & Hhi & _).
  destruct (accessible h' x len) eqn:Hacc; [exfalso | reflexivity].
  apply accessible_spec in Hacc. destruct Hacc as (b' & sz' & Hin' & H1 & H2).
  apply Hl in Hin'. destruct Hin' as [Hin Hnot]. cbn [fst] in Hnot.
  assert (E : (b', sz') = (b, m_chunks_per_block (pool w)
                              * m_chunk_size (pool w))).
  { apply (wf_live_owner _ _ _ _ _ x (inv_heap w Hinv) Hin Hblive); lia. }
  injection E as -> _. apply Hnot. right. exact Hb.
Qed.

(** X12: the destructor takes the chunks the client still holds with it.
    After it has run, no byte of such a chunk is in live storage any more:
    handing the chunk back and storing into it are both undefined
    behaviour. *)
Theorem held_chunks_dangle_after_destroy (w : world) :
  reachable w ->
  exists h',
    PoolAllocator_destroy (pool w) (heap w) = Ok h'
    /\ forall c, In c (outstanding w) ->
         deallocate c (pool w) h' = Fault (OutOfBounds c)
         /\ forall offset value,
              0 <= offset < chunk_size (pool w) ->
              store_byte (c + offset) value h'
              = Fault (OutOfBounds (c + offset)).
Proof.
  intros Hreach. pose proof (reachable_inv w Hreach) as Hinv.
  destruct (destroy_Ok w Hinv) as (h' & Hd & _ & _ & _ & Hl).
  exists h'. split; [exact Hd |]. intros c Hin.
  assert (Hc : is_chunk (pool w) (heap w) c).
  { destruct (inv_free w Hinv) as (fl & _ & _ & Hchunks).
    apply Hchunks, in_or_app. right. exact Hin. }
  pose proof (inv_size w Hinv) as Hs. split.
  - unfold deallocate, store_ptr.
    rewrite (chunk_dead_after_destroy w h' c c sizeof_ptr Hinv Hc Hl);
      [reflexivity | lia | unfold sizeof_ptr; lia].
  - intros offset value Hoff. unfold chunk_size in Hoff. unfold store_byte.
    rewrite (chunk_dead_after_destroy w h' c (c + offset) 1 Hinv Hc Hl);
      [reflexivity | lia | lia].
Qed.

Lemma held_chunks_dangle_after_destroy_witness :
  exists w0 w,
    start 16 2 2 4096 empty_heap = Ok w0
    /\ run (map Call [Allocate 8192; Allocate 0]) w0 = Ok w
    /\ In 8208 (outstanding w)
    /\ exists h',
         PoolAllocator_destroy (pool w) (heap w) = Ok h'
         /\ deallocate 8208 (pool w) h' = Fault (OutOfBounds 8208)
         /\ store_byte (8208 + 3) 1 h' = Fault (OutOfBounds (8208 + 3)).
Proof.
  run_to_state.
  split; [left; reflexivity |].
  match goal with
  | |- exists h', PoolAllocator_destroy (pool ?W) _ = _ /\ _ =>
      destruct (held_chunks_dangle_after_destroy W) as (h' & Hd & Hdead)
  end.
  - reach_by 16 2 2 4096 (map Call [Allocate 8192; Allocate 0]).
  - exists h'. split; [exact Hd |].
    destruct (Hdead 8208) as [Hfree Hstore]; [left; reflexivity |].
    split; [exact Hfree |]. apply Hstore. unfold chunk_size. simpl. lia.
Defined.

(** X13: the destructor must not run twice on the same fields, which is
    what happens when a [PoolAllocator] is copied (only the default
    constructor and the assignment operator are deleted) and both objects
    are destroyed.  For a pool with a block table the second run has
    undefined behaviour: it reads the released table, or releases it
    again. *)
Theorem destructor_twice_faults (w : world) :
  reachable w ->
  m_blocks (pool w) <> nullptr ->
  exists h',
    PoolAllocator_destroy (pool w) (heap w) = Ok h'
    /\ exists f, PoolAllocator_destroy (pool w) h' = Fault f.
Proof.
  intros Hreach HT. pose proof (reachable_inv w Hreach) as Hinv.
  destruct (destroy_Ok w Hinv) as (h' & Hd & Hw' & _ & _ & Hl).
  exists h'. split; [exact Hd |].
  assert (HTlive : In (m_blocks (pool w), m_max_blocks (pool w) * sizeof_ptr)
                      (live (heap w))).
  { destruct (inv_table w Hinv) as [[E _] | Hlive]; [contradiction | auto]. }
  assert (Hgone : forall sz, ~ In (m_blocks (pool w), sz) (live h')).
  { intros sz Hin. apply Hl in Hin. destruct Hin as [_ Hnot].
    apply Hnot. left. reflexivity. }
  unfold PoolAllocator_destroy.
  destruct (Z.to_nat (m_current_block_index (pool w))) as [| count].
  - cbn [free_blocks bind]. unfold free.
    destruct (Z.eqb_spec (m_blocks (pool w)) nullptr) as [E | _];
      [contradiction |].
    destruct (existsb _ (live h')) eqn:Ex; [exfalso | eexists; reflexivity].
    apply existsb_exists in Ex. destruct Ex as ([b sz] & Hin & E).
    apply Z.eqb_eq in E. cbn [fst] in E. subst b. exact (Hgone sz Hin).
  - cbn [free_blocks].
    change (sizeof_ptr * 0) with 0. unfold ptr_add.
    change (0 =? 0) with true. cbn [orb bind]. unfold load_ptr.
    destruct (accessible h' (m_blocks (pool w) + 0) sizeof_ptr) eqn:Hacc;
      [exfalso | eexists; reflexivity].
    apply accessible_spec in Hacc.
    destruct Hacc as (b & sz & Hin & H1 & H2).
    pose proof Hin as Hin'. apply Hl in Hin'. destruct Hin' as [Hin0 _].
    pose proof (wf_live_In _ _ _ (inv_heap w Hinv) HTlive) as (_ & Hsz & _).
    assert (E : (b, sz) = (m_blocks (pool w),
                           m_max_blocks (pool w) * sizeof_ptr)).
    { apply (wf_live_owner _ _ _ _ _ (m_blocks (pool w)) (inv_heap w Hinv)
               Hin0 HTlive); unfold sizeof_ptr in *; lia. }
    injection E as -> ->. exact (Hgone _ Hin).
Qed.

Lemma destructor_twice_faults_witness :
  exists w0 w,
    start 16 2 2 4096 empty_heap = Ok w0
    /\ run (map Call [Allocate 8192; Deallocate 8192]) w0 = Ok w
    /\ exists h',
         PoolAllocator_destroy (pool w) (heap w) = Ok h'
         /\ exists f, PoolAllocator_destroy (pool w) h' = Fault f.
Proof.
  run_to_state.
  apply destructor_twice_faults.
  - reach_by 16 2 2 4096 (map Call [Allocate 8192; Deallocate 8192]).
  - discriminate.
Defined.

(** ** The order in which chunks come back *)

Lemma with_alloc_twice a b p : with_alloc a (with_alloc b p) = with_alloc a p.
Proof. reflexivity. Qed.

Lemma free_chain_head m head fl :
  free_chain m head fl -> head = hd nullptr fl.
Proof. destruct fl; simpl; [auto | intros (-> & _); reflexivity]. Qed.

(** Handing back distinct chunks the client holds, one after the other. *)
Lemma run_deallocates xs : forall w fl,
  pool_inv w -> free_chain (bytes (heap w)) (m_alloc (pool w)) fl ->
  NoDup xs -> incl xs (outstanding w) ->
  exists w',
    run (map (fun x => Call (Deallocate x)) xs) w = Ok w'
    /\ pool_inv w'
    /\ free_chain (bytes (heap w')) (m_alloc (pool w')) (rev xs ++ fl)
    /\ (exists a, pool w' = with_alloc a (pool w))
    /\ live (heap w') = live (heap w)
    /\ (forall c, In c (outstanding w) -> ~ In c xs -> In c (outstanding w'))
    /\ Permutation (outstanding w) (xs ++ outstanding w').
Proof.
  induction xs as [| x xs IH]; intros w fl Hinv Hchain Hnd Hincl.
  - exists w. cbn [map run rev app].
    split; [reflexivity |]. split; [exact Hinv |]. split; [exact Hchain |].
    split; [exists (m_alloc (pool w)); symmetry; apply with_alloc_same |].
    split; [reflexivity |]. split; [auto | reflexivity].
  - apply NoDup_cons_iff in Hnd. destruct Hnd as [Hx Hnd].
    assert (Hin : In x (outstanding w)) by (apply Hincl; left; reflexivity).
    cbn [map run act step].
    replace (existsb (Z.eqb x) (outstanding w)) with true
      by (symmetry; apply existsb_eqb_In; exact Hin).
    rewrite (deallocate_succeeds w x Hinv Hin). cbn [bind].
    set (w1 := mkWorld _ _ _).
    pose proof (deallocate_preserves_inv w x Hinv Hin) as Hinv1.
    pose proof (deallocate_free_list w x fl Hinv Hin Hchain) as Hchain1.
    destruct (IH w1 (x :: fl) Hinv1 Hchain1 Hnd)
      as (w' & Hrun & Hinv' & Hchain' & (a & Hpool) & Hlive & Hkeep & Hperm).
    { intros c Hc. cbn [w1 outstanding].
      apply remove_one_In_other; [apply Hincl; right; exact Hc |].
      intros ->. contradiction. }
    exists w'. split; [exact Hrun |]. split; [exact Hinv' |].
    split; [cbn [rev]; rewrite <- app_assoc; exact Hchain' |].
    split; [exists a; rewrite Hpool; reflexivity |].
    split; [exact Hlive |]. split.
    + intros c Hc Hnot. apply Hkeep.
      * cbn [w1 outstanding]. apply remove_one_In_other; [exact Hc |].
        intros ->. apply Hnot. left. reflexivity.
      * intros Hc'. apply Hnot. right. exact Hc'.
    + cbn [w1 outstanding] in Hperm. cbn [app].
      rewrite (remove_one_perm x _ Hin) at 1.
      apply perm_skip. exact Hperm.
Qed.

(** Allocating from a free list that holds [ys] in front. *)
Lemma run_pops pick ys : forall w fl,
  pool_inv w ->
  free_chain (bytes (heap w)) (m_alloc (pool w)) (ys ++ fl) ->
  exists w',
    run (repeat (Call (Allocate pick)) (length ys)) w = Ok w'
    /\ pool_inv w'
    /\ outstanding w' = rev ys ++ outstanding w
    /\ free_chain (bytes (heap w')) (m_alloc (pool w')) fl
    /\ heap w' = heap w
    /\ pool w' = with_alloc (m_alloc (pool w')) (pool w).
Proof.
  induction ys as [| y ys IH]; intros w fl Hinv Hchain.
  - exists w. cbn [length repeat run rev app].
    split; [reflexivity |]. split; [exact Hinv |]. split; [reflexivity |].
    split; [exact Hchain |]. split; [reflexivity |].
    symmetry. apply with_alloc_same.
  - cbn [app free_chain] in Hchain. destruct Hchain as (Hhead & Hy & Hchain).
    assert (Hne : m_alloc (pool w) <> nullptr) by congruence.
    destruct (allocate_pop pick w Hinv Hne) as [E Hinv1].
    cbn [length repeat run act step]. rewrite E. cbn [bind].
    set (w1 := mkWorld _ _ _) in *.
    destruct (IH w1 fl Hinv1) as (w' & Hrun & Hinv' & Hout & Hchain' & Hheap
                                  & Hpool).
    { cbn [w1 pool heap with_alloc m_alloc]. rewrite Hhead. exact Hchain. }
    exists w'. split; [exact Hrun |]. split; [exact Hinv' |].
    split; [| split; [exact Hchain' | split; [exact Hheap |]]].
    + rewrite Hout. cbn [w1 outstanding rev]. rewrite Hhead, <- app_assoc.
      reflexivity.
    + rewrite Hpool. reflexivity.
Qed.

(** X14: the free list is a stack.  Handing back distinct held chunks
    [x1, ..., xk] in this order leaves the free list with [xk, ..., x1] in
    front of what it held before; the next [k] calls to [allocate] return
    [xk], ..., [x1], never ask for a new block, and leave the allocator
    object exactly as it was before the chunks were handed back. *)
Theorem free_list_is_lifo (pick : Z) (w : world) (fl xs : list Z) :
  reachable w ->
  free_chain (bytes (heap w)) (m_alloc (pool w)) fl ->
  NoDup xs -> incl xs (outstanding w) ->
  exists w1 w2,
    run (map (fun x => Call (Deallocate x)) xs) w = Ok w1
    /\ free_chain (bytes (heap w1)) (m_alloc (pool w1)) (rev xs ++ fl)
    /\ run (repeat (Call (Allocate pick)) (length xs)) w1 = Ok w2
    /\ outstanding w2 = xs ++ outstanding w1
    /\ free_chain (bytes (heap w2)) (m_alloc (pool w2)) fl
    /\ heap w2 = heap w1
    /\ pool w2 = pool w.
Proof.
  intros Hreach Hchain Hnd Hincl. pose proof (reachable_inv w Hreach) as Hinv.
  destruct (run_deallocates xs w fl Hinv Hchain Hnd Hincl)
    as (w1 & Hrun1 & Hinv1 & Hchain1 & (a & Hpool1) & _).
  destruct (run_pops pick (rev xs) w1 fl Hinv1 Hchain1)
    as (w2 & Hrun2 & _ & Hout2 & Hchain2 & Hheap2 & Hpool2).
  rewrite length_rev in Hrun2. rewrite rev_involutive in Hout2.
  exists w1, w2. repeat (split; [assumption |]).
  rewrite Hpool2, Hpool1, with_alloc_twice.
  rewrite (free_chain_head _ _ _ Hchain2), <- (free_chain_head _ _ _ Hchain).
  apply with_alloc_same.
Qed.

Lemma free_list_is_lifo_witness :
  exists w0 w,
    start 16 4 2 4096 empty_heap = Ok w0
    /\ run (map Call [Allocate 8192; Allocate 0; Allocate 0]) w0 = Ok w
    /\ free_chain (bytes (heap w)) (m_alloc (pool w)) [8240]
    /\ exists w1 w2,
         run (map (fun x => Call (Deallocate x)) [8208; 8192; 8224]) w = Ok w1
         /\ free_chain (bytes (heap w1)) (m_alloc (pool w1))
              [8224; 8192; 8208; 8240]
         /\ run (repeat (Call (Allocate 0)) 3) w1 = Ok w2
         /\ outstanding w2 = [8208; 8192; 8224]
         /\ pool w2 = pool w.
Proof.
  run_to_state.
  split; [vm_compute; repeat split; discriminate |].
  match goal with
  | |- exists w1 w2, run _ ?W = _ /\ _ =>
      destruct (free_list_is_lifo 0 W [8240] [8208; 8192; 8224])
        as (w1 & w2 & Hrun1 & Hchain1 & Hrun2 & Hout2 & _ & _ & Hpool)
  end.
  - reach_by 16 4 2 4096 (map Call [Allocate 8192; Allocate 0; Allocate 0]).
  - vm_compute. repeat split; discriminate.
  - repeat constructor; simpl; intuition discriminate.
  - intros x [<- | [<- | [<- | []]]]; simpl; auto.
  - exists w1, w2. split; [exact Hrun1 |]. split; [exact Hchain1 |].
    split; [exact Hrun2 |]. split; [| exact Hpool].
    rewrite Hout2.
    assert (E : outstanding w1 = []).
    { revert Hrun1. vm_compute. intros H. injection H as <-. reflexivity. }
    rewrite E. reflexivity.
Defined.

(** X15: handing the same chunk back twice in a row ties the free list into
    a knot: the chunk's [next] then points at the chunk itself, so every
    later [allocate] returns this one chunk and leaves the allocator and
    the heap as they are, however many times it is called. *)
Theorem double_deallocate_cycles (pick X : Z) (p p1 p2 : PoolAllocator)
    (h h1 h2 : Heap) :
  heap_wf h ->
  deallocate X p h = Ok (p1, h1) ->
  deallocate X p1 h1 = Ok (p2, h2) ->
  allocate pick p2 h2 = Ok (X, p2, h2).
Proof.
  intros Hw H1 H2.
  apply deallocate_Ok in H1. destruct H1 as (Hacc & -> & ->).
  apply deallocate_Ok in H2. destruct H2 as (_ & -> & ->).
  apply accessible_spec in Hacc. destruct Hacc as (b & sz & Hin & Hlo & Hhi).
  pose proof (wf_live_In _ _ _ Hw Hin) as (Hb & _ & Hmax).
  unfold allocate, allocate_refill. cbn [with_alloc m_alloc live bytes freed].
  destruct (Z.eqb_spec X nullptr) as [E | _];
    [unfold nullptr in E; lia |].
  cbn [bind with_alloc m_alloc]. unfold load_ptr.
  replace (accessible _ X sizeof_ptr) with true
    by (symmetry; apply (block_accessible _ X sizeof_ptr b sz);
        [exact Hin | exact Hlo | exact Hhi]).
  cbn [bind bytes].
  rewrite load64_store64_same
    by (unfold Usize.in_range, sizeof_ptr in *; lia).
  reflexivity.
Qed.

Lemma double_deallocate_cycles_witness :
  exists w0 w,
    start 16 4 2 4096 empty_heap = Ok w0
    /\ run (map Call [Allocate 8192; Allocate 0]) w0 = Ok w
    /\ exists p1 h1,
         deallocate 8208 (pool w) (heap w) = Ok (p1, h1)
         /\ exists p2 h2,
              deallocate 8208 p1 h1 = Ok (p2, h2)
              /\ allocate 0 p2 h2 = Ok (8208, p2, h2).
Proof.
  run_to_state.
  match goal with
  | |- exists p1 h1, deallocate _ ?P ?H = _ /\ _ =>
      pose (P0 := P); pose (H0 := H)
  end.
  do 2 eexists. split; [vm_compute; reflexivity |].
  match goal with
  | |- exists p2 h2, deallocate _ ?P ?H = _ /\ _ =>
      pose (P1 := P); pose (H1 := H)
  end.
  do 2 eexists. split; [vm_compute; reflexivity |].
  apply (double_deallocate_cycles 0 8208 P0 P1 _ H0 H1 _).
  - reflexivity.
  - vm_compute. reflexivity.
  - vm_compute. reflexivity.
Defined.

(** X16: a new block is handed out front to back.  When [allocate] has to
    grow the pool and returns the first chunk [c] of the new block, the next
    [chunks_per_block - 1] calls return the chunks [c + sizeof(T)],
    [c + 2 * sizeof(T)], ... of the same block in ascending address order
    without touching the heap or asking for memory, and only then is the
    free list empty again. *)
Theorem new_block_served_in_address_order (pick pick' : Z) (w : world)
    (c : Z) (p' : PoolAllocator) (h' : Heap) :
  reachable w ->
  m_alloc (pool w) = nullptr ->
  allocate pick (pool w) (heap w) = Ok (c, p', h') ->
  exists w',
    run (repeat (Call (Allocate pick'))
           (Z.to_nat (chunks_per_block (pool w) - 1)))
        (mkWorld p' h' (c :: outstanding w)) = Ok w'
    /\ outstanding w'
       = rev (carved c (chunk_size (pool w)) 0
                (Z.to_nat (chunks_per_block (pool w))))
         ++ outstanding w
    /\ heap w' = h'
    /\ m_alloc (pool w') = nullptr
    /\ m_current_block_index (pool w') = m_current_block_index (pool w) + 1.
Proof.
  intros Hreach Hhead H. pose proof (reachable_inv w Hreach) as Hinv.
  unfold chunks_per_block, chunk_size.
  assert (Hact : act (Call (Allocate pick)) w
                 = Ok (mkWorld p' h' (c :: outstanding w))).
  { cbn [act step]. rewrite H. reflexivity. }
  assert (Hnil : free_chain (bytes (heap w)) (m_alloc (pool w)) [])
    by exact Hhead.
  pose proof (act_preserves_inv _ _ _ Hinv Hact) as Hinv1.
  destruct (act_effect _ _ _ [] Hinv Hnil Hact)
    as [_ [(_ & _ & _ & fl' & _ & Hperm)
          | (_ & B & _ & Hidx & _ & _ & _ & HC & Hout & Hchain)]].
  { apply Permutation_length in Hperm. rewrite length_app in Hperm.
    cbn [outstanding length app] in Hperm. lia. }
  cbn [pool heap outstanding] in Hidx, Hout, Hchain.
  injection Hout as <-.
  set (ys := carved c (m_chunk_size (pool w)) 1
               (Z.to_nat (m_chunks_per_block (pool w) - 1))) in *.
  destruct (run_pops pick' ys (mkWorld p' h' (c :: outstanding w)) [] Hinv1)
    as (w' & Hrun & _ & Hout' & Hchain' & Hheap & Hpool).
  { rewrite app_nil_r. exact Hchain. }
  unfold ys in Hrun. rewrite carved_length in Hrun.
  exists w'. split; [exact Hrun |].
  cbn [free_chain] in Hchain'. cbn [pool heap outstanding] in *.
  split; [| split; [exact Hheap | split; [exact Hchain' |]]].
  - rewrite Hout'.
    replace (Z.to_nat (m_chunks_per_block (pool w)))
      with (S (Z.to_nat (m_chunks_per_block (pool w) - 1))) by lia.
    cbn [carved rev]. rewrite <- app_assoc. cbn [app].
    replace (c + 0 * m_chunk_size (pool w)) with c by lia.
    reflexivity.
  - rewrite Hpool. cbn [with_alloc m_current_block_index]. exact Hidx.
Qed.

Lemma new_block_served_in_address_order_witness :
  exists w0 w c p' h',
    start 16 4 2 4096 empty_heap = Ok w0
    /\ run (map Call [Allocate 8192; Allocate 0; Allocate 0; Allocate 0]) w0
       = Ok w
    /\ m_alloc (pool w) = nullptr
    /\ allocate 12288 (pool w) (heap w) = Ok (c, p', h')
    /\ exists w',
         run (repeat (Call (Allocate 0)) 3)
             (mkWorld p' h' (c :: outstanding w)) = Ok w'
         /\ outstanding w'
            = [12336; 12320; 12304; 12288; 8240; 8224; 8208; 8192]
         /\ m_alloc (pool w') = nullptr.
Proof.
  do 5 eexists. split; [reflexivity |].
  split; [vm_compute; reflexivity |].
  split; [reflexivity |].
  split; [vm_compute; reflexivity |].
  match goal with
  | |- exists w', run _ (mkWorld ?P ?H (?C :: outstanding ?W)) = _ /\ _ =>
      destruct (new_block_served_in_address_order 12288 0 W C P H)
        as (w' & Hrun & Hout & _ & Hhead & _)
  end.
  - reach_by 16 4 2 4096
      (map Call [Allocate 8192; Allocate 0; Allocate 0; Allocate 0]).
  - reflexivity.
  - vm_compute. reflexivity.
  - exists w'. split; [exact Hrun |]. split; [exact Hout | exact Hhead].
Defined.

(** ** Arguments nothing checks *)

(** X17: the block size [chunks_per_block * sizeof(T)] is computed in
    [usize] without an overflow check.  When the product does not fit,
    [std::malloc] is asked for the wrapped size, the block is too small for
    the chunks that are threaded through it, and the first [allocate] has
    undefined behaviour whatever [std::malloc] answers. *)
Theorem block_size_overflow_faults (pick : Z) (w : world) :
  reachable w ->
  Usize.modulus <= chunks_per_block (pool w) * chunk_size (pool w) ->
  exists f, allocate pick (pool w) (heap w) = Fault f.
Proof.
  unfold chunks_per_block, chunk_size. intros Hreach Hbig.
  destruct (allocate pick (pool w) (heap w)) as [[[c p'] h'] | f] eqn:H;
    [exfalso | eexists; reflexivity].
  destruct (allocate_Ok_configured pick w c p' h' Hreach H)
    as (_ & _ & _ & _ & _ & Hfit).
  lia.
Qed.

Lemma block_size_overflow_faults_witness :
  exists w0,
    start 16 (2 ^ 60 + 1) 2 4096 empty_heap = Ok w0
    /\ Usize.mul (chunks_per_block (pool w0)) (chunk_size (pool w0)) = 16
    /\ fst (malloc 16 8192 (heap w0)) = 8192
    /\ exists f, allocate 8192 (pool w0) (heap w0) = Fault f.
Proof.
  eexists. split; [reflexivity |].
  split; [reflexivity |]. split; [reflexivity |].
  apply block_size_overflow_faults.
  - reach_by 16 (2 ^ 60 + 1) 2 4096 (@nil action).
  - unfold chunks_per_block, chunk_size. simpl. rewrite modulus_eq. lia.
Defined.

(** X18: unlike [std::free], [deallocate] does not accept a null pointer:
    it writes the [next] link through its argument without a check, so
    [deallocate(nullptr)] is a null-pointer write. *)
Theorem deallocate_null_faults (p : PoolAllocator) (h : Heap) :
  heap_wf h -> deallocate nullptr p h = Fault (OutOfBounds nullptr).
Proof.
  intros Hw. unfold deallocate, store_ptr.
  rewrite (null_not_accessible _ Hw). reflexivity.
Qed.

Lemma deallocate_null_faults_witness :
  exists w0 w,
    start 16 4 2 4096 empty_heap = Ok w0
    /\ run [Call (Allocate 8192)] w0 = Ok w
    /\ deallocate nullptr (pool w) (heap w) = Fault (OutOfBounds nullptr).
Proof.
  run_to_state. apply deallocate_null_faults. reflexivity.
Defined.

(** X19: [deallocate] takes ownership of whatever it is given.  For any
    pointer [X] whose first eight bytes can be written, a chunk of the pool
    or not, [deallocate(X)] succeeds and the next [allocate] hands [X] out
    without asking for memory, putting the allocator object back as it was
    before the two calls. *)
Theorem deallocate_adopts_any_pointer (pick X : Z) (w : world)
    (p1 : PoolAllocator) (h1 : Heap) :
  reachable w ->
  deallocate X (pool w) (heap w) = Ok (p1, h1) ->
  allocate pick p1 h1 = Ok (X, pool w, h1).
Proof.
  intros Hreach H. pose proof (reachable_inv w Hreach) as Hinv.
  pose proof (inv_heap w Hinv) as Hw.
  apply deallocate_Ok in H. destruct H as (Hacc & -> & ->).
  pose proof Hacc as Hacc'. apply accessible_spec in Hacc'.
  destruct Hacc' as (b & sz & Hin & Hlo & Hhi).
  pose proof (wf_live_In _ _ _ Hw Hin) as (Hb & _ & Hmax).
  unfold allocate, allocate_refill. cbn [with_alloc m_alloc].
  destruct (Z.eqb_spec X nullptr) as [E | _];
    [unfold nullptr in E; lia |].
  cbn [bind with_alloc m_alloc]. unfold load_ptr.
  replace (accessible _ X sizeof_ptr) with true
    by (symmetry; apply (block_accessible _ X sizeof_ptr b sz);
        [exact Hin | exact Hlo | exact Hhi]).
  cbn [bind bytes].
  rewrite load64_store64_same by exact (head_in_range w Hinv).
  destruct (pool w). reflexivity.
Qed.

Lemma deallocate_adopts_any_pointer_witness :
  exists w0 w,
    start 16 4 2 4096 empty_heap = Ok w0
    /\ run [Call (Allocate 8192)] w0 = Ok w
    /\ exists p1 h1,
         deallocate 8200 (pool w) (heap w) = Ok (p1, h1)
         /\ allocate 0 p1 h1 = Ok (8200, pool w, h1).
Proof.
  run_to_state.
  do 2 eexists. split; [vm_compute; reflexivity |].
  match goal with
  | |- allocate _ _ _ = Ok (_, pool ?W, _) =>
      apply (deallocate_adopts_any_pointer 0 8200 W)
  end.
  - reach_by 16 4 2 4096 [Call (Allocate 8192)].
  - vm_compute. reflexivity.
Defined.
